(** * supabase-to-zod: [transformTypes] (src/lib/transform-types.ts)

    A shallow embedding of the extraction-and-rewrite pipeline: the zod
    boundary validation of the options, the walk over the TypeScript syntax
    tree of the source text, the assembly of the collected declarations and
    the rewriting of qualified enum / composite-type references.

    - Strings are sequences of code units; [includes], [join] and
      [replaceAll] (with its replacement patterns) follow ECMAScript.
    - The options are JavaScript values parsed by the zod schemas of lines
      5-38; a formatter is the validating wrapper that zod returns, so a
      call of it either gives a string or throws.
    - The parser and [getNodeName] are parameters of the walk; the syntax
      tree keeps what the guards of the walk tell apart and the text of
      every node that the walk prints.
    - The callbacks update [typeStrings], [enumNames] and
      [compositeTypeNames] by explicit state passing in an error monad. *)

From Stdlib Require Import String Ascii List Bool Arith Lia DecimalString.
Import ListNotations.
Open Scope string_scope.
Set Warnings "-register-all".

(** ** JavaScript strings

    Strings are sequences of code units; the operations below follow
    ECMAScript's [String.prototype] methods used by the source. *)

Module Js.

(** The double-quote character and the line feed, which have no literal
    spelling inside a string here. *)
Definition dquote : string := String (ascii_of_nat 34) EmptyString.
Definition newline : string := String (ascii_of_nat 10) EmptyString.

(** [s.startsWith(searchString)] *)
Fixpoint startsWith (searchString s : string) : bool :=
  match searchString, s with
  | EmptyString, _ => true
  | String a p, String b t => if Ascii.eqb a b then startsWith p t else false
  | String _ _, EmptyString => false
  end.

(** [s.includes(searchString)] *)
Fixpoint includes (searchString s : string) : bool :=
  if startsWith searchString s then true
  else match s with
       | EmptyString => false
       | String _ t => includes searchString t
       end.

(** [array.join(separator)] on an array of strings. *)
Definition join (separator : string) (l : list string) : string :=
  String.concat separator l.

(** [s.substring(n)] *)
Fixpoint drop (n : nat) (s : string) : string :=
  match n, s with
  | O, _ => s
  | S k, String _ t => drop k t
  | S _, EmptyString => EmptyString
  end.

(** GetSubstitution (ECMA-262, 22.1.3.19.1) for a string pattern: there
    are no captures, so [$$] yields a dollar sign, [$&] the matched text,
    [$`] the text before the match, [$'] the text after it, and every other
    code unit (a dollar sign followed by digits or [<] included) is copied. *)
Fixpoint getSubstitution (matched before after template : string) : string :=
  match template with
  | EmptyString => EmptyString
  | String a t =>
      if Ascii.eqb a "$" then
        match t with
        | EmptyString => String a EmptyString
        | String c rest =>
            if Ascii.eqb c "$" then String "$" (getSubstitution matched before after rest)
            else if Ascii.eqb c "`" then before ++ getSubstitution matched before after rest
            else if Ascii.eqb c "&" then matched ++ getSubstitution matched before after rest
            else if Ascii.eqb c "'" then after ++ getSubstitution matched before after rest
            else String a (getSubstitution matched before after t)
        end
      else String a (getSubstitution matched before after t)
  end.

(** The scan of [String.prototype.replaceAll] with a string pattern: [before]
    is the text already passed, [skip] the number of code units of the
    current match still to pass over, [s] the rest of the text.  Matches are
    found left to right and do not overlap; an empty pattern matches before
    every code unit and at the end. *)
Fixpoint replaceAllFrom (searchString replaceValue before : string)
    (skip : nat) (s : string) {struct s} : string :=
  match s with
  | EmptyString =>
      match skip, searchString with
      | O, EmptyString => getSubstitution searchString before EmptyString replaceValue
      | _, _ => EmptyString
      end
  | String c rest =>
      match skip with
      | S k => replaceAllFrom searchString replaceValue (before ++ String c EmptyString) k rest
      | O =>
          if startsWith searchString s then
            getSubstitution searchString before (drop (String.length searchString) s) replaceValue
            ++ match String.length searchString with
               | O => String c (replaceAllFrom searchString replaceValue
                                  (before ++ String c EmptyString) 0 rest)
               | S k => replaceAllFrom searchString replaceValue
                          (before ++ String c EmptyString) k rest
               end
          else String c (replaceAllFrom searchString replaceValue
                           (before ++ String c EmptyString) 0 rest)
      end
  end.

(** [s.replaceAll(searchString, replaceValue)] *)
Definition replaceAll (s searchString replaceValue : string) : string :=
  replaceAllFrom searchString replaceValue EmptyString 0 s.

End Js.

(** ** Values at the zod boundary

    [transformTypes] is [z.function().args(schema).implement(...)]: the
    caller's argument is an arbitrary JavaScript value that zod parses
    before the implementation runs. *)

Inductive Prim : Type :=
| JsUndefined
| JsNull
| JsBoolean (b : bool)
| JsNumber (n : nat)
| JsString (s : string).

(** A function value carries its declared parameter count ([f.length]) and
    its behaviour on the argument list. *)
Inductive Value : Type :=
| Primitive (p : Prim)
| Function (length : nat) (call : list Prim -> Prim).

Inductive ZodIssue : Type :=
| invalid_type (path : string) (expected : string)
| too_small (minimum : nat)
| invalid_arguments (argumentsError : list ZodIssue)
| invalid_return_type (returnTypeError : list ZodIssue).

Definition ZodError : Type := list ZodIssue.

Inductive Result (A : Type) : Type :=
| Ok (a : A)
| Throw (e : ZodError).
Arguments Ok {A} a.
Arguments Throw {A} e.

Definition bind {A B : Type} (r : Result A) (k : A -> Result B) : Result B :=
  match r with
  | Ok a => k a
  | Throw e => Throw e
  end.

Notation "x <- c ;; k" := (bind c (fun x => k))
  (at level 61, c at next level, right associativity).

Definition issues {A : Type} (r : Result A) : list ZodIssue :=
  match r with
  | Ok _ => []
  | Throw e => e
  end.

Module Zod.

(** [z.string()] *)
Definition string (path : String.string) (v : Value) : Result String.string :=
  match v with
  | Primitive (JsString s) => Ok s
  | _ => Throw [invalid_type path "string"]
  end.

(** [z.boolean()] *)
Definition boolean (path : String.string) (v : Value) : Result bool :=
  match v with
  | Primitive (JsBoolean b) => Ok b
  | _ => Throw [invalid_type path "boolean"]
  end.

(** [schema.default(d)]: an [undefined] input is replaced by the default
    before the inner schema parses it. *)
Definition default {A : Type} (inner : Value -> Result A) (d : Value) (v : Value) : Result A :=
  match v with
  | Primitive JsUndefined => inner d
  | _ => inner v
  end.

(** The issues of the declared items of the argument tuple, item by item:
    every one must be a string. *)
Fixpoint itemIssues (index declared : nat) (args : list Prim) : list ZodIssue :=
  match declared, args with
  | S k, JsString _ :: rest => itemIssues (S index) k rest
  | S k, _ :: rest =>
      invalid_type (NilEmpty.string_of_uint (Nat.to_uint index)) "string"
      :: itemIssues (S index) k rest
  | _, _ => []
  end.

(** The issues of the argument tuple [z.tuple([z.string(), ...])
    .rest(z.unknown())]: with fewer arguments than the schema declares the
    tuple reports one [too_small] issue and looks at no argument; otherwise
    the declared items are parsed and further arguments are accepted. *)
Definition argumentIssues (declared : nat) (args : list Prim) : list ZodIssue :=
  if (List.length args <? declared)%nat then [too_small declared]
  else itemIssues 0 declared args.

(** The function zod returns when [z.function().args(z.string(), ...)
    .returns(z.string())] parses a function: arguments and return value are
    validated at every call. *)
Definition validatedCall (declared : nat) (call : list Prim -> Prim)
    (args : list Prim) : Result String.string :=
  match argumentIssues declared args with
  | [] =>
      match call args with
      | JsString r => Ok r
      | _ => Throw [invalid_return_type [invalid_type EmptyString "string"]]
      end
  | argumentsError => Throw [invalid_arguments argumentsError]
  end.

(** [z.function().args(...).returns(z.string())]: the parse only checks
    that the input is a function. *)
Definition function (declared : nat) (path : String.string) (v : Value)
    : Result (list Prim -> Result String.string) :=
  match v with
  | Function _ call => Ok (validatedCall declared call)
  | Primitive _ => Throw [invalid_type path "function"]
  end.

End Zod.

(** ToString on primitives, as a template literal applies it. *)
Definition toString (p : Prim) : string :=
  match p with
  | JsUndefined => "undefined"
  | JsNull => "null"
  | JsBoolean true => "true"
  | JsBoolean false => "false"
  | JsNumber n => DecimalString.NilEmpty.string_of_uint (Nat.to_uint n)
  | JsString s => s
  end.

(** [(name: string) => name] *)
Definition identityFormatter : Value :=
  Function 1 (fun args => nth 0 args JsUndefined).

(** [(name: string, type: string) => `${name}${type}`] *)
Definition concatFormatter : Value :=
  Function 2 (fun args =>
    JsString (toString (nth 0 args JsUndefined) ++ toString (nth 1 args JsUndefined))).

(** The argument of [transformTypes] as the caller passes it: one value per
    key of the options object ([JsUndefined] for an absent key). *)
Record RawOptions : Type := {
  raw_sourceText : Value;
  raw_schema : Value;
  raw_enumFormatter : Value;
  raw_compositeTypeFormatter : Value;
  raw_functionFormatter : Value;
  raw_tableOrViewFormatter : Value;
  raw_relationships : Value;
  raw_updates : Value;
  raw_inserts : Value;
  raw_deletes : Value
}.

(** [TransformTypesOptions]: the parsed options.  The formatters are the
    validating wrappers zod builds around the caller's functions. *)
Record TransformTypesOptions : Type := {
  sourceText : string;
  schema : string;
  enumFormatter : Prim -> Result string;
  compositeTypeFormatter : Prim -> Result string;
  functionFormatter : Prim -> Prim -> Result string;
  tableOrViewFormatter : Prim -> Prim -> Result string;
  relationships : bool;
  updates : bool;
  inserts : bool;
  deletes : bool
}.

Definition unary (f : list Prim -> Result string) : Prim -> Result string :=
  fun a => f [a].

Definition binary (f : list Prim -> Result string) : Prim -> Prim -> Result string :=
  fun a b => f [a; b].

(** The results of two keys of a [z.object] put together: the object is
    built when both parse, and the issues of both are kept otherwise. *)
Definition both {A B : Type} (ra : Result A) (rb : Result B) : Result (A * B) :=
  match ra, rb with
  | Ok a, Ok b => Ok (a, b)
  | _, _ => Throw (issues ra ++ issues rb)%list
  end.

Definition flagSchema (path : string) : Value -> Result bool :=
  Zod.default (Zod.boolean path) (Primitive (JsBoolean false)).

(** [transformTypesOptionsSchema]: a [z.object]; every key is parsed and
    the issues of all keys are reported together. *)
Definition transformTypesOptionsSchema (raw : RawOptions) : Result TransformTypesOptions :=
  parsed <-
    both (Zod.string "sourceText" (raw_sourceText raw))
   (both (Zod.default (Zod.string "schema") (Primitive (JsString "public")) (raw_schema raw))
   (both (Zod.default (Zod.function 1 "enumFormatter") identityFormatter
            (raw_enumFormatter raw))
   (both (Zod.default (Zod.function 1 "compositeTypeFormatter") identityFormatter
            (raw_compositeTypeFormatter raw))
   (both (Zod.default (Zod.function 2 "functionFormatter") concatFormatter
            (raw_functionFormatter raw))
   (both (Zod.default (Zod.function 2 "tableOrViewFormatter") concatFormatter
            (raw_tableOrViewFormatter raw))
   (both (flagSchema "relationships" (raw_relationships raw))
   (both (flagSchema "updates" (raw_updates raw))
   (both (flagSchema "inserts" (raw_inserts raw))
         (flagSchema "deletes" (raw_deletes raw))))))))));;
  let '(src, (sch, (ef, (cf, (ff, (tf, (rel, (upd, (ins, del))))))))) := parsed in
  Ok {| sourceText := src; schema := sch;
        enumFormatter := unary ef; compositeTypeFormatter := unary cf;
        functionFormatter := binary ff; tableOrViewFormatter := binary tf;
        relationships := rel; updates := upd; inserts := ins; deletes := del |}.

(** ** The syntax tree

    The part of the TypeScript syntax tree that the guards of the walk
    distinguish.  Every node that can be printed by the walk carries the
    source text [getText] returns for it. *)

(** A node of a kind that no guard of the walk recognises: a modifier, a
    question token, a type parameter, a heritage clause, a method or index
    signature, any other statement, the end-of-file token. *)
Record OtherNode : Type := { otherKind : nat; otherText : string }.

(** [ts.PropertyName]; [text] is the name without quotes. *)
Inductive PropertyName : Type :=
| Identifier (text : string)
| StringLiteral (text : string)
| NumericLiteral (text : string)
| ComputedPropertyName (text : string).

Inductive TypeNode : Type :=
| TypeLiteralNode (text : string) (members : list TypeElement)
| TupleTypeNode (text : string)
| UnionTypeNode (text : string)
| LiteralTypeNode (text : string)
| TypeReferenceNode (text : string)
| OtherTypeNode (text : string)
with TypeElement : Type :=
| PropertySignature (text : string) (modifiers : list OtherNode) (name : PropertyName)
    (questionToken : option OtherNode) (type : option TypeNode)
| OtherTypeElement (o : OtherNode).

Inductive Statement : Type :=
| TypeAliasDeclaration (text : string) (modifiers : list OtherNode) (name : string)
    (typeParameters : list OtherNode) (type : TypeNode)
| InterfaceDeclaration (text : string) (modifiers : list OtherNode) (name : string)
    (typeParameters : list OtherNode) (heritageClauses : list OtherNode)
    (members : list TypeElement)
| OtherStatement (o : OtherNode).

(** [ts.Node] *)
Inductive Node : Type :=
| OfStatement (s : Statement)
| OfTypeElement (e : TypeElement)
| OfTypeNode (t : TypeNode)
| OfName (p : PropertyName)
| OfOther (o : OtherNode).

Record SourceFile : Type := { statements : list Statement; endOfFileToken : OtherNode }.

Definition optionToList {A : Type} (o : option A) : list A :=
  match o with
  | Some a => [a]
  | None => []
  end.

(** The children [node.forEachChild] visits, in order.  The walk calls it
    on interface declarations, property signatures and type literals only. *)
Definition children (n : Node) : list Node :=
  match n with
  | OfStatement (TypeAliasDeclaration _ modifiers name typeParameters type) =>
      map OfOther modifiers ++ [OfName (Identifier name)] ++ map OfOther typeParameters
      ++ [OfTypeNode type]
  | OfStatement (InterfaceDeclaration _ modifiers name typeParameters heritageClauses members) =>
      map OfOther modifiers ++ [OfName (Identifier name)] ++ map OfOther typeParameters
      ++ map OfOther heritageClauses ++ map OfTypeElement members
  | OfTypeElement (PropertySignature _ modifiers name questionToken type) =>
      map OfOther modifiers ++ [OfName name] ++ map OfOther (optionToList questionToken)
      ++ map OfTypeNode (optionToList type)
  | OfTypeNode (TypeLiteralNode _ members) => map OfTypeElement members
  | _ => []
  end%list.

(** [sourceFile.forEachChild]: the statements, then the end-of-file token. *)
Definition sourceFileChildren (sf : SourceFile) : list Node :=
  (map OfStatement (statements sf) ++ [OfOther (endOfFileToken sf)])%list.

(** [n.getText(sourceFile)] *)
Definition getText (n : Node) : string :=
  match n with
  | OfStatement (TypeAliasDeclaration text _ _ _ _) => text
  | OfStatement (InterfaceDeclaration text _ _ _ _ _) => text
  | OfStatement (OtherStatement o) => otherText o
  | OfTypeElement (OtherTypeElement o) => otherText o
  | OfTypeElement (PropertySignature text _ _ _ _) => text
  | OfTypeNode (TypeLiteralNode text _) => text
  | OfTypeNode (TupleTypeNode text) => text
  | OfTypeNode (UnionTypeNode text) => text
  | OfTypeNode (LiteralTypeNode text) => text
  | OfTypeNode (TypeReferenceNode text) => text
  | OfTypeNode (OtherTypeNode text) => text
  | OfName (Identifier text) => text
  | OfName (StringLiteral text) => text
  | OfName (NumericLiteral text) => text
  | OfName (ComputedPropertyName text) => text
  | OfOther o => otherText o
  end.

Definition isPropertySignature (n : Node) : bool :=
  match n with OfTypeElement (PropertySignature _ _ _ _ _) => true | _ => false end.

Definition isTypeLiteralNode (n : Node) : bool :=
  match n with OfTypeNode (TypeLiteralNode _ _) => true | _ => false end.

Definition isTupleTypeNode (n : Node) : bool :=
  match n with OfTypeNode (TupleTypeNode _) => true | _ => false end.

Definition isUnionTypeNode (n : Node) : bool :=
  match n with OfTypeNode (UnionTypeNode _) => true | _ => false end.

Definition isLiteralTypeNode (n : Node) : bool :=
  match n with OfTypeNode (LiteralTypeNode _) => true | _ => false end.

Definition isTypeReferenceNode (n : Node) : bool :=
  match n with OfTypeNode (TypeReferenceNode _) => true | _ => false end.

(** [ts.isPropertySignature(n) && ts.isIdentifier(n.name)], giving
    [n.name.text]. *)
Definition identifierNameText (n : Node) : option string :=
  match n with
  | OfTypeElement (PropertySignature _ _ (Identifier text) _ _) => Some text
  | _ => None
  end.

(** ** The state of the walk *)

(** An element of [enumNames] or [compositeTypeNames]; [name] is what the
    name resolver returned. *)
Record NameEntry : Type := { name : option string; formattedName : string }.

Record State : Type := {
  typeStrings : list string;
  enumNames : list NameEntry;
  compositeTypeNames : list NameEntry
}.

Definition initialState : State :=
  {| typeStrings := []; enumNames := []; compositeTypeNames := [] |}.

(** [typeStrings.push(s)] *)
Definition pushTypeString (s : string) (st : State) : State :=
  {| typeStrings := typeStrings st ++ [s];
     enumNames := enumNames st;
     compositeTypeNames := compositeTypeNames st |}.

(** [enumNames.push(e)] *)
Definition pushEnumName (e : NameEntry) (st : State) : State :=
  {| typeStrings := typeStrings st;
     enumNames := enumNames st ++ [e];
     compositeTypeNames := compositeTypeNames st |}.

(** [compositeTypeNames.push(e)] *)
Definition pushCompositeTypeName (e : NameEntry) (st : State) : State :=
  {| typeStrings := typeStrings st;
     enumNames := enumNames st;
     compositeTypeNames := compositeTypeNames st ++ [e] |}.

(** A callback of the walk: it updates the three arrays or throws. *)
Definition Walk : Type := State -> Result State.

Definition skip : Walk := fun st => Ok st.

(** Iteration with a callback that returns nothing, so that no child stops
    the iteration early. *)
Fixpoint forEach (cb : Node -> Walk) (l : list Node) : Walk :=
  fun st =>
    match l with
    | [] => Ok st
    | n :: rest => st' <- cb n st;; forEach cb rest st'
    end.

Definition forEachChild (n : Node) (cb : Node -> Walk) : Walk :=
  forEach cb (children n).

(** The JavaScript value of a resolved name. *)
Definition nameValue (o : option string) : Prim :=
  match o with
  | Some s => JsString s
  | None => JsUndefined
  end.

(** [name === literal] *)
Definition nameIs (o : option string) (literal : string) : bool :=
  match o with
  | Some s => String.eqb s literal
  | None => false
  end.

(** The truthiness test [if (operation)]. *)
Definition truthy (o : option string) : bool :=
  match o with
  | Some EmptyString => false
  | Some _ => true
  | None => false
  end.

(** [`export type ${formatted} = ${text}`] *)
Definition exportType (formatted text : string) : string :=
  "export type " ++ formatted ++ " = " ++ text.

(** ** The walk of [transformTypes]

    [getNodeName] (src/lib/get-node-name.ts) and the parser
    ([ts.createSourceFile]) are not part of the file; the walk is
    parameterised by them.  The name resolver gives the declared identifier
    of a node, or nothing when the node has none. *)

Section TransformTypes.

Variable getNodeName : Node -> option string.
Variable createSourceFile : string -> SourceFile.

Section Callbacks.

Variable opts : TransformTypesOptions.

(** *** Tables and views (lines 78-124) *)

(** Lines 91-97: the operations the options gate off. *)
Definition gatedOff (operation : option string) : bool :=
  (nameIs operation "Relationships" && negb (relationships opts))
  || (nameIs operation "Insert" && negb (inserts opts))
  || (nameIs operation "Update" && negb (updates opts))
  || (nameIs operation "Delete" && negb (deletes opts)).

(** Lines 101-114: a child of an operation. *)
Definition tableOperationType (tableOrViewName operation : option string) (n : Node) : Walk :=
  fun st =>
    if isTypeLiteralNode n || isTupleTypeNode n then
      formatted <- tableOrViewFormatter opts (nameValue tableOrViewName) (nameValue operation);;
      Ok (pushTypeString (exportType formatted (getText n)) st)
    else Ok st.

(** Lines 87-117: a member of a table's type literal. *)
Definition tableOperation (tableOrViewName : option string) (n : Node) : Walk :=
  fun st =>
    if isPropertySignature n then
      let operation := getNodeName n in
      if gatedOff operation then Ok st
      else if truthy operation then
        forEachChild n (tableOperationType tableOrViewName operation) st
      else Ok st
    else Ok st.

(** Lines 85-119: a child of a table or view. *)
Definition tableBody (tableOrViewName : option string) (n : Node) : Walk :=
  fun st =>
    if isTypeLiteralNode n then forEachChild n (tableOperation tableOrViewName) st
    else Ok st.

(** Lines 81-121: a member of the type literal of [Tables] or [Views]. *)
Definition tableOrView (n : Node) : Walk :=
  fun st =>
    if isPropertySignature n then
      let tableOrViewName := getNodeName n in
      forEachChild n (tableBody tableOrViewName) st
    else Ok st.

(** Lines 79-123: a child of [Tables] or [Views]. *)
Definition tablesOrViews (n : Node) : Walk :=
  fun st =>
    if isTypeLiteralNode n then forEachChild n tableOrView st
    else Ok st.

(** *** Enums (lines 125-163) *)

(** Lines 131-158: a child of an enum entry.  The two guards are tested
    one after the other; no node is both a union and a literal type. *)
Definition enumType (enumName : option string) (n : Node) : Walk :=
  fun st =>
    st1 <- (if isUnionTypeNode n then
              formattedName <- enumFormatter opts (nameValue enumName);;
              Ok (pushEnumName {| name := enumName; formattedName := formattedName |}
                    (pushTypeString (exportType formattedName (getText n)) st))
            else Ok st);;
    if isLiteralTypeNode n then
      formattedName <- enumFormatter opts (nameValue enumName);;
      Ok (pushEnumName {| name := enumName; formattedName := formattedName |}
            (pushTypeString (exportType formattedName (getText n)) st1))
    else Ok st1.

(** Lines 128-160: a member of the type literal of [Enums]. *)
Definition enumEntry (n : Node) : Walk :=
  fun st =>
    let enumName := getNodeName n in
    if isPropertySignature n then forEachChild n (enumType enumName) st
    else Ok st.

(** Lines 126-162: a child of [Enums]. *)
Definition enums (n : Node) : Walk :=
  fun st =>
    if isTypeLiteralNode n then forEachChild n enumEntry st
    else Ok st.

(** *** Composite types (lines 164-189) *)

(** Lines 170-184: a child of a composite-type entry. *)
Definition compositeType (enumName : option string) (n : Node) : Walk :=
  fun st =>
    if isTypeLiteralNode n then
      formattedName <- compositeTypeFormatter opts (nameValue enumName);;
      Ok (pushCompositeTypeName {| name := enumName; formattedName := formattedName |}
            (pushTypeString (exportType formattedName (getText n)) st))
    else Ok st.

(** Lines 167-186: a member of the type literal of [CompositeTypes]. *)
Definition compositeTypeEntry (n : Node) : Walk :=
  fun st =>
    let enumName := getNodeName n in
    if isPropertySignature n then forEachChild n (compositeType enumName) st
    else Ok st.

(** Lines 165-188: a child of [CompositeTypes]. *)
Definition compositeTypes (n : Node) : Walk :=
  fun st =>
    if isTypeLiteralNode n then forEachChild n compositeTypeEntry st
    else Ok st.

(** *** Functions (lines 190-219) *)

(** Lines 201-210: a child of an argument or return grouping. *)
Definition functionArgType (functionName argType : option string) (n : Node) : Walk :=
  fun st =>
    if isTypeReferenceNode n then
      formatted <- functionFormatter opts (nameValue functionName) (nameValue argType);;
      Ok (pushTypeString (exportType formatted (getText n)) st)
    else Ok st.

(** Lines 198-212: a member of a function's type literal. *)
Definition functionArg (functionName : option string) (n : Node) : Walk :=
  fun st =>
    if isPropertySignature n then
      let argType := getNodeName n in
      forEachChild n (functionArgType functionName argType) st
    else Ok st.

(** Lines 196-214: a child of a function entry. *)
Definition functionBody (functionName : option string) (n : Node) : Walk :=
  fun st =>
    if isTypeLiteralNode n then forEachChild n (functionArg functionName) st
    else Ok st.

(** Lines 193-216: a member of the type literal of [Functions]. *)
Definition functionEntry (n : Node) : Walk :=
  fun st =>
    if isPropertySignature n then
      let functionName := getNodeName n in
      forEachChild n (functionBody functionName) st
    else Ok st.

(** Lines 191-218: a child of [Functions]. *)
Definition functions (n : Node) : Walk :=
  fun st =>
    if isTypeLiteralNode n then forEachChild n functionEntry st
    else Ok st.

(** *** The schema (lines 69-226) *)

(** Lines 76-221: a member of the schema's type literal; the four tests
    on its name follow each other. *)
Definition schemaMember (n : Node) : Walk :=
  fun st =>
    match identifierNameText n with
    | Some text =>
        st1 <- (if String.eqb text "Tables" || String.eqb text "Views"
                then forEachChild n tablesOrViews st else Ok st);;
        st2 <- (if String.eqb "Enums" text
                then forEachChild n enums st1 else Ok st1);;
        st3 <- (if String.eqb "CompositeTypes" text
                then forEachChild n compositeTypes st2 else Ok st2);;
        if String.eqb "Functions" text
        then forEachChild n functions st3 else Ok st3
    | None => Ok st
    end.

(** Lines 74-223: a child of the schema entry. *)
Definition schemaBody (n : Node) : Walk :=
  fun st =>
    if isTypeLiteralNode n then forEachChild n schemaMember st
    else Ok st.

(** Lines 69-226: [processDatabase]. *)
Definition processDatabase (n : Node) : Walk :=
  fun st =>
    if isPropertySignature n then
      let schemaName := getNodeName n in
      if nameIs schemaName (schema opts) then forEachChild n schemaBody st
      else Ok st
    else Ok st.

(** Lines 228-237: the [Database] declaration, alias or interface. *)
Definition database (n : Node) : Walk :=
  fun st =>
    match n with
    | OfStatement (TypeAliasDeclaration _ _ name _ (TypeLiteralNode _ members)) =>
        if String.eqb name "Database"
        then forEach processDatabase (map OfTypeElement members) st
        else Ok st
    | OfStatement (InterfaceDeclaration _ _ name _ _ _) =>
        if String.eqb name "Database" then forEachChild n processDatabase st
        else Ok st
    | _ => Ok st
    end.

(** Lines 239-241: the [Json] alias. *)
Definition json (n : Node) : Walk :=
  fun st =>
    match n with
    | OfStatement (TypeAliasDeclaration _ _ name _ _) =>
        if String.eqb name "Json" then Ok (pushTypeString (getText n) st)
        else Ok st
    | _ => Ok st
    end.

(** Lines 68-242: the callback of [sourceFile.forEachChild]. *)
Definition topLevel (n : Node) : Walk :=
  fun st => st1 <- database n st;; json n st1.

End Callbacks.

(** *** Assembly and rewriting (lines 244-270) *)

Definition separator : string := ";" ++ Js.newline.

(** Lines 244-246. *)
Definition retained (typeStrings : list string) : list string :=
  filter (fun s => negb (Js.includes "Record<number" s)) typeStrings.

Definition assemble (typeStrings : list string) : string :=
  Js.join separator (retained typeStrings).

(** [`Database["${schema}"]["${group}"]["${name}"]`] and its single-quoted
    spelling. *)
Definition qualifiedPath (quote schema group : string) (name : option string) : string :=
  "Database[" ++ quote ++ schema ++ quote ++ "][" ++ quote ++ group ++ quote ++ "]["
  ++ quote ++ toString (nameValue name) ++ quote ++ "]".

(** The body of the loops at lines 248-257 and 259-268. *)
Definition rewriteEntry (schema group : string) (parsedTypes : string) (e : NameEntry)
    : string :=
  let parsedTypes1 :=
    Js.replaceAll parsedTypes (qualifiedPath Js.dquote schema group (name e))
      (formattedName e) in
  Js.replaceAll parsedTypes1 (qualifiedPath "'" schema group (name e)) (formattedName e).

Definition rewriteReferences (schema : string) (st : State) (parsedTypes : string) : string :=
  fold_left (rewriteEntry schema "CompositeTypes") (compositeTypeNames st)
    (fold_left (rewriteEntry schema "Enums") (enumNames st) parsedTypes).

(** The walk of a parsed source file (lines 64-242). *)
Definition walkSourceFile (opts : TransformTypesOptions) (sf : SourceFile) : Result State :=
  forEach (topLevel opts) (sourceFileChildren sf) initialState.

(** Lines 64-270 on a parsed source file. *)
Definition transformSourceFile (opts : TransformTypesOptions) (sf : SourceFile)
    : Result string :=
  st <- walkSourceFile opts sf;;
  Ok (rewriteReferences (schema opts) st (assemble (typeStrings st))).

(** Lines 46-271: the implementation, from the parsed options. *)
Definition implementation (opts : TransformTypesOptions) : Result string :=
  transformSourceFile opts (createSourceFile (sourceText opts)).

(** [transformTypes]: the options are parsed, then the implementation runs
    (its result is a string, so the [returns] check always passes); a parse
    failure is thrown as an [invalid_arguments] issue. *)
Definition transformTypes (raw : RawOptions) : Result string :=
  match transformTypesOptionsSchema raw with
  | Ok opts => implementation opts
  | Throw argumentsError => Throw [invalid_arguments argumentsError]
  end.

End TransformTypes.

(** ** Vocabulary of the properties *)

(** [p] occurs in [s]. *)
Definition occurs (p s : string) : Prop := exists a b, s = a ++ p ++ b.

(** A replacement text without dollar sign: GetSubstitution copies it. *)
Definition plain (replaceValue : string) : Prop := Js.includes "$" replaceValue = false.

(** [ReplacedAll p r s t]: [t] is [s] with every occurrence of [p], taken
    from the left and without overlap, replaced by [r].  In the second rule
    the occurrence after [u] is the leftmost one of [u ++ p ++ s']: the only
    occurrence of [p] in [u ++ p] is the final one. *)
Inductive ReplacedAll (p r : string) : string -> string -> Prop :=
| replaced_none s : ~ occurs p s -> ReplacedAll p r s s
| replaced_next u s' t' :
    (forall a b, u ++ p = a ++ p ++ b -> a = u) ->
    ReplacedAll p r s' t' ->
    ReplacedAll p r (u ++ p ++ s') (u ++ r ++ t').

(** The successive replacement passes of the two loops at lines 248-268:
    for every entry the double-quoted path, then the single-quoted one. *)
Definition entryPasses (schema group : string) (e : NameEntry) : list (string * string) :=
  [ (qualifiedPath Js.dquote schema group (name e), formattedName e);
    (qualifiedPath "'" schema group (name e), formattedName e) ].

Definition passes (schema : string) (st : State) : list (string * string) :=
  (flat_map (entryPasses schema "Enums") (enumNames st)
   ++ flat_map (entryPasses schema "CompositeTypes") (compositeTypeNames st))%list.

(** [RewriteChain ps t out]: [out] is reached from [t] by the passes [ps] in
    order, each replacing every occurrence of its path in the whole text. *)
Inductive RewriteChain : list (string * string) -> string -> string -> Prop :=
| chain_nil t : RewriteChain [] t t
| chain_cons p r ps t t' out :
    ReplacedAll p r t t' -> RewriteChain ps t' out -> RewriteChain ((p, r) :: ps) t out.

(** What a callback adds to the three arrays. *)
Definition appendState (a b : State) : State :=
  {| typeStrings := typeStrings a ++ typeStrings b;
     enumNames := enumNames a ++ enumNames b;
     compositeTypeNames := compositeTypeNames a ++ compositeTypeNames b |}.

(** A callback only appends, and what it appends (or whether it throws) does
    not depend on the arrays it starts from; [Q] holds of what it appends. *)
Definition Emits (Q : State -> Prop) (w : Walk) : Prop :=
  (forall st, w st = (d <- w initialState;; Ok (appendState st d)))
  /\ (forall d, w initialState = Ok d -> Q d).

(** [l1] is [l2] with some elements left out. *)
Inductive Subsequence {A : Type} : list A -> list A -> Prop :=
| subsequence_nil : Subsequence [] []
| subsequence_keep x l1 l2 : Subsequence l1 l2 -> Subsequence (x :: l1) (x :: l2)
| subsequence_drop x l1 l2 : Subsequence l1 l2 -> Subsequence l1 (x :: l2).

(** The options with the four gating flags set. *)
Definition withFlags (opts : TransformTypesOptions) (rel upd ins del : bool)
    : TransformTypesOptions :=
  {| sourceText := sourceText opts; schema := schema opts;
     enumFormatter := enumFormatter opts;
     compositeTypeFormatter := compositeTypeFormatter opts;
     functionFormatter := functionFormatter opts;
     tableOrViewFormatter := tableOrViewFormatter opts;
     relationships := rel; updates := upd; inserts := ins; deletes := del |}.

(** The texts of the top-level type aliases named [Json], in source order. *)
Definition jsonText (s : Statement) : list string :=
  match s with
  | TypeAliasDeclaration text _ name _ _ => if String.eqb name "Json" then [text] else []
  | _ => []
  end.

Definition jsonTexts (sf : SourceFile) : list string :=
  flat_map jsonText (statements sf).

(** The arrays after a walk that collected the declarations [l] only. *)
Definition declarationsOnly (l : list string) : State :=
  {| typeStrings := l; enumNames := []; compositeTypeNames := [] |}.

(** The members of a top-level declaration that the walk takes for the
    [Database] root: an alias of a type literal or an interface of that name. *)
Definition databaseMembers (s : Statement) : list TypeElement :=
  match s with
  | TypeAliasDeclaration _ _ name _ (TypeLiteralNode _ members) =>
      if String.eqb name "Database" then members else []
  | InterfaceDeclaration _ _ name _ _ members =>
      if String.eqb name "Database" then members else []
  | _ => []
  end.

(** No entry of a [Database] declaration of the file is named [schema]. *)
Definition schemaAbsent (getNodeName : Node -> option string) (schema : string)
    (sf : SourceFile) : Prop :=
  forall s m, In s (statements sf) -> In m (databaseMembers s) ->
    isPropertySignature (OfTypeElement m) = true ->
    nameIs (getNodeName (OfTypeElement m)) schema = false.

(** The shapes the options schema accepts, key by key. *)
Definition isString (v : Value) : bool :=
  match v with Primitive (JsString _) => true | _ => false end.

Definition isUndefined (v : Value) : bool :=
  match v with Primitive JsUndefined => true | _ => false end.

Definition isBoolean (v : Value) : bool :=
  match v with Primitive (JsBoolean _) => true | _ => false end.

Definition isFunction (v : Value) : bool :=
  match v with Function _ _ => true | Primitive _ => false end.

Definition validShape (raw : RawOptions) : bool :=
  isString (raw_sourceText raw)
  && (isUndefined (raw_schema raw) || isString (raw_schema raw))
  && (isUndefined (raw_enumFormatter raw) || isFunction (raw_enumFormatter raw))
  && (isUndefined (raw_compositeTypeFormatter raw)
      || isFunction (raw_compositeTypeFormatter raw))
  && (isUndefined (raw_functionFormatter raw) || isFunction (raw_functionFormatter raw))
  && (isUndefined (raw_tableOrViewFormatter raw)
      || isFunction (raw_tableOrViewFormatter raw))
  && (isUndefined (raw_relationships raw) || isBoolean (raw_relationships raw))
  && (isUndefined (raw_updates raw) || isBoolean (raw_updates raw))
  && (isUndefined (raw_inserts raw) || isBoolean (raw_inserts raw))
  && (isUndefined (raw_deletes raw) || isBoolean (raw_deletes raw)).

(** The issue reported for a key of the options: none when its value is
    accepted, else one [invalid_type] issue that names the key and the type
    expected there. *)
Definition keyIssue (key expected : string) (accepted : bool) : list ZodIssue :=
  if accepted then [] else [invalid_type key expected].

(** The issues of an options object: one per offending key, in the order
    of the keys of the schema. *)
Definition shapeIssues (raw : RawOptions) : list ZodIssue :=
  (keyIssue "sourceText" "string" (isString (raw_sourceText raw))
   ++ keyIssue "schema" "string" (isUndefined (raw_schema raw) || isString (raw_schema raw))
   ++ keyIssue "enumFormatter" "function"
        (isUndefined (raw_enumFormatter raw) || isFunction (raw_enumFormatter raw))
   ++ keyIssue "compositeTypeFormatter" "function"
        (isUndefined (raw_compositeTypeFormatter raw)
         || isFunction (raw_compositeTypeFormatter raw))
   ++ keyIssue "functionFormatter" "function"
        (isUndefined (raw_functionFormatter raw) || isFunction (raw_functionFormatter raw))
   ++ keyIssue "tableOrViewFormatter" "function"
        (isUndefined (raw_tableOrViewFormatter raw)
         || isFunction (raw_tableOrViewFormatter raw))
   ++ keyIssue "relationships" "boolean"
        (isUndefined (raw_relationships raw) || isBoolean (raw_relationships raw))
   ++ keyIssue "updates" "boolean"
        (isUndefined (raw_updates raw) || isBoolean (raw_updates raw))
   ++ keyIssue "inserts" "boolean"
        (isUndefined (raw_inserts raw) || isBoolean (raw_inserts raw))
   ++ keyIssue "deletes" "boolean"
        (isUndefined (raw_deletes raw) || isBoolean (raw_deletes raw)))%list.

Definition failed {A : Type} (r : Result A) : bool :=
  match r with
  | Ok _ => false
  | Throw _ => true
  end.

(** The type of an enum entry is a union or a literal type. *)
Definition isUnionOrLiteral (type : option TypeNode) : bool :=
  match type with
  | Some (UnionTypeNode _) | Some (LiteralTypeNode _) => true
  | _ => false
  end.

(** *** Well-delimited texts

    The conditions under which no path survives the rewriting: names are
    words, and in the text every path begins after a delimiter and every
    bracketed key ends before one. *)

(** A letter, a digit or an underscore. *)
Definition isWordChar (c : ascii) : bool :=
  let n := nat_of_ascii c in
  (((48 <=? n) && (n <=? 57)) || ((65 <=? n) && (n <=? 90))
   || ((97 <=? n) && (n <=? 122)) || (n =? 95))%nat.

Fixpoint allWord (s : string) : bool :=
  match s with
  | EmptyString => true
  | String c t => isWordChar c && allWord t
  end.

Definition isQuote (c : ascii) : bool :=
  Ascii.eqb c (ascii_of_nat 34) || Ascii.eqb c "'".

Fixpoint lastChar (s : string) : option ascii :=
  match s with
  | EmptyString => None
  | String c EmptyString => Some c
  | String _ t => lastChar t
  end.

(** What may come before a path: nothing, or a code unit that is not a
    word character, a quote or a closing bracket. *)
Definition cleanBefore (prev : option ascii) : bool :=
  match prev with
  | None => true
  | Some c => negb (isWordChar c || isQuote c || Ascii.eqb c "]")
  end.

(** Every occurrence of [Database[] in the text comes after such a code
    unit; [prev] is the code unit before the text. *)
Fixpoint pathStartsClean (prev : option ascii) (s : string) : bool :=
  match s with
  | EmptyString => true
  | String c t =>
      (if Js.startsWith "Database[" s then cleanBefore prev else true)
      && pathStartsClean (Some c) t
  end.

(** Every quote followed by a closing bracket is followed by the end of the
    text or by a code unit that is not a word character. *)
Fixpoint keyEndsClean (s : string) : bool :=
  match s with
  | EmptyString => true
  | String c t =>
      (if isQuote c then
         match t with
         | String b (String d _) => negb (Ascii.eqb b "]" && isWordChar d)
         | _ => true
         end
       else true)
      && keyEndsClean t
  end.

(** [s.endsWith(suffix)] *)
Fixpoint endsWith (suffix s : string) : bool :=
  String.eqb s suffix
  || match s with
     | EmptyString => false
     | String _ t => endsWith suffix t
     end.

(** An entry whose name and formatted name are non-empty words, the
    formatted name not ending in [Database]. *)
Definition wordEntry (e : NameEntry) : bool :=
  allWord (toString (nameValue (name e)))
  && allWord (formattedName e)
  && negb (String.eqb (formattedName e) EmptyString)
  && negb (endsWith "Database" (formattedName e)).

(** In a string that is tame after [prev], every word character comes
    after a word character or a quote. *)
Fixpoint tameFrom (prev : ascii) (s : string) : bool :=
  match s with
  | EmptyString => true
  | String c t =>
      (if isWordChar c then isWordChar prev || isQuote prev else true) && tameFrom c t
  end.

(** The two invariants of a well-delimited text, on occurrences. *)
Definition StartsClean (s : string) : Prop :=
  forall a b, s = a ++ "Database[" ++ b -> cleanBefore (lastChar a) = true.

Definition EndsClean (s : string) : Prop :=
  forall a q b, isQuote q = true -> s = a ++ String q (String "]" b) ->
    match b with
    | EmptyString => True
    | String d _ => isWordChar d = false
    end.

(** A qualified path, in either spelling, whose three keys are words. *)
Definition IsWordPath (p : string) : Prop :=
  exists (double : bool) (schema group : string) (nm : option string),
    p = qualifiedPath (if double then Js.dquote else "'") schema group nm
    /\ allWord schema = true /\ allWord group = true
    /\ allWord (toString (nameValue nm)) = true.

(** A pass whose path has word keys and whose replacement is a non-empty
    word that does not end in [Database]. *)
Definition WordPass (pass : string * string) : Prop :=
  IsWordPath (fst pass) /\ allWord (snd pass) = true /\ snd pass <> EmptyString
  /\ endsWith "Database" (snd pass) = false.

(** A pass that leaves the declaration [text] alone and cannot match
    across the separator: its path does not occur in [text] and contains
    neither a semicolon nor a line feed. *)
Definition passesBy (text : string) (pass : string * string) : bool :=
  negb (Js.includes (fst pass) text)
  && negb (Js.includes ";" (fst pass))
  && negb (Js.includes Js.newline (fst pass)).

(** ** Sample inputs *)

(** Modelled from the spec: [getNodeName] (src/lib/get-node-name.ts) is not
    among the sources.  The Name Resolver returns the declared identifier of
    a declaration node, or nothing if the node carries no nameable
    identifier. *)
Definition declaredName (n : Node) : option string :=
  match n with
  | OfTypeElement (PropertySignature _ _ (Identifier text) _ _) => Some text
  | OfStatement (TypeAliasDeclaration _ _ name _ _) => Some name
  | OfStatement (InterfaceDeclaration _ _ name _ _ _) => Some name
  | _ => None
  end.

(** [name: type] *)
Definition property (name : string) (type : TypeNode) : TypeElement :=
  PropertySignature (name ++ ": " ++ getText (OfTypeNode type)) [] (Identifier name) None
    (Some type).

(** [{ member; ...; member }] *)
Definition typeLiteral (members : list TypeElement) : TypeNode :=
  TypeLiteralNode
    ("{ " ++ Js.join "; " (map (fun m => getText (OfTypeElement m)) members) ++ " }")
    members.

(** [type name = type] *)
Definition typeAlias (name : string) (type : TypeNode) : Statement :=
  TypeAliasDeclaration ("type " ++ name ++ " = " ++ getText (OfTypeNode type)) [] name []
    type.

(** [interface name { member; ...; member }] *)
Definition interface (name : string) (members : list TypeElement) : Statement :=
  InterfaceDeclaration
    ("interface " ++ name ++ " "
     ++ getText (OfTypeNode (typeLiteral members))) [] name [] [] members.

Definition endOfFile : OtherNode := {| otherKind := 1; otherText := EmptyString |}.

Definition sourceFileOf (l : list Statement) : SourceFile :=
  {| statements := l; endOfFileToken := endOfFile |}.

(** The text of a source file built from the sample constructors. *)
Definition textOf (sf : SourceFile) : string :=
  Js.join Js.newline (map (fun s => getText (OfStatement s)) (statements sf)).

(** The options object with [sourceText] only: every other key is absent. *)
Definition optionsFor (sf : SourceFile) : RawOptions :=
  {| raw_sourceText := Primitive (JsString (textOf sf));
     raw_schema := Primitive JsUndefined;
     raw_enumFormatter := Primitive JsUndefined;
     raw_compositeTypeFormatter := Primitive JsUndefined;
     raw_functionFormatter := Primitive JsUndefined;
     raw_tableOrViewFormatter := Primitive JsUndefined;
     raw_relationships := Primitive JsUndefined;
     raw_updates := Primitive JsUndefined;
     raw_inserts := Primitive JsUndefined;
     raw_deletes := Primitive JsUndefined |}.

(** A parser that knows one source text. *)
Definition parserOf (sf : SourceFile) : string -> SourceFile :=
  fun text => if String.eqb text (textOf sf) then sf else sourceFileOf [].

(** [Database["public"]["Enums"]["mood"]] *)
Definition moodPath : string := qualifiedPath Js.dquote "public" "Enums" (Some "mood").

(** ['happy' | 'sad'] *)
Definition moodUnion : TypeNode := UnionTypeNode "'happy' | 'sad'".

(** [{ mood: Database["public"]["Enums"]["mood"] }] *)
Definition usersShape : TypeNode := typeLiteral [property "mood" (OtherTypeNode moodPath)].

(** The schema of the end-to-end scenario: an enum [mood] and a table
    [users] with [Row], [Insert] and [Update]. *)
Definition moodTables : TypeElement :=
  property "Tables" (typeLiteral
    [property "users" (typeLiteral
       [property "Row" usersShape; property "Insert" usersShape;
        property "Update" usersShape])]).

Definition moodEnums : TypeElement :=
  property "Enums" (typeLiteral [property "mood" moodUnion]).

Definition moodFile : SourceFile :=
  sourceFileOf
    [typeAlias "Database" (typeLiteral [property "public" (typeLiteral [moodTables; moodEnums])])].

(** [type Json = string | number | boolean | null | Json[]] and nothing
    else: no [Database] declaration. *)
Definition jsonAlias : Statement :=
  typeAlias "Json" (UnionTypeNode "string | number | boolean | null | Json[]").

Definition jsonOnlyFile : SourceFile := sourceFileOf [jsonAlias].

(** [(name, suffix) => `${name}_${suffix}`]: two parameters where the enum
    formatter schema declares one. *)
Definition twoParameterFormatter : Value :=
  Function 2 (fun args =>
    JsString (toString (nth 0 args JsUndefined) ++ "_" ++ toString (nth 1 args JsUndefined))).

Definition wrongArityOptions : RawOptions :=
  {| raw_sourceText := Primitive (JsString (textOf moodFile));
     raw_schema := Primitive JsUndefined;
     raw_enumFormatter := twoParameterFormatter;
     raw_compositeTypeFormatter := Primitive JsUndefined;
     raw_functionFormatter := Primitive JsUndefined;
     raw_tableOrViewFormatter := Primitive JsUndefined;
     raw_relationships := Primitive JsUndefined;
     raw_updates := Primitive JsUndefined;
     raw_inserts := Primitive JsUndefined;
     raw_deletes := Primitive JsUndefined |}.

(** [updates: 'yes']: a flag that is not a boolean. *)
Definition stringFlagOptions : RawOptions :=
  {| raw_sourceText := Primitive (JsString (textOf moodFile));
     raw_schema := Primitive JsUndefined;
     raw_enumFormatter := Primitive JsUndefined;
     raw_compositeTypeFormatter := Primitive JsUndefined;
     raw_functionFormatter := Primitive JsUndefined;
     raw_tableOrViewFormatter := Primitive JsUndefined;
     raw_relationships := Primitive JsUndefined;
     raw_updates := Primitive (JsString "yes");
     raw_inserts := Primitive JsUndefined;
     raw_deletes := Primitive JsUndefined |}.

(** [mood: Mood]: an enum entry that refers to another named type. *)
Definition referenceEntry : TypeElement := property "mood" (TypeReferenceNode "Mood").

(** The default options, parsed, for a source text. *)
Definition defaultsFor (text : string) : TransformTypesOptions :=
  {| sourceText := text; schema := "public";
     enumFormatter := unary (Zod.validatedCall 1 (fun args => nth 0 args JsUndefined));
     compositeTypeFormatter :=
       unary (Zod.validatedCall 1 (fun args => nth 0 args JsUndefined));
     functionFormatter :=
       binary (Zod.validatedCall 2 (fun args =>
         JsString (toString (nth 0 args JsUndefined) ++ toString (nth 1 args JsUndefined))));
     tableOrViewFormatter :=
       binary (Zod.validatedCall 2 (fun args =>
         JsString (toString (nth 0 args JsUndefined) ++ toString (nth 1 args JsUndefined))));
     relationships := false; updates := false; inserts := false; deletes := false |}.

(** [Enums: { mood: 'happy' | 'sad'; mood: 'calm' }]: the name [mood]
    declared twice. *)
Definition duplicateEnumFile : SourceFile :=
  sourceFileOf
    [typeAlias "Database" (typeLiteral [property "public" (typeLiteral
       [property "Enums" (typeLiteral
          [property "mood" moodUnion; property "mood" (LiteralTypeNode "'calm'")])])])].

(** [type Json = Record<number, string>] *)
Definition recordJsonFile : SourceFile :=
  sourceFileOf [typeAlias "Json" (TypeReferenceNode "Record<number, string>")].

(** A table whose row is keyed by an enum named [number]:
    [Row: { byKind: Record<Database["public"]["Enums"]["number"], string> }]
    and [Enums: { number: 'one' | 'two' }]. *)
Definition numberPath : string := qualifiedPath Js.dquote "public" "Enums" (Some "number").

Definition numberEnumFile : SourceFile :=
  sourceFileOf
    [typeAlias "Database" (typeLiteral [property "public" (typeLiteral
       [property "Tables" (typeLiteral
          [property "t" (typeLiteral
             [property "Row" (typeLiteral
                [property "byKind"
                   (TypeReferenceNode ("Record<" ++ numberPath ++ ", string>"))])])]);
        property "Enums" (typeLiteral [property "number" (UnionTypeNode "'one' | 'two'")])])])].

(** The scenario with [Enums] written before [Tables]. *)
Definition enumsFirstFile : SourceFile :=
  sourceFileOf
    [typeAlias "Database" (typeLiteral [property "public" (typeLiteral [moodEnums; moodTables])])].

(** Whenever [w1] returns, [w0] returns too, the declarations it adds are
    among those [w1] adds, in the same order, and it records the same names. *)
Definition Below (w0 w1 : Walk) : Prop :=
  forall d1, w1 initialState = Ok d1 ->
    exists d0, w0 initialState = Ok d0
      /\ Subsequence (typeStrings d0) (typeStrings d1)
      /\ enumNames d0 = enumNames d1
      /\ compositeTypeNames d0 = compositeTypeNames d1.

(** No condition on a contribution. *)
Definition anything (d : State) : Prop := True.

(** A callback that returns, from the empty arrays and so from any. *)
Definition Returns (w : Walk) : Prop := exists d, w initialState = Ok d.

(** A contribution without names. *)
Definition noNames (d : State) : Prop := enumNames d = [] /\ compositeTypeNames d = [].

(** An enum [a] and a table whose row has a string literal type that
    spells a path around the path to [a]:
    [Row: { c: 'Database["public"]["Enums"]["Database["public"]["Enums"]["a"]"]' }]. *)
Definition aPath : string := qualifiedPath Js.dquote "public" "Enums" (Some "a").

Definition nestedPathFile : SourceFile :=
  sourceFileOf
    [typeAlias "Database" (typeLiteral [property "public" (typeLiteral
       [property "Tables" (typeLiteral
          [property "t" (typeLiteral
             [property "Row" (typeLiteral
                [property "c"
                   (LiteralTypeNode
                      ("'Database[" ++ Js.dquote ++ "public" ++ Js.dquote ++ "]["
                       ++ Js.dquote ++ "Enums" ++ Js.dquote ++ "][" ++ Js.dquote
                       ++ aPath ++ Js.dquote ++ "]'"))])])]);
        property "Enums" (typeLiteral [property "a" (UnionTypeNode "'x' | 'y'")])])])].

(** The scenario with [updates: true]. *)
Definition updatesOptions : RawOptions :=
  {| raw_sourceText := Primitive (JsString (textOf moodFile));
     raw_schema := Primitive JsUndefined;
     raw_enumFormatter := Primitive JsUndefined;
     raw_compositeTypeFormatter := Primitive JsUndefined;
     raw_functionFormatter := Primitive JsUndefined;
     raw_tableOrViewFormatter := Primitive JsUndefined;
     raw_relationships := Primitive JsUndefined;
     raw_updates := Primitive (JsBoolean true);
     raw_inserts := Primitive JsUndefined;
     raw_deletes := Primitive JsUndefined |}.

(** A table that refers to the enum [mood], which is declared as a
    reference to another type: [Enums: { mood: Mood }]. *)
Definition referenceEnumFile : SourceFile :=
  sourceFileOf
    [typeAlias "Database" (typeLiteral [property "public" (typeLiteral
       [property "Tables" (typeLiteral
          [property "users" (typeLiteral [property "Row" usersShape])]);
        property "Enums" (typeLiteral [referenceEntry])])])].

(** An enum formatter that gives [MOOD] for [mood]. *)
Definition upperMoodOptions : RawOptions :=
  {| raw_sourceText := Primitive (JsString (textOf moodFile));
     raw_schema := Primitive (JsString "public");
     raw_enumFormatter :=
       Function 1 (fun args =>
         match args with
         | JsString s :: _ => if String.eqb s "mood" then JsString "MOOD" else JsString s
         | _ => JsUndefined
         end);
     raw_compositeTypeFormatter := Primitive JsUndefined;
     raw_functionFormatter := Primitive JsUndefined;
     raw_tableOrViewFormatter := Primitive JsUndefined;
     raw_relationships := Primitive JsUndefined;
     raw_updates := Primitive (JsBoolean true);
     raw_inserts := Primitive JsUndefined;
     raw_deletes := Primitive JsUndefined |}.

(** ** Vocabulary of the further properties *)

(** The string a key holds, or the default. *)
Definition stringOr (d : string) (v : Value) : string :=
  match v with
  | Primitive (JsString s) => s
  | _ => d
  end.

(** The boolean a key holds, or the default. *)
Definition booleanOr (d : bool) (v : Value) : bool :=
  match v with
  | Primitive (JsBoolean b) => b
  | _ => d
  end.

(** The behaviour of the function a key holds, or of the default one. *)
Definition callOr (d : Value) (v : Value) : list Prim -> Prim :=
  match v, d with
  | Function _ call, _ => call
  | Primitive _, Function _ call => call
  | Primitive _, Primitive _ => fun _ => JsUndefined
  end.

(** One of the five names the walk looks for in the schema's body. *)
Definition isGroupName (text : string) : bool :=
  String.eqb text "Tables" || String.eqb text "Views" || String.eqb text "Enums"
  || String.eqb text "CompositeTypes" || String.eqb text "Functions".

(** One of the four operation names that a flag gates. *)
Definition isGatedName (operation : option string) : bool :=
  nameIs operation "Relationships" || nameIs operation "Insert"
  || nameIs operation "Update" || nameIs operation "Delete".

Definition isLiteralOrTuple (type : option TypeNode) : bool :=
  match type with
  | Some (TypeLiteralNode _ _) | Some (TupleTypeNode _) => true
  | _ => false
  end.

Definition isTypeLiteral (type : option TypeNode) : bool :=
  match type with
  | Some (TypeLiteralNode _ _) => true
  | _ => false
  end.

Definition isTypeReference (type : option TypeNode) : bool :=
  match type with
  | Some (TypeReferenceNode _) => true
  | _ => false
  end.

(** Every recorded name has its declaration among the collected ones, and
    there are at least as many declarations as names. *)
Definition namesAreDeclared (d : State) : Prop :=
  Forall (fun e => exists text, In (exportType (formattedName e) text) (typeStrings d))
    (enumNames d)
  /\ Forall (fun e => exists text, In (exportType (formattedName e) text) (typeStrings d))
       (compositeTypeNames d)
  /\ List.length (enumNames d) + List.length (compositeTypeNames d)
     <= List.length (typeStrings d).

(** A pass whose path holds neither a semicolon nor a line feed. *)
Definition withinDeclaration (pass : string * string) : bool :=
  negb (Js.includes ";" (fst pass)) && negb (Js.includes Js.newline (fst pass)).

(** The passes of the two loops, applied to a text. *)
Definition applyPasses (ps : list (string * string)) (t : string) : string :=
  fold_left (fun t pass => Js.replaceAll t (fst pass) (snd pass)) ps t.

(** A name resolver that reads every kind of property name. *)
Definition propertyNameText (n : Node) : option string :=
  match n with
  | OfTypeElement (PropertySignature _ _ (Identifier text) _ _) => Some text
  | OfTypeElement (PropertySignature _ _ (StringLiteral text) _ _) => Some text
  | OfTypeElement (PropertySignature _ _ (NumericLiteral text) _ _) => Some text
  | OfTypeElement (PropertySignature _ _ (ComputedPropertyName text) _ _) => Some text
  | _ => None
  end.

(** The scenario with a second schema [audit] beside [public]. *)
Definition auditSchema : TypeElement :=
  property "audit" (typeLiteral
    [property "Enums" (typeLiteral [property "level" (UnionTypeNode "'low' | 'high'")])]).

(** A member of the schema that is no group: [Settings: { a: string }]. *)
Definition settingsMember : TypeElement :=
  property "Settings" (typeLiteral [property "a" (OtherTypeNode "string")]).

(** [Relationships: []], [Row: never], [Args: { id: string }]. *)
Definition neverOperation : TypeElement := property "Row" (OtherTypeNode "never").

(** [import x from 'y'], a statement the walk has no guard for. *)
Definition importStatement : Statement :=
  OtherStatement {| otherKind := 272; otherText := "import x from 'y'" |}.

(** A declaration the walk builds: [export type f = t]. *)
Definition isExport (s : string) : Prop := exists f t, s = exportType f t.

Definition onlyExports (d : State) : Prop := Forall isExport (typeStrings d).

(** A table under a quoted name, beside the enum of the scenario:
    ['my-table': { Row: { a: string } }]. *)
Definition quotedTableFile : SourceFile :=
  sourceFileOf
    [typeAlias "Database" (typeLiteral [property "public" (typeLiteral
       [property "Tables" (typeLiteral
          [PropertySignature "'my-table': { Row: { a: string } }" []
             (StringLiteral "my-table") None
             (Some (typeLiteral
                [property "Row" (typeLiteral [property "a" (OtherTypeNode "string")])]))]);
        moodEnums])])].

(** Every property signature has a name the resolver finds. *)
Definition namesResolve (getNodeName : Node -> option string) : Prop :=
  forall n, isPropertySignature n = true -> exists s, getNodeName n = Some s.

(** The four formatters return a string when their arguments are strings. *)
Definition formattersReturn (opts : TransformTypesOptions) : Prop :=
  (forall a, exists r, enumFormatter opts (JsString a) = Ok r)
  /\ (forall a, exists r, compositeTypeFormatter opts (JsString a) = Ok r)
  /\ (forall a b, exists r, functionFormatter opts (JsString a) (JsString b) = Ok r)
  /\ (forall a b, exists r, tableOrViewFormatter opts (JsString a) (JsString b) = Ok r).

(** A callback that returns from every state of the arrays. *)
Definition AlwaysReturns (w : Walk) : Prop := forall st, exists st', w st = Ok st'.

(** [[key]: 'a' | 'b']: an entry under a computed name. *)
Definition computedEntry : TypeElement :=
  PropertySignature "[key]: 'a' | 'b'" [] (ComputedPropertyName "[key]") None
    (Some (UnionTypeNode "'a' | 'b'")).

(** The error zod throws when the first argument of a formatter is not a
    string. *)
Definition firstArgumentError : ZodError :=
  [invalid_arguments [invalid_type "0" "string"]].

(** ** The emissions of the walk, from the syntax tree

    What the walk emits, listed in the order of the source: the top-level
    statements in source order; under every [Database] declaration the
    entries named like the schema; in the body of such an entry the groups
    in the order in which they are written; in a group the entries in
    source order; in a table the operations and in a function the groupings
    in source order. *)

(** A formatter call with the text it declares, or a [Json] alias. *)
Inductive Emission : Type :=
| TableOrViewDeclaration (tableOrViewName operation : option string) (text : string)
| EnumDeclaration (enumName : option string) (text : string)
| CompositeTypeDeclaration (enumName : option string) (text : string)
| FunctionDeclaration (functionName argType : option string) (text : string)
| JsonDeclaration (text : string).

(** The members of the type literal that is the type of a property. *)
Definition typeMembers (m : TypeElement) : list TypeElement :=
  match m with
  | PropertySignature _ _ _ _ (Some (TypeLiteralNode _ members)) => members
  | _ => []
  end.

(** An operation of a table: one declaration when it is not gated off, has
    a name and its type is a type literal or a tuple. *)
Definition operationEmissions (getNodeName : Node -> option string)
    (opts : TransformTypesOptions) (tableOrViewName : option string) (op : TypeElement)
    : list Emission :=
  let operation := getNodeName (OfTypeElement op) in
  match op with
  | PropertySignature _ _ _ _ (Some type) =>
      if gatedOff opts operation || negb (truthy operation) then []
      else match type with
           | TypeLiteralNode text _ | TupleTypeNode text =>
               [TableOrViewDeclaration tableOrViewName operation text]
           | _ => []
           end
  | _ => []
  end.

Definition tableOrViewEmissions (getNodeName : Node -> option string)
    (opts : TransformTypesOptions) (table : TypeElement) : list Emission :=
  flat_map (operationEmissions getNodeName opts (getNodeName (OfTypeElement table)))
    (typeMembers table).

(** An entry of [Enums]: one declaration when its type is a union or a
    literal type. *)
Definition enumEmissions (getNodeName : Node -> option string) (entry : TypeElement)
    : list Emission :=
  match entry with
  | PropertySignature _ _ _ _ (Some (UnionTypeNode text))
  | PropertySignature _ _ _ _ (Some (LiteralTypeNode text)) =>
      [EnumDeclaration (getNodeName (OfTypeElement entry)) text]
  | _ => []
  end.

(** An entry of [CompositeTypes]: one declaration when its type is a type
    literal. *)
Definition compositeTypeEmissions (getNodeName : Node -> option string)
    (entry : TypeElement) : list Emission :=
  match entry with
  | PropertySignature _ _ _ _ (Some (TypeLiteralNode text _)) =>
      [CompositeTypeDeclaration (getNodeName (OfTypeElement entry)) text]
  | _ => []
  end.

(** A grouping of a function: one declaration when its type is a type
    reference. *)
Definition functionArgEmissions (getNodeName : Node -> option string)
    (functionName : option string) (arg : TypeElement) : list Emission :=
  match arg with
  | PropertySignature _ _ _ _ (Some (TypeReferenceNode text)) =>
      [FunctionDeclaration functionName (getNodeName (OfTypeElement arg)) text]
  | _ => []
  end.

Definition functionEmissions (getNodeName : Node -> option string) (fn : TypeElement)
    : list Emission :=
  flat_map (functionArgEmissions getNodeName (getNodeName (OfTypeElement fn)))
    (typeMembers fn).

(** A member of the schema's body: the entries of the group it names. *)
Definition groupEmissions (getNodeName : Node -> option string)
    (opts : TransformTypesOptions) (member : TypeElement) : list Emission :=
  match member with
  | PropertySignature _ _ (Identifier text) _ _ =>
      ((if String.eqb text "Tables" || String.eqb text "Views"
        then flat_map (tableOrViewEmissions getNodeName opts) (typeMembers member) else [])
       ++ (if String.eqb "Enums" text
           then flat_map (enumEmissions getNodeName) (typeMembers member) else [])
       ++ (if String.eqb "CompositeTypes" text
           then flat_map (compositeTypeEmissions getNodeName) (typeMembers member) else [])
       ++ (if String.eqb "Functions" text
           then flat_map (functionEmissions getNodeName) (typeMembers member) else []))%list
  | _ => []
  end.

(** An entry of [Database]: the groups of its body when it is named like
    the schema. *)
Definition schemaEmissions (getNodeName : Node -> option string)
    (opts : TransformTypesOptions) (entry : TypeElement) : list Emission :=
  if nameIs (getNodeName (OfTypeElement entry)) (schema opts)
  then flat_map (groupEmissions getNodeName opts) (typeMembers entry)
  else [].

Definition statementEmissions (getNodeName : Node -> option string)
    (opts : TransformTypesOptions) (s : Statement) : list Emission :=
  (flat_map (schemaEmissions getNodeName opts) (databaseMembers s)
   ++ map JsonDeclaration (jsonText s))%list.

Definition emissions (getNodeName : Node -> option string) (opts : TransformTypesOptions)
    (sf : SourceFile) : list Emission :=
  flat_map (statementEmissions getNodeName opts) (statements sf).

(** The formatter call of an emission; a [Json] alias has none. *)
Definition formattedBy (opts : TransformTypesOptions) (e : Emission) : Result string :=
  match e with
  | TableOrViewDeclaration tableOrViewName operation _ =>
      tableOrViewFormatter opts (nameValue tableOrViewName) (nameValue operation)
  | EnumDeclaration enumName _ => enumFormatter opts (nameValue enumName)
  | CompositeTypeDeclaration enumName _ => compositeTypeFormatter opts (nameValue enumName)
  | FunctionDeclaration functionName argType _ =>
      functionFormatter opts (nameValue functionName) (nameValue argType)
  | JsonDeclaration _ => Ok EmptyString
  end.

(** The declaration of an emission whose formatter returned [formatted]. *)
Definition declarationOf (ef : Emission * string) : string :=
  match fst ef with
  | TableOrViewDeclaration _ _ text | EnumDeclaration _ text
  | CompositeTypeDeclaration _ text | FunctionDeclaration _ _ text =>
      exportType (snd ef) text
  | JsonDeclaration text => text
  end.

(** The entry of [enumNames] that comes with an enum declaration. *)
Definition enumEntryOf (ef : Emission * string) : list NameEntry :=
  match fst ef with
  | EnumDeclaration enumName _ => [ {| name := enumName; formattedName := snd ef |} ]
  | _ => []
  end.

(** The entry of [compositeTypeNames] that comes with a composite-type
    declaration. *)
Definition compositeTypeEntryOf (ef : Emission * string) : list NameEntry :=
  match fst ef with
  | CompositeTypeDeclaration enumName _ =>
      [ {| name := enumName; formattedName := snd ef |} ]
  | _ => []
  end.

(** What an emission adds to the arrays, and the emissions one after the
    other, stopping at the first formatter call that throws. *)
Definition perform (opts : TransformTypesOptions) (e : Emission) : Walk :=
  fun st =>
    formatted <- formattedBy opts e;;
    Ok {| typeStrings := typeStrings st ++ [declarationOf (e, formatted)];
          enumNames := enumNames st ++ enumEntryOf (e, formatted);
          compositeTypeNames := compositeTypeNames st ++ compositeTypeEntryOf (e, formatted) |}.

Fixpoint performAll (opts : TransformTypesOptions) (l : list Emission) : Walk :=
  fun st =>
    match l with
    | [] => Ok st
    | e :: rest => st' <- perform opts e st;; performAll opts rest st'
    end.

(** The same text of the name: the two entries have the same paths. *)
Definition sameName (e1 e2 : NameEntry) : Prop :=
  toString (nameValue (name e1)) = toString (nameValue (name e2)).

(** A table-or-view formatter that returns the number 42 for [Insert]. *)
Definition numberForInsertOptions (inserts : Value) : RawOptions :=
  {| raw_sourceText := Primitive (JsString (textOf moodFile));
     raw_schema := Primitive JsUndefined;
     raw_enumFormatter := Primitive JsUndefined;
     raw_compositeTypeFormatter := Primitive JsUndefined;
     raw_functionFormatter := Primitive JsUndefined;
     raw_tableOrViewFormatter :=
       Function 2 (fun args =>
         match nth 1 args JsUndefined with
         | JsString operation =>
             if String.eqb operation "Insert" then JsNumber 42
             else JsString (toString (nth 0 args JsUndefined) ++ operation)
         | _ => JsUndefined
         end);
     raw_relationships := Primitive JsUndefined;
     raw_updates := Primitive JsUndefined;
     raw_inserts := inserts;
     raw_deletes := Primitive JsUndefined |}.

(** [Enums: { mood: Mood; mood: 'happy' | 'sad' }] beside a table that
    refers to [mood]: the first entry is a reference to another type. *)
Definition referenceAndUnionFile : SourceFile :=
  sourceFileOf
    [typeAlias "Database" (typeLiteral [property "public" (typeLiteral
       [property "Tables" (typeLiteral
          [property "users" (typeLiteral [property "Row" usersShape])]);
        property "Enums" (typeLiteral [referenceEntry; property "mood" moodUnion])])])].

(** * Properties *)

(** ** Strings *)

Example replaceAll_ex1 : Js.replaceAll "xaayaaa" "aa" "b" = "xbyba".
Proof. reflexivity. Qed.
Example replaceAll_ex2 : Js.replaceAll "abc" EmptyString "-" = "-a-b-c-".
Proof. reflexivity. Qed.
Example replaceAll_ex3 : Js.replaceAll "xaby" "ab" "[$&|$`|$'|$$|$1]" = "x[ab|x|y|$|$1]y".
Proof. reflexivity. Qed.

Lemma append_empty_r (s : string) : s ++ EmptyString = s.
Proof. induction s as [|c s IH]; simpl; [reflexivity | now rewrite IH]. Qed.

Lemma append_assoc (a b c : string) : (a ++ b) ++ c = a ++ b ++ c.
Proof. induction a as [|x a IH]; simpl; [reflexivity | now rewrite IH]. Qed.

Lemma length_append (a b : string) :
  String.length (a ++ b) = String.length a + String.length b.
Proof. induction a as [|x a IH]; simpl; [reflexivity | now rewrite IH]. Qed.

Lemma append_cancel_l (a b c : string) : a ++ b = a ++ c -> b = c.
Proof.
  induction a as [|x a IH]; simpl; intros H; [exact H |].
  injection H as H. now apply IH.
Qed.

Lemma startsWith_spec (p s : string) :
  Js.startsWith p s = true <-> exists t, s = p ++ t.
Proof.
  revert s. induction p as [|a p IH]; intros s; simpl.
  - split; [intros _; now exists s | reflexivity].
  - destruct s as [|b t].
    + split; [discriminate | intros [t H]; discriminate].
    + destruct (Ascii.eqb_spec a b) as [->|Hne].
      * rewrite IH. split; intros [u H].
        -- exists u. now rewrite H.
        -- exists u. now injection H.
      * split; [discriminate | intros [u H]; inversion H; congruence].
Qed.

Lemma includes_spec (p s : string) : Js.includes p s = true <-> occurs p s.
Proof.
  induction s as [|c s IH]; simpl.
  - destruct (Js.startsWith p EmptyString) eqn:E.
    + split; [intros _ | reflexivity].
      apply startsWith_spec in E as [t E]. exists EmptyString, t. exact E.
    + split; [discriminate |].
      intros [a [b H]]. destruct a; simpl in H.
      * assert (Js.startsWith p EmptyString = true) by (apply startsWith_spec; eauto).
        congruence.
      * discriminate.
  - destruct (Js.startsWith p (String c s)) eqn:E.
    + split; [intros _ | reflexivity].
      apply startsWith_spec in E as [t E]. exists EmptyString, t. exact E.
    + rewrite IH. split.
      * intros [a [b H]]. exists (String c a), b. simpl. now rewrite H.
      * intros [a [b H]]. destruct a as [|x a]; simpl in H.
        -- assert (Js.startsWith p (String c s) = true) by (apply startsWith_spec; eauto).
           congruence.
        -- injection H as _ H. now exists a, b.
Qed.

Lemma includes_false (p s : string) : Js.includes p s = false <-> ~ occurs p s.
Proof.
  rewrite <- includes_spec. destruct (Js.includes p s); split; intros H;
    try reflexivity; try discriminate; try (intros H'; discriminate).
  exfalso. now apply H.
Qed.

Lemma plain_cons (a : ascii) (t : string) :
  plain (String a t) -> Ascii.eqb a "$" = false /\ plain t.
Proof.
  unfold plain. cbn [Js.includes Js.startsWith]. rewrite Ascii.eqb_sym.
  destruct (Ascii.eqb a "$"); [discriminate | now split].
Qed.

Lemma getSubstitution_plain (matched before after r : string) :
  plain r -> Js.getSubstitution matched before after r = r.
Proof.
  induction r as [|a t IH]; intros H; cbn [Js.getSubstitution]; [reflexivity |].
  apply plain_cons in H as [Ha Ht]. rewrite Ha. now rewrite IH.
Qed.

Lemma replaceAllFrom_skip (p r u t b : string) :
  exists b', Js.replaceAllFrom p r b (String.length u) (u ++ t) = Js.replaceAllFrom p r b' 0 t.
Proof.
  revert b. induction u as [|c u IH]; intros b; simpl.
  - now exists b.
  - apply IH.
Qed.

Lemma replaceAllFrom_miss (p r b : string) (c : ascii) (rest : string) :
  Js.startsWith p (String c rest) = false ->
  Js.replaceAllFrom p r b 0 (String c rest)
  = String c (Js.replaceAllFrom p r (b ++ String c EmptyString) 0 rest).
Proof. intros H. cbn [Js.replaceAllFrom]. now rewrite H. Qed.

Lemma replaceAllFrom_hit (p r b t : string) :
  p <> EmptyString -> plain r ->
  exists b', Js.replaceAllFrom p r b 0 (p ++ t) = r ++ Js.replaceAllFrom p r b' 0 t.
Proof.
  intros Hp Hr. destruct p as [|c0 p0]; [congruence |].
  assert (Hs : Js.startsWith (String c0 p0) (String c0 p0 ++ t) = true)
    by (apply startsWith_spec; now exists t).
  destruct (replaceAllFrom_skip (String c0 p0) r p0 t (b ++ String c0 EmptyString)) as [b' Hb'].
  exists b'. rewrite <- Hb'.
  change (String c0 p0 ++ t) with (String c0 (p0 ++ t)) in *.
  cbn [Js.replaceAllFrom]. rewrite Hs.
  rewrite getSubstitution_plain by assumption. reflexivity.
Qed.

Lemma not_occurs_empty (p : string) : p <> EmptyString -> ~ occurs p EmptyString.
Proof.
  intros Hp [a [b H]]. destruct a; simpl in H; [| discriminate].
  destruct p; [congruence | discriminate].
Qed.

Lemma replacedAll_cons (p r s t : string) (c : ascii) :
  Js.startsWith p (String c s) = false ->
  ReplacedAll p r s t -> ReplacedAll p r (String c s) (String c t).
Proof.
  intros Hmiss H. destruct H as [s Hno | u s' t' Hleft Hrest].
  - apply replaced_none. intros [a [b E]]. destruct a as [|x a]; simpl in E.
    + assert (Js.startsWith p (String c s) = true) by (apply startsWith_spec; eauto).
      congruence.
    + injection E as _ E. apply Hno. now exists a, b.
  - change (String c (u ++ p ++ s')) with (String c u ++ p ++ s').
    change (String c (u ++ r ++ t')) with (String c u ++ r ++ t').
    apply replaced_next; [| exact Hrest].
    intros a b E. destruct a as [|x a]; simpl in E.
    + exfalso.
      assert (Js.startsWith p (String c (u ++ p ++ s')) = true); [| congruence].
      apply startsWith_spec. exists (b ++ s').
      rewrite <- (append_assoc p b s'). rewrite <- E.
      simpl. now rewrite append_assoc.
    + injection E as Ex E. subst x. f_equal. now apply (Hleft a b).
Qed.

Lemma replaceAllFrom_spec (p r : string) :
  p <> EmptyString -> plain r ->
  forall n s b, String.length s <= n -> ReplacedAll p r s (Js.replaceAllFrom p r b 0 s).
Proof.
  intros Hp Hr. induction n as [|n IH]; intros s b Hlen.
  - destruct s; [| simpl in Hlen; lia].
    destruct p; [congruence |]. simpl. apply replaced_none.
    now apply not_occurs_empty.
  - destruct s as [|c rest].
    + destruct p; [congruence |]. simpl. apply replaced_none.
      now apply not_occurs_empty.
    + destruct (Js.startsWith p (String c rest)) eqn:E.
      * apply startsWith_spec in E as [t E]. rewrite E.
        destruct (replaceAllFrom_hit p r b t Hp Hr) as [b' Hb']. rewrite Hb'.
        change (ReplacedAll p r (EmptyString ++ p ++ t)
                  (EmptyString ++ r ++ Js.replaceAllFrom p r b' 0 t)).
        apply replaced_next.
        -- intros a b0 H. simpl in H.
           assert (Hl : String.length p = String.length (a ++ p ++ b0)) by now rewrite <- H.
           rewrite !length_append in Hl. destruct a; [reflexivity | simpl in Hl; lia].
        -- apply IH.
           assert (Hl : String.length (String c rest) = String.length (p ++ t)) by now rewrite E.
           rewrite length_append in Hl. simpl in Hl, Hlen.
           destruct p; [congruence | simpl in Hl; lia].
      * rewrite replaceAllFrom_miss by assumption.
        apply replacedAll_cons; [assumption |]. apply IH. simpl in Hlen. lia.
Qed.

Lemma replaceAll_spec (s p r : string) :
  p <> EmptyString -> plain r -> ReplacedAll p r s (Js.replaceAll s p r).
Proof.
  intros Hp Hr. unfold Js.replaceAll.
  now apply (replaceAllFrom_spec p r Hp Hr (String.length s)).
Qed.

(** A text in which [p] occurs across a code unit that [p] does not
    contain: [p] occurs on one side of it. *)
Lemma prefix_across (p b x y : string) (c : ascii) :
  p ++ b = x ++ String c y ->
  (exists x2, x = p ++ x2) \/ occurs (String c EmptyString) p.
Proof.
  revert x. induction p as [|e p IH]; intros x H.
  - left. now exists x.
  - destruct x as [|d x]; simpl in H; injection H as He H.
    + right. subst e. exists EmptyString, p. reflexivity.
    + subst e. destruct (IH x H) as [[x2 Hx] | [a' [b' Hc]]].
      * left. exists x2. simpl. now rewrite Hx.
      * right. exists (String d a'), b'. simpl. now rewrite Hc.
Qed.

Lemma occurs_across (p x y : string) (c : ascii) :
  ~ occurs (String c EmptyString) p ->
  occurs p (x ++ String c y) -> occurs p x \/ occurs p y.
Proof.
  intros Hc. revert x. 
  assert (Hnil : forall a b, String c y = a ++ p ++ b -> occurs p y).
  { intros a b H. destruct a as [|d a]; simpl in H.
    - destruct p as [|e p]; [exists EmptyString, y; reflexivity |].
      simpl in H. injection H as He _. subst e.
      exfalso. apply Hc. exists EmptyString, p. reflexivity.
    - injection H as _ H. now exists a, b. }
  intros x [a [b H]]. revert x H. induction a as [|d a IH]; intros x H.
  - simpl in H. symmetry in H. destruct (prefix_across _ _ _ _ _ H) as [[x2 Hx] | Hin].
    + left. exists EmptyString, x2. exact Hx.
    + contradiction.
  - destruct x as [|e x].
    + right. simpl in H. now apply (Hnil (String d a) b).
    + simpl in H. injection H as He H. subst e.
      destruct (IH x H) as [[a1 [b1 H1]] | Hy].
      * left. exists (String d a1), b1. simpl. now rewrite H1.
      * now right.
Qed.

Lemma occurs_join (p : string) (c1 c2 : ascii) (l : list string) :
  p <> EmptyString ->
  ~ occurs (String c1 EmptyString) p -> ~ occurs (String c2 EmptyString) p ->
  Forall (fun s => ~ occurs p s) l ->
  ~ occurs p (Js.join (String c1 (String c2 EmptyString)) l).
Proof.
  intros Hp H1 H2 Hl. induction Hl as [|x l Hx Hl IH].
  - now apply not_occurs_empty.
  - destruct l as [|y l]; [exact Hx |].
    change (Js.join (String c1 (String c2 EmptyString)) (x :: y :: l))
      with (x ++ String c1 (String c2 (Js.join (String c1 (String c2 EmptyString)) (y :: l)))).
    intros H. apply occurs_across in H as [H | H]; [contradiction | | assumption].
    change (String c2 ?t) with (EmptyString ++ String c2 t) in H.
    apply occurs_across in H as [H | H]; [| contradiction | assumption].
    now apply (not_occurs_empty p).
Qed.

Lemma occurs_in_join (sep x : string) (l : list string) :
  In x l -> occurs x (Js.join sep l).
Proof.
  induction l as [|y l IH]; intros H; [contradiction |].
  destruct l as [|z l].
  - destruct H as [-> | []]. exists EmptyString, EmptyString. simpl. now rewrite append_empty_r.
  - change (Js.join sep (y :: z :: l)) with (y ++ sep ++ Js.join sep (z :: l)).
    destruct H as [-> | H].
    + exists EmptyString, (sep ++ Js.join sep (z :: l)). reflexivity.
    + destruct (IH H) as [a [b E]]. exists (y ++ sep ++ a), b.
      rewrite E. now rewrite !append_assoc.
Qed.

Lemma qualifiedPath_not_empty (quote schema group : string) (nm : option string) :
  qualifiedPath quote schema group nm <> EmptyString.
Proof. unfold qualifiedPath. simpl. discriminate. Qed.

(** ** The callbacks only append *)

Lemma appendState_assoc (a b c : State) :
  appendState (appendState a b) c = appendState a (appendState b c).
Proof. unfold appendState. simpl. now rewrite <- !app_assoc. Qed.

Lemma appendState_initial_l (d : State) : appendState initialState d = d.
Proof. now destruct d. Qed.

Lemma appendState_initial_r (d : State) : appendState d initialState = d.
Proof. destruct d. unfold appendState. simpl. now rewrite !app_nil_r. Qed.

Lemma pushTypeString_append (s : string) (st : State) :
  pushTypeString s st = appendState st (pushTypeString s initialState).
Proof. unfold pushTypeString, appendState. simpl. now rewrite !app_nil_r. Qed.

Lemma pushEnumName_append (e : NameEntry) (s : string) (st : State) :
  pushEnumName e (pushTypeString s st)
  = appendState st (pushEnumName e (pushTypeString s initialState)).
Proof. unfold pushEnumName, pushTypeString, appendState. simpl. now rewrite !app_nil_r. Qed.

Lemma pushCompositeTypeName_append (e : NameEntry) (s : string) (st : State) :
  pushCompositeTypeName e (pushTypeString s st)
  = appendState st (pushCompositeTypeName e (pushTypeString s initialState)).
Proof.
  unfold pushCompositeTypeName, pushTypeString, appendState. simpl. now rewrite !app_nil_r.
Qed.

Lemma forEach_app (cb : Node -> Walk) (l1 l2 : list Node) (st : State) :
  forEach cb (l1 ++ l2) st = (st1 <- forEach cb l1 st;; forEach cb l2 st1).
Proof.
  revert st. induction l1 as [|n l1 IH]; intros st; simpl; [reflexivity |].
  destruct (cb n st); simpl; [apply IH | reflexivity].
Qed.

Lemma forEach_skip (cb : Node -> Walk) (l : list Node) (st : State) :
  (forall n st', In n l -> cb n st' = Ok st') -> forEach cb l st = Ok st.
Proof.
  induction l as [|n l IH]; intros H; simpl; [reflexivity |].
  rewrite H by now left. simpl. apply IH. intros m st' Hm. apply H. now right.
Qed.

Section EmitsRules.

Variable Q : State -> Prop.
Hypothesis Q_initial : Q initialState.
Hypothesis Q_append : forall a b, Q a -> Q b -> Q (appendState a b).

Lemma Emits_skip : Emits Q skip.
Proof.
  split.
  - intros st. simpl. now rewrite appendState_initial_r.
  - intros d H. injection H as <-. exact Q_initial.
Qed.

Lemma Emits_bind (w1 w2 : Walk) :
  Emits Q w1 -> Emits Q w2 -> Emits Q (fun st => st1 <- w1 st;; w2 st1).
Proof.
  intros [A1 Q1] [A2 Q2]. split.
  - intros st. rewrite A1. destruct (w1 initialState) as [d1|e] eqn:E1; simpl; [| reflexivity].
    rewrite (A2 (appendState st d1)), (A2 d1).
    destruct (w2 initialState) as [d2|e]; simpl; [| reflexivity].
    now rewrite appendState_assoc.
  - intros d H. destruct (w1 initialState) as [d1|e] eqn:E1; simpl in H; [| discriminate].
    rewrite A2 in H. destruct (w2 initialState) as [d2|e] eqn:E2; simpl in H; [| discriminate].
    injection H as <-. apply Q_append; auto.
Qed.

Lemma Emits_forEach (cb : Node -> Walk) (l : list Node) :
  (forall n, In n l -> Emits Q (cb n)) -> Emits Q (forEach cb l).
Proof.
  induction l as [|n l IH]; intros H.
  - exact Emits_skip.
  - change (forEach cb (n :: l)) with (fun st => st' <- cb n st;; forEach cb l st').
    apply Emits_bind.
    + apply H. now left.
    + apply IH. intros m Hm. apply H. now right.
Qed.

Lemma Emits_forEachChild (cb : Node -> Walk) (n : Node) :
  (forall m, Emits Q (cb m)) -> Emits Q (forEachChild n cb).
Proof. intros H. apply Emits_forEach. intros m _. apply H. Qed.

Lemma Emits_if (b : bool) (w : Walk) :
  Emits Q w -> Emits Q (fun st => if b then w st else Ok st).
Proof. intros H. destruct b; [exact H | exact Emits_skip]. Qed.

(** A callback that appends a fixed contribution, or throws. *)
Lemma Emits_leaf (r : Result State) :
  (forall d, r = Ok d -> Q d) -> Emits Q (fun st => d <- r;; Ok (appendState st d)).
Proof.
  intros H. split.
  - intros st. destruct r as [d|e]; simpl; [| reflexivity].
    now rewrite appendState_initial_l.
  - intros d Hd. destruct r as [d'|e]; simpl in Hd; [| discriminate].
    rewrite appendState_initial_l in Hd. injection Hd as <-. now apply H.
Qed.

End EmitsRules.

Lemma Emits_ext (Q : State -> Prop) (w w' : Walk) :
  (forall st, w st = w' st) -> Emits Q w' -> Emits Q w.
Proof.
  intros E [A H]. split.
  - intros st. now rewrite !E.
  - intros d Hd. apply H. now rewrite <- E.
Qed.

Section WalkEmits.

Variable getNodeName : Node -> option string.
Variable opts : TransformTypesOptions.
Variable Q : State -> Prop.
Hypothesis Q_initial : Q initialState.
Hypothesis Q_append : forall a b, Q a -> Q b -> Q (appendState a b).
Hypothesis Q_declaration : forall s, Q (pushTypeString s initialState).
Hypothesis Q_enum : forall nm f s,
  enumFormatter opts (nameValue nm) = Ok f ->
  Q (pushEnumName {| name := nm; formattedName := f |} (pushTypeString s initialState)).
Hypothesis Q_composite : forall nm f s,
  compositeTypeFormatter opts (nameValue nm) = Ok f ->
  Q (pushCompositeTypeName {| name := nm; formattedName := f |}
       (pushTypeString s initialState)).

Local Ltac by_guard g := destruct g; [| exact (Emits_skip Q Q_initial)].

Lemma Emits_declaration (r : Result string) (text : string) :
  Emits Q (fun st => formatted <- r;; Ok (pushTypeString (exportType formatted text) st)).
Proof.
  apply Emits_ext with
    (w' := fun st => d <- (formatted <- r;;
                           Ok (pushTypeString (exportType formatted text) initialState));;
                     Ok (appendState st d)).
  - intros st. destruct r; simpl; [| reflexivity]. now rewrite pushTypeString_append.
  - apply Emits_leaf. intros d H. destruct r; simpl in H; [| discriminate].
    injection H as <-. apply Q_declaration.
Qed.

Lemma Emits_tableOperationType tableOrViewName operation n :
  Emits Q (tableOperationType opts tableOrViewName operation n).
Proof.
  unfold tableOperationType. by_guard (isTypeLiteralNode n || isTupleTypeNode n).
  apply Emits_declaration.
Qed.

Lemma Emits_tableOperation tableOrViewName n :
  Emits Q (tableOperation getNodeName opts tableOrViewName n).
Proof.
  unfold tableOperation. by_guard (isPropertySignature n).
  destruct (gatedOff opts (getNodeName n)); [exact (Emits_skip Q Q_initial) |].
  by_guard (truthy (getNodeName n)).
  apply Emits_forEachChild; auto using Emits_tableOperationType.
Qed.

Lemma Emits_tableBody tableOrViewName n :
  Emits Q (tableBody getNodeName opts tableOrViewName n).
Proof.
  unfold tableBody. by_guard (isTypeLiteralNode n).
  apply Emits_forEachChild; auto using Emits_tableOperation.
Qed.

Lemma Emits_tableOrView n : Emits Q (tableOrView getNodeName opts n).
Proof.
  unfold tableOrView. by_guard (isPropertySignature n).
  apply Emits_forEachChild; auto using Emits_tableBody.
Qed.

Lemma Emits_tablesOrViews n : Emits Q (tablesOrViews getNodeName opts n).
Proof.
  unfold tablesOrViews. by_guard (isTypeLiteralNode n).
  apply Emits_forEachChild; auto using Emits_tableOrView.
Qed.

Lemma Emits_enumPush enumName text :
  Emits Q (fun st =>
    formattedName <- enumFormatter opts (nameValue enumName);;
    Ok (pushEnumName {| name := enumName; formattedName := formattedName |}
          (pushTypeString (exportType formattedName text) st))).
Proof.
  apply Emits_ext with
    (w' := fun st =>
       d <- (formattedName <- enumFormatter opts (nameValue enumName);;
             Ok (pushEnumName {| name := enumName; formattedName := formattedName |}
                   (pushTypeString (exportType formattedName text) initialState)));;
       Ok (appendState st d)).
  - intros st. destruct (enumFormatter opts (nameValue enumName)); simpl; [| reflexivity].
    now rewrite pushEnumName_append.
  - apply Emits_leaf. intros d H.
    destruct (enumFormatter opts (nameValue enumName)) eqn:E; simpl in H; [| discriminate].
    injection H as <-. now apply Q_enum.
Qed.

Lemma Emits_enumType enumName n : Emits Q (enumType opts enumName n).
Proof.
  unfold enumType. apply Emits_bind; auto.
  - by_guard (isUnionTypeNode n). apply Emits_enumPush.
  - by_guard (isLiteralTypeNode n). apply Emits_enumPush.
Qed.

Lemma Emits_enumEntry n : Emits Q (enumEntry getNodeName opts n).
Proof.
  unfold enumEntry. by_guard (isPropertySignature n).
  apply Emits_forEachChild; auto using Emits_enumType.
Qed.

Lemma Emits_enums n : Emits Q (enums getNodeName opts n).
Proof.
  unfold enums. by_guard (isTypeLiteralNode n).
  apply Emits_forEachChild; auto using Emits_enumEntry.
Qed.

Lemma Emits_compositeType enumName n : Emits Q (compositeType opts enumName n).
Proof.
  unfold compositeType. by_guard (isTypeLiteralNode n).
  apply Emits_ext with
    (w' := fun st =>
       d <- (formattedName <- compositeTypeFormatter opts (nameValue enumName);;
             Ok (pushCompositeTypeName {| name := enumName; formattedName := formattedName |}
                   (pushTypeString (exportType formattedName (getText n)) initialState)));;
       Ok (appendState st d)).
  - intros st. destruct (compositeTypeFormatter opts (nameValue enumName)); simpl;
      [| reflexivity].
    now rewrite pushCompositeTypeName_append.
  - apply Emits_leaf; auto. intros d H.
    destruct (compositeTypeFormatter opts (nameValue enumName)) eqn:E; simpl in H;
      [| discriminate].
    injection H as <-. now apply Q_composite.
Qed.

Lemma Emits_compositeTypeEntry n : Emits Q (compositeTypeEntry getNodeName opts n).
Proof.
  unfold compositeTypeEntry. by_guard (isPropertySignature n).
  apply Emits_forEachChild; auto using Emits_compositeType.
Qed.

Lemma Emits_compositeTypes n : Emits Q (compositeTypes getNodeName opts n).
Proof.
  unfold compositeTypes. by_guard (isTypeLiteralNode n).
  apply Emits_forEachChild; auto using Emits_compositeTypeEntry.
Qed.

Lemma Emits_functionArgType functionName argType n :
  Emits Q (functionArgType opts functionName argType n).
Proof.
  unfold functionArgType. by_guard (isTypeReferenceNode n). apply Emits_declaration.
Qed.

Lemma Emits_functionArg functionName n :
  Emits Q (functionArg getNodeName opts functionName n).
Proof.
  unfold functionArg. by_guard (isPropertySignature n).
  apply Emits_forEachChild; auto using Emits_functionArgType.
Qed.

Lemma Emits_functionBody functionName n :
  Emits Q (functionBody getNodeName opts functionName n).
Proof.
  unfold functionBody. by_guard (isTypeLiteralNode n).
  apply Emits_forEachChild; auto using Emits_functionArg.
Qed.

Lemma Emits_functionEntry n : Emits Q (functionEntry getNodeName opts n).
Proof.
  unfold functionEntry. by_guard (isPropertySignature n).
  apply Emits_forEachChild; auto using Emits_functionBody.
Qed.

Lemma Emits_functions n : Emits Q (functions getNodeName opts n).
Proof.
  unfold functions. by_guard (isTypeLiteralNode n).
  apply Emits_forEachChild; auto using Emits_functionEntry.
Qed.

Lemma Emits_schemaMember n : Emits Q (schemaMember getNodeName opts n).
Proof.
  unfold schemaMember. destruct (identifierNameText n) as [text|];
    [| exact (Emits_skip Q Q_initial)].
  repeat (apply Emits_bind; auto); apply Emits_if; auto;
    apply Emits_forEachChild; auto
      using Emits_tablesOrViews, Emits_enums, Emits_compositeTypes, Emits_functions.
Qed.

Lemma Emits_schemaBody n : Emits Q (schemaBody getNodeName opts n).
Proof.
  unfold schemaBody. by_guard (isTypeLiteralNode n).
  apply Emits_forEachChild; auto using Emits_schemaMember.
Qed.

Lemma Emits_processDatabase n : Emits Q (processDatabase getNodeName opts n).
Proof.
  unfold processDatabase. by_guard (isPropertySignature n).
  by_guard (nameIs (getNodeName n) (schema opts)).
  apply Emits_forEachChild; auto using Emits_schemaBody.
Qed.

Lemma Emits_database n : Emits Q (database getNodeName opts n).
Proof.
  unfold database.
  destruct n as [[text mods nm tps ty | text mods nm tps hcs ms | o] | | | |];
    try exact (Emits_skip Q Q_initial).
  - destruct ty; try exact (Emits_skip Q Q_initial).
    by_guard (String.eqb nm "Database").
    apply Emits_forEach; auto using Emits_processDatabase.
  - by_guard (String.eqb nm "Database").
    apply Emits_forEachChild; auto using Emits_processDatabase.
Qed.

Lemma Emits_json n : Emits Q (json n).
Proof.
  unfold json.
  destruct n as [[text mods nm tps ty | text mods nm tps hcs ms | o] | | | |];
    try exact (Emits_skip Q Q_initial).
  by_guard (String.eqb nm "Json").
  apply Emits_ext with
    (w' := fun st => d <- Ok (pushTypeString text initialState);; Ok (appendState st d)).
  - intros st. simpl. now rewrite pushTypeString_append.
  - apply Emits_leaf. intros d H. injection H as <-. apply Q_declaration.
Qed.

Lemma Emits_topLevel n : Emits Q (topLevel getNodeName opts n).
Proof.
  unfold topLevel. apply Emits_bind; auto using Emits_database, Emits_json.
Qed.

End WalkEmits.

(** ** The boundary validation *)

Lemma both_failed {A B : Type} (ra : Result A) (rb : Result B) :
  failed (both ra rb) = failed ra || failed rb.
Proof. now destruct ra, rb. Qed.

Lemma both_issues {A B : Type} (ra : Result A) (rb : Result B) :
  issues (both ra rb) = (issues ra ++ issues rb)%list.
Proof. now destruct ra, rb. Qed.

Lemma schema_failed (v : Value) :
  failed (Zod.default (Zod.string "schema") (Primitive (JsString "public")) v)
  = negb (isUndefined v || isString v).
Proof. now destruct v as [[]|]. Qed.

Lemma formatter_failed (declared : nat) (path : string) (d : Value) (v : Value) :
  isFunction d = true ->
  failed (Zod.default (Zod.function declared path) d v)
  = negb (isUndefined v || isFunction v).
Proof. intros H. destruct v as [[]|]; try reflexivity. destruct d; [discriminate | reflexivity]. Qed.

Lemma flag_failed (path : string) (v : Value) :
  failed (flagSchema path v) = negb (isUndefined v || isBoolean v).
Proof. now destruct v as [[]|]. Qed.

Lemma sourceText_failed (v : Value) :
  failed (Zod.string "sourceText" v) = negb (isString v).
Proof. now destruct v as [[]|]. Qed.

Lemma bind_failed {A B : Type} (r : Result A) (k : A -> Result B) :
  (forall a, failed (k a) = false) -> failed (x <- r;; k x) = failed r.
Proof. intros H. destruct r; simpl; [apply H | reflexivity]. Qed.

Lemma options_failed (raw : RawOptions) :
  failed (transformTypesOptionsSchema raw) = negb (validShape raw).
Proof.
  unfold transformTypesOptionsSchema, validShape.
  rewrite bind_failed
    by (intros [src [sch [ef [cf [ff [tf [rel [upd [ins del]]]]]]]]]; reflexivity).
  rewrite !both_failed, sourceText_failed, schema_failed, !flag_failed.
  rewrite !formatter_failed by reflexivity.
  rewrite !negb_andb. now rewrite <- !orb_assoc.
Qed.

Lemma sourceText_issues (v : Value) :
  issues (Zod.string "sourceText" v) = keyIssue "sourceText" "string" (isString v).
Proof. now destruct v as [[]|]. Qed.

Lemma schema_issues (v : Value) :
  issues (Zod.default (Zod.string "schema") (Primitive (JsString "public")) v)
  = keyIssue "schema" "string" (isUndefined v || isString v).
Proof. now destruct v as [[]|]. Qed.

Lemma formatter_issues (declared : nat) (path : string) (d : Value) (v : Value) :
  isFunction d = true ->
  issues (Zod.default (Zod.function declared path) d v)
  = keyIssue path "function" (isUndefined v || isFunction v).
Proof. intros H. destruct v as [[]|]; try reflexivity. destruct d; [discriminate | reflexivity]. Qed.

Lemma flag_issues (path : string) (v : Value) :
  issues (flagSchema path v) = keyIssue path "boolean" (isUndefined v || isBoolean v).
Proof. now destruct v as [[]|]. Qed.

Lemma bind_issues {A B : Type} (r : Result A) (k : A -> Result B) :
  (forall a, issues (k a) = []) -> issues (x <- r;; k x) = issues r.
Proof. intros H. destruct r; simpl; [apply H | reflexivity]. Qed.

(** The issues the options schema reports are those of the offending keys. *)
Lemma options_issues (raw : RawOptions) :
  issues (transformTypesOptionsSchema raw) = shapeIssues raw.
Proof.
  unfold transformTypesOptionsSchema, shapeIssues.
  rewrite bind_issues
    by (intros [src [sch [ef [cf [ff [tf [rel [upd [ins del]]]]]]]]]; reflexivity).
  rewrite !both_issues, sourceText_issues, schema_issues, !flag_issues.
  now rewrite !formatter_issues by reflexivity.
Qed.

Lemma keyIssue_none (key expected : string) (accepted : bool) :
  keyIssue key expected accepted = [] -> accepted = true.
Proof. destruct accepted; [reflexivity | discriminate]. Qed.

Lemma shapeIssues_none (raw : RawOptions) : shapeIssues raw = [] -> validShape raw = true.
Proof.
  unfold shapeIssues, validShape. intros H.
  repeat (apply app_eq_nil in H as [?%keyIssue_none H]).
  apply keyIssue_none in H.
  repeat (apply andb_true_iff; split); assumption.
Qed.

(** C3 (as amended).  An options object of an invalid shape -- a
    [sourceText] that is not a string, a [schema] that is present and not a
    string, a formatter that is present and not a function, a gating flag
    that is present and not a boolean -- makes [transformTypes] throw an
    [invalid_arguments] error whose issues are exactly one [invalid_type]
    issue per offending key, in the order of the keys of the schema, each
    with the name of its key and the type expected there; the error is the
    same for every parser and name resolver, so it is thrown before the
    source text is parsed.  The parameter count of a formatter is not part
    of the shape: options that are valid otherwise pass the boundary with
    formatters of any arity, and the implementation runs on the parsed
    options. *)
Theorem invalid_options_fail_before_parsing (raw : RawOptions) :
  (validShape raw = false ->
   shapeIssues raw <> []
   /\ forall getNodeName createSourceFile,
        transformTypes getNodeName createSourceFile raw
        = Throw [invalid_arguments (shapeIssues raw)])
  /\ (validShape raw = true ->
      exists opts,
        transformTypesOptionsSchema raw = Ok opts
        /\ forall getNodeName createSourceFile,
             transformTypes getNodeName createSourceFile raw
             = implementation getNodeName createSourceFile opts).
Proof.
  pose proof (options_failed raw) as Hf. pose proof (options_issues raw) as Hi.
  unfold transformTypes.
  split; intros H; rewrite H in Hf;
    destruct (transformTypesOptionsSchema raw) as [opts|e]; try discriminate.
  - simpl in Hi. subst e. split; [| reflexivity].
    intros Hn. apply shapeIssues_none in Hn. congruence.
  - exists opts. split; reflexivity.
Qed.

Lemma invalid_options_fail_before_parsing_witness :
  validShape stringFlagOptions = false
  /\ transformTypes declaredName (parserOf moodFile) stringFlagOptions
     = Throw [invalid_arguments [invalid_type "updates" "boolean"]].
Proof.
  split; [reflexivity |].
  apply (proj1 (invalid_options_fail_before_parsing stringFlagOptions)). reflexivity.
Defined.

(** C3, counterexample.  An enum formatter with two parameters passes the
    boundary: the call returns a text. *)
Lemma wrong_arity_formatter_is_accepted :
  validShape wrongArityOptions = true /\
  failed (transformTypes declaredName (parserOf moodFile) wrongArityOptions) = false.
Proof. split; vm_compute; reflexivity. Qed.

(** ** The walk *)

Lemma bind_Ok_r {A : Type} (r : Result A) : (x <- r;; Ok x) = r.
Proof. now destruct r. Qed.

Lemma forEach_skip_map {A : Type} (f : A -> Node) (cb : Node -> Walk) (l : list A)
    (st : State) :
  (forall a st', cb (f a) st' = Ok st') -> forEach cb (map f l) st = Ok st.
Proof.
  intros H. apply forEach_skip. intros n st' Hn.
  apply in_map_iff in Hn as [a [<- _]]. apply H.
Qed.

Lemma forEach_app_skip_map {A : Type} (f : A -> Node) (cb : Node -> Walk) (l1 : list A)
    (l2 : list Node) (st : State) :
  (forall a st', cb (f a) st' = Ok st') ->
  forEach cb (map f l1 ++ l2) st = forEach cb l2 st.
Proof. intros H. rewrite forEach_app. now rewrite forEach_skip_map. Qed.

Lemma forEach_property_children (cb : Node -> Walk) (text : string)
    (modifiers : list OtherNode) (nm : PropertyName) (questionToken : option OtherNode)
    (type : option TypeNode) (st : State) :
  (forall o st', cb (OfOther o) st' = Ok st') ->
  (forall st', cb (OfName nm) st' = Ok st') ->
  forEachChild (OfTypeElement (PropertySignature text modifiers nm questionToken type)) cb st
  = match type with
    | Some t => cb (OfTypeNode t) st
    | None => Ok st
    end.
Proof.
  intros Ho Hn. unfold forEachChild, children.
  rewrite (forEach_app_skip_map OfOther) by exact Ho. simpl. rewrite Hn. simpl.
  rewrite (forEach_app_skip_map OfOther) by exact Ho.
  destruct type as [t|]; simpl; [| reflexivity]. now destruct (cb (OfTypeNode t) st).
Qed.

Section Walk.

Variable getNodeName : Node -> option string.
Variable opts : TransformTypesOptions.

Lemma forEachChild_interface text modifiers nm typeParameters heritageClauses members st :
  forEachChild
    (OfStatement (InterfaceDeclaration text modifiers nm typeParameters heritageClauses members))
    (processDatabase getNodeName opts) st
  = forEach (processDatabase getNodeName opts) (map OfTypeElement members) st.
Proof.
  unfold forEachChild, children.
  rewrite (forEach_app_skip_map OfOther) by reflexivity. simpl.
  now rewrite !(forEach_app_skip_map OfOther) by reflexivity.
Qed.

Lemma topLevel_alias_Database text modifiers typeParameters textL members st :
  topLevel getNodeName opts
    (OfStatement (TypeAliasDeclaration text modifiers "Database" typeParameters
                    (TypeLiteralNode textL members))) st
  = forEach (processDatabase getNodeName opts) (map OfTypeElement members) st.
Proof. unfold topLevel. simpl. apply bind_Ok_r. Qed.

Lemma topLevel_interface_Database text modifiers typeParameters heritageClauses members st :
  topLevel getNodeName opts
    (OfStatement (InterfaceDeclaration text modifiers "Database" typeParameters
                    heritageClauses members)) st
  = forEach (processDatabase getNodeName opts) (map OfTypeElement members) st.
Proof.
  unfold topLevel, database. cbn [String.eqb Ascii.eqb Bool.eqb].
  rewrite forEachChild_interface. simpl. apply bind_Ok_r.
Qed.

(** C7.  A [Database] declaration given as an alias of a type literal and
    the same members given as an interface produce the same result, whatever
    surrounds the declaration and whatever its text, modifiers, type
    parameters and heritage clauses are. *)
Theorem alias_and_interface_are_equivalent
    (before after : list Statement) (eof : OtherNode)
    (textA textL textI : string) (modifiersA modifiersI : list OtherNode)
    (typeParametersA typeParametersI heritageClauses : list OtherNode)
    (members : list TypeElement) :
  transformSourceFile getNodeName opts
    {| statements :=
         before ++ TypeAliasDeclaration textA modifiersA "Database" typeParametersA
                     (TypeLiteralNode textL members) :: after;
       endOfFileToken := eof |}
  = transformSourceFile getNodeName opts
      {| statements :=
           before ++ InterfaceDeclaration textI modifiersI "Database" typeParametersI
                       heritageClauses members :: after;
         endOfFileToken := eof |}.
Proof.
  unfold transformSourceFile, walkSourceFile, sourceFileChildren. simpl.
  rewrite !map_app. simpl. rewrite <- !app_assoc. rewrite !forEach_app.
  destruct (forEach (topLevel getNodeName opts) (map OfStatement before) initialState)
    as [st|e]; simpl; [| reflexivity].
  now rewrite topLevel_alias_Database, topLevel_interface_Database.
Qed.

End Walk.

Section SchemaAbsent.

Variable getNodeName : Node -> option string.
Variable opts : TransformTypesOptions.

Lemma processDatabase_absent (ms : list TypeElement) (st : State) :
  (forall m, In m ms -> isPropertySignature (OfTypeElement m) = true ->
     nameIs (getNodeName (OfTypeElement m)) (schema opts) = false) ->
  forEach (processDatabase getNodeName opts) (map OfTypeElement ms) st = Ok st.
Proof.
  intros H. apply forEach_skip. intros n st' Hn.
  apply in_map_iff in Hn as [m [<- Hm]]. unfold processDatabase.
  destruct (isPropertySignature (OfTypeElement m)) eqn:E; [| reflexivity].
  now rewrite (H m Hm E).
Qed.

Lemma topLevel_absent (s : Statement) (st : State) :
  (forall m, In m (databaseMembers s) -> isPropertySignature (OfTypeElement m) = true ->
     nameIs (getNodeName (OfTypeElement m)) (schema opts) = false) ->
  topLevel getNodeName opts (OfStatement s) st
  = Ok (appendState st (declarationsOnly (jsonText s))).
Proof.
  intros H. unfold topLevel.
  assert (Hd : database getNodeName opts (OfStatement s) st = Ok st).
  { destruct s as [text mods nm tps ty | text mods nm tps hcs ms | o]; simpl in *;
      try reflexivity.
    - destruct ty; try reflexivity.
      destruct (String.eqb nm "Database"); [| reflexivity].
      now apply processDatabase_absent.
    - destruct (String.eqb nm "Database"); [| reflexivity].
      rewrite forEachChild_interface. now apply processDatabase_absent. }
  rewrite Hd. simpl.
  destruct s as [text mods nm tps ty | text mods nm tps hcs ms | o]; simpl;
    try (now rewrite appendState_initial_r).
  destruct (String.eqb nm "Json").
  - now rewrite pushTypeString_append.
  - now rewrite appendState_initial_r.
Qed.

Lemma walk_absent (l : list Statement) (st : State) :
  (forall s m, In s l -> In m (databaseMembers s) ->
     isPropertySignature (OfTypeElement m) = true ->
     nameIs (getNodeName (OfTypeElement m)) (schema opts) = false) ->
  forEach (topLevel getNodeName opts) (map OfStatement l) st
  = Ok (appendState st (declarationsOnly (flat_map jsonText l))).
Proof.
  revert st. induction l as [|s l IH]; intros st H; simpl.
  - now rewrite appendState_initial_r.
  - rewrite topLevel_absent by (intros m; apply H; now left). simpl.
    rewrite IH by (intros s' m Hs'; apply H; now right).
    rewrite appendState_assoc. unfold appendState, declarationsOnly. reflexivity.
Qed.

End SchemaAbsent.

(** C2 (as amended).  When no [Database] declaration of the source has an
    entry named like the configured schema -- in particular when there is no
    [Database] declaration -- [transformTypes] does not throw and returns
    the top-level [Json] aliases alone (those without [Record<number]),
    joined; this is the empty string when the source has no [Json] alias. *)
Theorem schema_absent_returns_json_only
    (getNodeName : Node -> option string) (createSourceFile : string -> SourceFile)
    (raw : RawOptions) (opts : TransformTypesOptions) :
  transformTypesOptionsSchema raw = Ok opts ->
  schemaAbsent getNodeName (schema opts) (createSourceFile (sourceText opts)) ->
  transformTypes getNodeName createSourceFile raw
  = Ok (assemble (jsonTexts (createSourceFile (sourceText opts))))
  /\ (jsonTexts (createSourceFile (sourceText opts)) = [] ->
      transformTypes getNodeName createSourceFile raw = Ok EmptyString).
Proof.
  intros Hopts Habs.
  assert (H : transformTypes getNodeName createSourceFile raw
              = Ok (assemble (jsonTexts (createSourceFile (sourceText opts))))).
  { unfold transformTypes. rewrite Hopts.
    unfold implementation, transformSourceFile, walkSourceFile, sourceFileChildren.
    rewrite forEach_app. rewrite walk_absent by exact Habs. simpl.
    reflexivity. }
  split; [exact H |]. intros Hj. rewrite H, Hj. reflexivity.
Qed.

Lemma jsonOnlyFile_schemaAbsent : schemaAbsent declaredName "public" jsonOnlyFile.
Proof. intros s m [<- | []] []. Qed.

Lemma schema_absent_returns_json_only_witness :
  transformTypes declaredName (parserOf jsonOnlyFile) (optionsFor jsonOnlyFile)
  = Ok "type Json = string | number | boolean | null | Json[]".
Proof.
  apply (schema_absent_returns_json_only declaredName (parserOf jsonOnlyFile)
           (optionsFor jsonOnlyFile) (defaultsFor (textOf jsonOnlyFile))).
  - reflexivity.
  - exact jsonOnlyFile_schemaAbsent.
Defined.

(** C2, counterexample.  The source has no [Database] declaration and one
    [Json] alias: the result is the alias, not the empty string. *)
Lemma no_database_yet_output_not_empty :
  Forall (fun s => databaseMembers s = []) (statements jsonOnlyFile)
  /\ transformTypes declaredName (parserOf jsonOnlyFile) (optionsFor jsonOnlyFile)
     = Ok "type Json = string | number | boolean | null | Json[]"
  /\ transformTypes declaredName (parserOf jsonOnlyFile) (optionsFor jsonOnlyFile)
     <> Ok EmptyString.
Proof.
  split; [repeat constructor |]. split; [reflexivity | discriminate].
Qed.

(** The enum [mood] is a reference to another type: nothing is declared
    for it and the path to it stays in the row of [users]. *)
Example reference_to_omitted_enum_is_kept :
  transformTypes declaredName (parserOf referenceEnumFile) (optionsFor referenceEnumFile)
  = Ok ("export type usersRow = { mood: " ++ moodPath ++ " }").
Proof. reflexivity. Qed.

(** The end-to-end scenarios: with [updates: true] the row and the update
    shape of [users] and the enum are declared, the table bodies referring
    to the enum by its formatted name. *)
Example scenario_updates :
  transformTypes declaredName (parserOf moodFile) updatesOptions
  = Ok ("export type usersRow = { mood: mood }" ++ separator
        ++ "export type usersUpdate = { mood: mood }" ++ separator
        ++ "export type mood = 'happy' | 'sad'").
Proof. reflexivity. Qed.

Example scenario_upper_case :
  transformTypes declaredName (parserOf moodFile) upperMoodOptions
  = Ok ("export type usersRow = { mood: MOOD }" ++ separator
        ++ "export type usersUpdate = { mood: MOOD }" ++ separator
        ++ "export type MOOD = 'happy' | 'sad'").
Proof. reflexivity. Qed.

(** ** What the whole walk collects *)

Lemma walk_appends (getNodeName : Node -> option string) (opts : TransformTypesOptions)
    (l : list Node) :
  Emits anything (forEach (topLevel getNodeName opts) l).
Proof.
  apply Emits_forEach; try (unfold anything; tauto).
  intros n _. apply Emits_topLevel; unfold anything; tauto.
Qed.

Lemma Emits_grows (Q : State -> Prop) (w : Walk) (st st' : State) :
  Emits Q w -> w st = Ok st' -> exists d, Q d /\ w initialState = Ok d /\ st' = appendState st d.
Proof.
  intros [A H] E. rewrite A in E. destruct (w initialState) as [d|e] eqn:E0; simpl in E;
    [| discriminate].
  injection E as <-. exists d. auto.
Qed.

Lemma transformTypes_Ok (getNodeName : Node -> option string)
    (createSourceFile : string -> SourceFile) (raw : RawOptions) (out : string) :
  transformTypes getNodeName createSourceFile raw = Ok out ->
  exists opts st,
    transformTypesOptionsSchema raw = Ok opts
    /\ walkSourceFile getNodeName opts (createSourceFile (sourceText opts)) = Ok st
    /\ out = rewriteReferences (schema opts) st (assemble (typeStrings st)).
Proof.
  unfold transformTypes, implementation, transformSourceFile. intros H.
  destruct (transformTypesOptionsSchema raw) as [opts|e]; [| discriminate].
  destruct (walkSourceFile getNodeName opts (createSourceFile (sourceText opts)))
    as [st|e] eqn:Hw; simpl in H; [| discriminate].
  injection H as <-. exists opts, st. split; [reflexivity |]. split; [exact Hw | reflexivity].
Qed.

Lemma rewriteReferences_none (schema : string) (st : State) (t : string) :
  enumNames st = [] -> compositeTypeNames st = [] -> rewriteReferences schema st t = t.
Proof. intros H1 H2. unfold rewriteReferences. now rewrite H1, H2. Qed.

Lemma retained_spec (l : list string) (d : string) :
  In d (retained l) <-> In d l /\ ~ occurs "Record<number" d.
Proof.
  unfold retained. rewrite filter_In. rewrite negb_true_iff, includes_false. reflexivity.
Qed.

Lemma assemble_without_record (l : list string) : ~ occurs "Record<number" (assemble l).
Proof.
  unfold assemble, separator.
  apply (occurs_join "Record<number" ";" (ascii_of_nat 10)).
  - discriminate.
  - apply includes_false. reflexivity.
  - apply includes_false. reflexivity.
  - apply Forall_forall. intros d Hd. now apply retained_spec in Hd.
Qed.

(** C4 (as amended).  A collected declaration that contains [Record<number]
    before the references are rewritten is left out whole: it is not among
    the declarations that are joined, every other declaration is, and the
    joined text handed to the rewriting passes has no occurrence of
    [Record<number]; neither has the returned text when no enum or composite
    type was recorded.  The filter is not applied again after the rewriting. *)
Theorem numeric_record_declarations_are_dropped
    (getNodeName : Node -> option string) (createSourceFile : string -> SourceFile)
    (raw : RawOptions) (out : string) :
  transformTypes getNodeName createSourceFile raw = Ok out ->
  exists opts st,
    transformTypesOptionsSchema raw = Ok opts
    /\ walkSourceFile getNodeName opts (createSourceFile (sourceText opts)) = Ok st
    /\ (forall d, In d (retained (typeStrings st))
                  <-> In d (typeStrings st) /\ ~ occurs "Record<number" d)
    /\ ~ occurs "Record<number" (assemble (typeStrings st))
    /\ out = rewriteReferences (schema opts) st (assemble (typeStrings st))
    /\ (enumNames st = [] -> compositeTypeNames st = [] -> ~ occurs "Record<number" out).
Proof.
  intros H. apply transformTypes_Ok in H as [opts [st [Ho [Hw Hout]]]].
  exists opts, st.
  split; [exact Ho |]. split; [exact Hw |].
  split; [intros d; apply retained_spec |].
  split; [apply assemble_without_record |].
  split; [exact Hout |].
  intros H1 H2. rewrite Hout, rewriteReferences_none by assumption.
  apply assemble_without_record.
Qed.

Lemma numeric_record_declarations_are_dropped_witness :
  exists opts st,
    transformTypesOptionsSchema (optionsFor recordJsonFile) = Ok opts
    /\ walkSourceFile declaredName opts (parserOf recordJsonFile (sourceText opts)) = Ok st
    /\ (forall d, In d (retained (typeStrings st))
                  <-> In d (typeStrings st) /\ ~ occurs "Record<number" d)
    /\ ~ occurs "Record<number" (assemble (typeStrings st))
    /\ EmptyString = rewriteReferences (schema opts) st (assemble (typeStrings st))
    /\ (enumNames st = [] -> compositeTypeNames st = [] ->
        ~ occurs "Record<number" EmptyString).
Proof.
  apply (numeric_record_declarations_are_dropped declaredName (parserOf recordJsonFile)
           (optionsFor recordJsonFile) EmptyString).
  reflexivity.
Defined.

(** C4, counterexample.  The row of table [t] is keyed by the enum named
    [number]; its declaration has no [Record<number] while it is filtered,
    gets one by the rewriting, and is returned. *)
Lemma numeric_record_created_by_rewriting_is_returned :
  transformTypes declaredName (parserOf numberEnumFile) (optionsFor numberEnumFile)
  = Ok ("export type tRow = { byKind: Record<number, string> }" ++ separator
        ++ "export type number = 'one' | 'two'")
  /\ Js.includes "Record<number"
       ("export type tRow = { byKind: Record<number, string> }" ++ separator
        ++ "export type number = 'one' | 'two'") = true.
Proof. split; reflexivity. Qed.

(** *** Rewriting declaration by declaration *)

Lemma replaceAllFrom_before (p r : string) :
  plain r -> forall s k b b', Js.replaceAllFrom p r b k s = Js.replaceAllFrom p r b' k s.
Proof.
  intros Hr. induction s as [|c s IH]; intros k b b'.
  - simpl. destruct k, p; try reflexivity. now rewrite !getSubstitution_plain.
  - cbn [Js.replaceAllFrom]. destruct k as [|k]; [| apply IH].
    destruct (Js.startsWith p (String c s)).
    + rewrite !getSubstitution_plain by assumption. f_equal.
      destruct (String.length p); [f_equal |]; apply IH.
    + f_equal. apply IH.
Qed.

Lemma replaceAll_hit (p r t : string) :
  p <> EmptyString -> plain r -> Js.replaceAll (p ++ t) p r = r ++ Js.replaceAll t p r.
Proof.
  intros Hp Hr. unfold Js.replaceAll.
  destruct (replaceAllFrom_hit p r EmptyString t Hp Hr) as [b' ->].
  f_equal. now apply replaceAllFrom_before.
Qed.

Lemma replaceAll_miss (p r : string) (c : ascii) (t : string) :
  plain r -> Js.startsWith p (String c t) = false ->
  Js.replaceAll (String c t) p r = String c (Js.replaceAll t p r).
Proof.
  intros Hr H. unfold Js.replaceAll. rewrite replaceAllFrom_miss by assumption.
  f_equal. now apply replaceAllFrom_before.
Qed.

Lemma replaceAll_empty (p r : string) :
  p <> EmptyString -> Js.replaceAll EmptyString p r = EmptyString.
Proof. intros Hp. destruct p; [congruence | reflexivity]. Qed.

(** A text without the path is left as it is. *)
Lemma replaceAll_absent (p r x : string) :
  p <> EmptyString -> plain r -> ~ occurs p x -> Js.replaceAll x p r = x.
Proof.
  intros Hp Hr. induction x as [|c x IH]; intros Hno.
  - now apply replaceAll_empty.
  - rewrite replaceAll_miss; [f_equal; apply IH | exact Hr |].
    + intros [a [b E]]. apply Hno. exists (String c a), b. simpl. now rewrite E.
    + destruct (Js.startsWith p (String c x)) eqn:E; [| reflexivity].
      exfalso. apply Hno. apply startsWith_spec in E as [t E].
      exists EmptyString, t. exact E.
Qed.

(** A code unit that the path does not contain cuts the text in two parts
    that are rewritten separately. *)
Lemma replaceAll_across (p r y : string) (c : ascii) :
  p <> EmptyString -> plain r -> ~ occurs (String c EmptyString) p ->
  forall n x, String.length x <= n ->
    Js.replaceAll (x ++ String c y) p r
    = Js.replaceAll x p r ++ String c (Js.replaceAll y p r).
Proof.
  intros Hp Hr Hc. induction n as [|n IH]; intros x Hlen.
  - destruct x; [| simpl in Hlen; lia]. simpl.
    rewrite replaceAll_empty by assumption. simpl. apply replaceAll_miss; [exact Hr |].
    destruct (Js.startsWith p (String c y)) eqn:E; [| reflexivity].
    exfalso. apply startsWith_spec in E as [t E]. destruct p as [|d p]; [congruence |].
    simpl in E. injection E as <- _. apply Hc. now exists EmptyString, p.
  - destruct (Js.startsWith p (x ++ String c y)) eqn:E.
    + apply startsWith_spec in E as [t E]. symmetry in E.
      destruct (prefix_across _ _ _ _ _ E) as [[x2 Hx] | Hin]; [| contradiction].
      subst x. rewrite append_assoc, !replaceAll_hit by assumption.
      rewrite append_assoc. f_equal. apply IH.
      rewrite length_append in Hlen. destruct p; [congruence | simpl in Hlen; lia].
    + destruct x as [|d x].
      * simpl. rewrite replaceAll_empty by assumption. simpl.
        now apply replaceAll_miss.
      * simpl in E |- *. rewrite replaceAll_miss by assumption.
        rewrite (replaceAll_miss p r d x); [| exact Hr |].
        -- simpl. f_equal. apply IH. simpl in Hlen. lia.
        -- destruct (Js.startsWith p (String d x)) eqn:E'; [| reflexivity].
           apply startsWith_spec in E' as [t E'].
           assert (Js.startsWith p (String d (x ++ String c y)) = true); [| congruence].
           apply startsWith_spec. exists (t ++ String c y).
           change (String d (x ++ String c y)) with (String d x ++ String c y).
           rewrite E'. now rewrite append_assoc.
Qed.

Lemma replaceAll_join (p r : string) (l : list string) :
  p <> EmptyString -> plain r ->
  ~ occurs ";" p -> ~ occurs Js.newline p ->
  Js.replaceAll (Js.join separator l) p r
  = Js.join separator (map (fun d => Js.replaceAll d p r) l).
Proof.
  intros Hp Hr H1 H2. induction l as [|x l IH].
  - now apply replaceAll_empty.
  - destruct l as [|y l]; [reflexivity |].
    change (Js.join separator (x :: y :: l))
      with (x ++ String ";" (EmptyString ++ String (ascii_of_nat 10) (Js.join separator (y :: l)))).
    rewrite (replaceAll_across p r _ ";" Hp Hr H1 (String.length x) x) by lia.
    rewrite (replaceAll_across p r _ (ascii_of_nat 10) Hp Hr H2 0 EmptyString)
      by (simpl; lia).
    rewrite replaceAll_empty by assumption. rewrite IH. reflexivity.
Qed.

Lemma passes_leave (text : string) (ps : list (string * string)) (l : list string) :
  Forall (fun pass => plain (snd pass)) ps ->
  forallb (passesBy text) ps = true ->
  In text l ->
  In text (fold_left
             (fun ds pass => map (fun d => Js.replaceAll d (fst pass) (snd pass)) ds) ps l).
Proof.
  intros Hpl. revert l. induction Hpl as [|[p r] ps Hr Hps IH]; intros l Hby Hin.
  - exact Hin.
  - simpl in *. apply andb_true_iff in Hby as [Hb Hby]. apply IH; [exact Hby |].
    unfold passesBy in Hb. simpl in Hb.
    apply andb_true_iff in Hb as [Hb _]. apply andb_true_iff in Hb as [Hb _].
    apply negb_true_iff, includes_false in Hb.
    apply in_map_iff. exists text. split; [| exact Hin].
    apply replaceAll_absent; auto. intros ->. apply Hb. now exists EmptyString, text.
Qed.

Lemma chain_per_declaration (text : string) (ps : list (string * string))
    (l : list string) (out : string) :
  Forall (fun pass => plain (snd pass) /\ fst pass <> EmptyString) ps ->
  forallb (passesBy text) ps = true ->
  fold_left (fun t pass => Js.replaceAll t (fst pass) (snd pass)) ps (Js.join separator l)
  = Js.join separator
      (fold_left
         (fun ds pass => map (fun d => Js.replaceAll d (fst pass) (snd pass)) ds) ps l).
Proof.
  intros Hpl. revert l. induction Hpl as [|[p r] ps [Hr Hne] Hps IH]; intros l Hby.
  - reflexivity.
  - simpl in *. apply andb_true_iff in Hby as [Hb Hby].
    unfold passesBy in Hb. simpl in Hb.
    apply andb_true_iff in Hb as [Hb H2]. apply andb_true_iff in Hb as [_ H1].
    apply negb_true_iff, includes_false in H1, H2.
    rewrite replaceAll_join by assumption. now apply IH.
Qed.

Lemma rewriteReferences_fold (schema : string) (st : State) (t : string) :
  rewriteReferences schema st t
  = fold_left (fun t pass => Js.replaceAll t (fst pass) (snd pass)) (passes schema st) t.
Proof.
  unfold rewriteReferences, passes. rewrite fold_left_app.
  assert (H : forall group l t0,
             fold_left (rewriteEntry schema group) l t0
             = fold_left (fun t pass => Js.replaceAll t (fst pass) (snd pass))
                 (flat_map (entryPasses schema group) l) t0).
  { intros group l. induction l as [|e l IH]; intros t0; [reflexivity |].
    simpl. now rewrite IH. }
  now rewrite !H.
Qed.

(** C5 (as amended).  In every run that returns, the text of a top-level
    type alias named [Json] is pushed as it stands, without a formatter,
    whatever the schema and whether or not there is a [Database]
    declaration; when it does not contain [Record<number] it is one of the
    declarations that are joined and occurs verbatim in the joined text, and
    it occurs verbatim in the returned text when every rewriting pass
    passes it by: the formatted names have no dollar sign and no recorded
    path occurs in it or contains a semicolon or a line feed (so, when no
    enum or composite type was recorded).  The filter and the rewriting
    passes treat it like any other declaration. *)
Theorem json_alias_is_copied
    (getNodeName : Node -> option string) (createSourceFile : string -> SourceFile)
    (raw : RawOptions) (out : string) (opts : TransformTypesOptions)
    (text : string) (modifiers typeParameters : list OtherNode) (type : TypeNode) :
  transformTypes getNodeName createSourceFile raw = Ok out ->
  transformTypesOptionsSchema raw = Ok opts ->
  In (TypeAliasDeclaration text modifiers "Json" typeParameters type)
     (statements (createSourceFile (sourceText opts))) ->
  exists st,
    walkSourceFile getNodeName opts (createSourceFile (sourceText opts)) = Ok st
    /\ out = rewriteReferences (schema opts) st (assemble (typeStrings st))
    /\ In text (typeStrings st)
    /\ (Js.includes "Record<number" text = false ->
        In text (retained (typeStrings st))
        /\ occurs text (assemble (typeStrings st))
        /\ (Forall (fun e => plain (formattedName e))
              (enumNames st ++ compositeTypeNames st) ->
            forallb (passesBy text) (passes (schema opts) st) = true ->
            occurs text out)).
Proof.
  intros H Ho Hin. apply transformTypes_Ok in H as [opts' [st [Ho' [Hw Hout]]]].
  rewrite Ho in Ho'. injection Ho' as <-.
  exists st. split; [exact Hw |]. split; [exact Hout |].
  assert (Hts : In text (typeStrings st)).
  { unfold walkSourceFile, sourceFileChildren in Hw.
    apply in_split in Hin as [l1 [l2 Hl]]. rewrite Hl in Hw.
    rewrite map_app in Hw. simpl in Hw. rewrite <- app_assoc in Hw. simpl in Hw.
    rewrite forEach_app in Hw.
    destruct (forEach (topLevel getNodeName opts) (map OfStatement l1) initialState)
      as [st1|e]; simpl in Hw; [| discriminate].
    unfold topLevel at 1 in Hw.
    destruct (database getNodeName opts _ st1) as [st2|e]; simpl in Hw; [| discriminate].
    apply (Emits_grows anything) in Hw as [d [_ [_ ->]]]; [| apply walk_appends].
    simpl. apply in_or_app. left. apply in_or_app. right. now left. }
  split; [exact Hts |]. intros Hrec.
  assert (Hret : In text (retained (typeStrings st))).
  { apply retained_spec. split; [exact Hts | now apply includes_false]. }
  split; [exact Hret |].
  split; [now apply occurs_in_join |].
  intros Hpl Hby.
  assert (Hps : Forall (fun pass => plain (snd pass) /\ fst pass <> EmptyString)
                  (passes (schema opts) st)).
  { apply Forall_app in Hpl as [He Hc]. unfold passes. apply Forall_app.
    split; apply Forall_flat_map; apply Forall_forall; intros e Hin';
      [rewrite Forall_forall in He; specialize (He e Hin')
      | rewrite Forall_forall in Hc; specialize (Hc e Hin')];
      unfold entryPasses; repeat constructor; simpl;
      auto using qualifiedPath_not_empty. }
  rewrite Hout, rewriteReferences_fold. unfold assemble.
  rewrite (chain_per_declaration text) by assumption.
  apply occurs_in_join. apply passes_leave; auto.
  apply Forall_forall. intros pass Hin'. rewrite Forall_forall in Hps.
  now apply Hps.
Qed.

Lemma json_alias_is_copied_witness :
  exists st,
    walkSourceFile declaredName (defaultsFor (textOf jsonOnlyFile))
      (parserOf jsonOnlyFile (textOf jsonOnlyFile)) = Ok st
    /\ "type Json = string | number | boolean | null | Json[]"
       = rewriteReferences "public" st (assemble (typeStrings st))
    /\ In "type Json = string | number | boolean | null | Json[]" (typeStrings st)
    /\ (Js.includes "Record<number" "type Json = string | number | boolean | null | Json[]"
        = false ->
        In "type Json = string | number | boolean | null | Json[]" (retained (typeStrings st))
        /\ occurs "type Json = string | number | boolean | null | Json[]"
             (assemble (typeStrings st))
        /\ (Forall (fun e => plain (formattedName e))
              (enumNames st ++ compositeTypeNames st) ->
            forallb (passesBy "type Json = string | number | boolean | null | Json[]")
              (passes "public" st) = true ->
            occurs "type Json = string | number | boolean | null | Json[]"
              "type Json = string | number | boolean | null | Json[]")).
Proof.
  apply (json_alias_is_copied declaredName (parserOf jsonOnlyFile) (optionsFor jsonOnlyFile)
           "type Json = string | number | boolean | null | Json[]"
           (defaultsFor (textOf jsonOnlyFile))
           "type Json = string | number | boolean | null | Json[]" [] []
           (UnionTypeNode "string | number | boolean | null | Json[]")).
  - reflexivity.
  - reflexivity.
  - left. reflexivity.
Defined.

(** C5, counterexample.  The source is [type Json = Record<number, string>]:
    the alias is removed by the filter and the result is empty. *)
Lemma json_alias_with_numeric_record_is_filtered :
  In (typeAlias "Json" (TypeReferenceNode "Record<number, string>"))
     (statements recordJsonFile)
  /\ transformTypes declaredName (parserOf recordJsonFile) (optionsFor recordJsonFile)
     = Ok EmptyString.
Proof. split; [now left | reflexivity]. Qed.

(** ** The gating flags *)

Lemma Subsequence_refl {A : Type} (l : list A) : Subsequence l l.
Proof. induction l; constructor; assumption. Qed.

Lemma Subsequence_nil_l {A : Type} (l : list A) : Subsequence [] l.
Proof. induction l; constructor; assumption. Qed.

Lemma Subsequence_app {A : Type} (a a' b b' : list A) :
  Subsequence a a' -> Subsequence b b' -> Subsequence (a ++ b) (a' ++ b').
Proof. intros Ha Hb. induction Ha; simpl; try constructor; assumption. Qed.

Lemma Subsequence_length {A : Type} (a b : list A) :
  Subsequence a b -> List.length a <= List.length b.
Proof. intros H. induction H; simpl; lia. Qed.

Lemma Subsequence_filter {A : Type} (f : A -> bool) (a b : list A) :
  Subsequence a b -> Subsequence (filter f a) (filter f b).
Proof.
  intros H. induction H; simpl; try constructor.
  - destruct (f x); try constructor; assumption.
  - destruct (f x); try constructor; assumption.
Qed.

Lemma Below_same (w0 w1 : Walk) : (forall st, w0 st = w1 st) -> Below w0 w1.
Proof.
  intros H d1 E. exists d1. rewrite H. split; [exact E |].
  split; [apply Subsequence_refl | split; reflexivity].
Qed.

Lemma Below_bind (w0 w0' w1 w1' : Walk) :
  Emits anything w0' -> Emits anything w1' ->
  Below w0 w1 -> Below w0' w1' ->
  Below (fun st => x <- w0 st;; w0' x) (fun st => x <- w1 st;; w1' x).
Proof.
  intros [A0 _] E1 B B' d1 E.
  destruct (w1 initialState) as [a1|e] eqn:Ea; simpl in E; [| discriminate].
  apply (Emits_grows anything) in E as [b1 [_ [Eb ->]]]; [| exact E1].
  destruct (B a1 Ea) as [a0 [Ea0 [Sa [Na Ca]]]].
  destruct (B' b1 Eb) as [b0 [Eb0 [Sb [Nb Cb]]]].
  exists (appendState a0 b0). rewrite Ea0. simpl. rewrite A0, Eb0. simpl.
  split; [reflexivity |]. split; [now apply Subsequence_app |].
  split; congruence.
Qed.

Lemma Below_forEach (cb0 cb1 : Node -> Walk) (l : list Node) :
  (forall n, Emits anything (cb0 n)) -> (forall n, Emits anything (cb1 n)) ->
  (forall n, Below (cb0 n) (cb1 n)) ->
  Below (forEach cb0 l) (forEach cb1 l).
Proof.
  intros H0 H1 HB. induction l as [|n l IH].
  - now apply Below_same.
  - change (forEach cb0 (n :: l)) with (fun st => x <- cb0 n st;; forEach cb0 l x).
    change (forEach cb1 (n :: l)) with (fun st => x <- cb1 n st;; forEach cb1 l x).
    apply Below_bind; auto; apply Emits_forEach; unfold anything; auto.
Qed.

Lemma Below_guard (b : bool) (w0 w1 : Walk) :
  Below w0 w1 ->
  Below (fun st => if b then w0 st else Ok st) (fun st => if b then w1 st else Ok st).
Proof. intros H. destruct b; [exact H | now apply Below_same]. Qed.

Lemma noNames_append (a b : State) : noNames a -> noNames b -> noNames (appendState a b).
Proof. intros [A1 A2] [B1 B2]. split; simpl; [now rewrite A1, B1 | now rewrite A2, B2]. Qed.

Lemma Returns_skip : Returns skip.
Proof. now exists initialState. Qed.

Lemma Returns_guard (b : bool) (w : Walk) :
  Returns w -> Returns (fun st => if b then w st else Ok st).
Proof. intros H. destruct b; [exact H | exact Returns_skip]. Qed.

Lemma Returns_forEach (cb : Node -> Walk) (l : list Node) :
  (forall n, Emits anything (cb n)) -> (forall n, Returns (cb n)) ->
  Returns (forEach cb l).
Proof.
  intros HE HR. induction l as [|n l [d IH]]; [exact Returns_skip |].
  destruct (HR n) as [a Ha]. exists (appendState a d). simpl. rewrite Ha. simpl.
  assert (H : Emits anything (forEach cb l))
    by (apply Emits_forEach; unfold anything; auto).
  destruct H as [A _]. now rewrite A, IH.
Qed.

Section TableWalkReturns.

Variable getNodeName : Node -> option string.
Variable opts : TransformTypesOptions.
Hypothesis names_resolve :
  forall n, isPropertySignature n = true -> exists s, getNodeName n = Some s.
Hypothesis formatter_returns :
  forall a b, exists r, tableOrViewFormatter opts (JsString a) (JsString b) = Ok r.

Lemma Returns_tableOperationType a b n :
  Returns (tableOperationType opts (Some a) (Some b) n).
Proof.
  unfold tableOperationType. apply Returns_guard.
  destruct (formatter_returns a b) as [r Hr]. unfold Returns. simpl. rewrite Hr.
  simpl. eauto.
Qed.

Lemma Returns_tableOperation a n : Returns (tableOperation getNodeName opts (Some a) n).
Proof.
  unfold tableOperation. apply Returns_guard.
  destruct (gatedOff opts (getNodeName n)); [exact Returns_skip |].
  destruct (getNodeName n) as [b|]; [| exact Returns_skip].
  apply Returns_guard. apply Returns_forEach.
  - intros m. apply Emits_tableOperationType; unfold anything; auto.
  - intros m. apply Returns_tableOperationType.
Qed.

Lemma Returns_tablesOrViews n : Returns (tablesOrViews getNodeName opts n).
Proof.
  unfold tablesOrViews. apply Returns_guard. apply Returns_forEach.
  - intros m. apply Emits_tableOrView; unfold anything; auto.
  - intros m. unfold tableOrView.
    destruct (isPropertySignature m) eqn:E; [| exact Returns_skip].
    destruct (names_resolve m E) as [a ->]. apply Returns_forEach.
    + intros k. apply Emits_tableBody; unfold anything; auto.
    + intros k. unfold tableBody. apply Returns_guard. apply Returns_forEach.
      * intros j. apply Emits_tableOperation; unfold anything; auto.
      * intros j. apply Returns_tableOperation.
Qed.

End TableWalkReturns.

Section Flags.

Variable getNodeName : Node -> option string.
Variable opts : TransformTypesOptions.
Variables rel upd ins del : bool.

Local Notation "'base'" := (withFlags opts false false false false).
Local Notation "'enabled'" := (withFlags opts rel upd ins del).

Lemma gatedOff_base (operation : option string) :
  gatedOff enabled operation = true -> gatedOff base operation = true.
Proof.
  unfold gatedOff. simpl.
  destruct (nameIs operation "Relationships"), (nameIs operation "Insert"),
    (nameIs operation "Update"), (nameIs operation "Delete"); simpl; auto;
    destruct rel, ins, upd, del; simpl; auto.
Qed.

Lemma Below_tableOperation tableOrViewName n :
  Below (tableOperation getNodeName base tableOrViewName n)
        (tableOperation getNodeName enabled tableOrViewName n).
Proof.
  destruct (gatedOff enabled (getNodeName n)) eqn:G1.
  - apply Below_same. intros st. unfold tableOperation.
    now rewrite G1, (gatedOff_base _ G1).
  - destruct (gatedOff base (getNodeName n)) eqn:G0.
    + intros d1 E1.
      assert (HN : noNames d1).
      { apply (Emits_tableOperation getNodeName enabled noNames) in E1; auto.
        - now split.
        - apply noNames_append.
        - intros s. now split. }
      exists initialState. unfold tableOperation. rewrite G0.
      split; [now destruct (isPropertySignature n) |].
      split; [apply Subsequence_nil_l |]. destruct HN as [-> ->]. now split.
    + apply Below_same. intros st. unfold tableOperation. now rewrite G1, G0.
Qed.

Lemma Below_tablesOrViews n :
  Below (tablesOrViews getNodeName base n) (tablesOrViews getNodeName enabled n).
Proof.
  unfold tablesOrViews. apply Below_guard. apply Below_forEach.
  - intros m. apply Emits_tableOrView; unfold anything; auto.
  - intros m. apply Emits_tableOrView; unfold anything; auto.
  - intros m. unfold tableOrView. apply Below_guard. apply Below_forEach.
    + intros k. apply Emits_tableBody; unfold anything; auto.
    + intros k. apply Emits_tableBody; unfold anything; auto.
    + intros k. unfold tableBody. apply Below_guard. apply Below_forEach.
      * intros j. apply Emits_tableOperation; unfold anything; auto.
      * intros j. apply Emits_tableOperation; unfold anything; auto.
      * intros j. apply Below_tableOperation.
Qed.

Lemma Emits_anything_tablesOrViews o n : Emits anything (tablesOrViews getNodeName o n).
Proof. apply Emits_tablesOrViews; unfold anything; auto. Qed.

Lemma Emits_anything_rest o n text :
  Emits anything (fun st1 =>
    st2 <- (if String.eqb "Enums" text
            then forEachChild n (enums getNodeName o) st1 else Ok st1);;
    st3 <- (if String.eqb "CompositeTypes" text
            then forEachChild n (compositeTypes getNodeName o) st2 else Ok st2);;
    if String.eqb "Functions" text
    then forEachChild n (functions getNodeName o) st3 else Ok st3).
Proof.
  repeat (apply Emits_bind; try (unfold anything; tauto));
    apply Emits_if; try (unfold anything; tauto);
    apply Emits_forEachChild; try (unfold anything; tauto); intros m;
    first [ apply Emits_enums | apply Emits_compositeTypes | apply Emits_functions ];
    unfold anything; tauto.
Qed.

Lemma Below_schemaMember n :
  Below (schemaMember getNodeName base n) (schemaMember getNodeName enabled n).
Proof.
  unfold schemaMember. destruct (identifierNameText n) as [text|];
    [| now apply Below_same].
  apply Below_bind.
  - apply Emits_anything_rest.
  - apply Emits_anything_rest.
  - apply Below_guard. apply Below_forEach;
      auto using Emits_anything_tablesOrViews, Below_tablesOrViews.
  - apply Below_same. intros st. reflexivity.
Qed.

Lemma Emits_anything_schemaMember o n : Emits anything (schemaMember getNodeName o n).
Proof. apply Emits_schemaMember; unfold anything; auto. Qed.

Lemma Emits_anything_schemaBody o n : Emits anything (schemaBody getNodeName o n).
Proof. apply Emits_schemaBody; unfold anything; auto. Qed.

Lemma Emits_anything_processDatabase o n : Emits anything (processDatabase getNodeName o n).
Proof. apply Emits_processDatabase; unfold anything; auto. Qed.

Lemma Below_processDatabase n :
  Below (processDatabase getNodeName base n) (processDatabase getNodeName enabled n).
Proof.
  unfold processDatabase. apply Below_guard.
  change (schema enabled) with (schema base). apply Below_guard.
  apply Below_forEach; auto using Emits_anything_schemaBody.
  intros m. unfold schemaBody. apply Below_guard.
  apply Below_forEach; auto using Emits_anything_schemaMember, Below_schemaMember.
Qed.

Lemma Below_topLevel n :
  Below (topLevel getNodeName base n) (topLevel getNodeName enabled n).
Proof.
  unfold topLevel. apply Below_bind.
  - apply Emits_json; unfold anything; auto.
  - apply Emits_json; unfold anything; auto.
  - unfold database.
    destruct n as [[text mods nm tps ty | text mods nm tps hcs ms | o] | | | |];
      try (now apply Below_same).
    + destruct ty; try (now apply Below_same).
      apply Below_guard.
      apply Below_forEach; auto using Emits_anything_processDatabase, Below_processDatabase.
    + apply Below_guard.
      apply Below_forEach; auto using Emits_anything_processDatabase, Below_processDatabase.
  - now apply Below_same.
Qed.

(** C8 (as amended).  Whenever the walk with some of the flags
    [relationships], [updates], [inserts], [deletes] enabled returns, the
    walk with all four flags [false] returns too, and the declarations it
    emits are among those emitted with the flags enabled, in the same
    order: enabling flags removes no declaration.  This holds of the
    table-or-view declarations of every [Tables] or [Views] grouping, whose
    number therefore does not decrease, before and after the filter, and of
    the whole walk, which records the same enums and composite types either
    way.  The walk of a grouping with flags enabled does return when the
    names of the property signatures resolve and the table-or-view
    formatter returns a string for every pair of names; otherwise it may
    throw where the walk with all flags [false] returns. *)
Theorem enabling_flags_keeps_table_declarations :
  (forall (group : Node) (st st1 : State),
     forEachChild group (tablesOrViews getNodeName enabled) st = Ok st1 ->
     exists st0 added0 added1,
       forEachChild group (tablesOrViews getNodeName base) st = Ok st0
       /\ typeStrings st0 = (typeStrings st ++ added0)%list
       /\ typeStrings st1 = (typeStrings st ++ added1)%list
       /\ Subsequence added0 added1
       /\ List.length added0 <= List.length added1
       /\ List.length (retained added0) <= List.length (retained added1))
  /\ (forall (sf : SourceFile) (st1 : State),
        walkSourceFile getNodeName enabled sf = Ok st1 ->
        exists st0,
          walkSourceFile getNodeName base sf = Ok st0
          /\ Subsequence (typeStrings st0) (typeStrings st1)
          /\ Subsequence (retained (typeStrings st0)) (retained (typeStrings st1))
          /\ enumNames st0 = enumNames st1
          /\ compositeTypeNames st0 = compositeTypeNames st1)
  /\ ((forall n, isPropertySignature n = true -> exists s, getNodeName n = Some s) ->
      (forall a b, exists r, tableOrViewFormatter opts (JsString a) (JsString b) = Ok r) ->
      forall (group : Node) (st : State),
        exists st1, forEachChild group (tablesOrViews getNodeName enabled) st = Ok st1).
Proof.
  assert (HE : forall o group,
             Emits anything (forEach (tablesOrViews getNodeName o) (children group))).
  { intros o group. apply Emits_forEach; unfold anything; auto.
    intros n _. apply Emits_anything_tablesOrViews. }
  split; [| split].
  - intros group st st1 E. unfold forEachChild in *.
    apply (Emits_grows anything) in E as [d1 [_ [E1 ->]]]; [| apply HE].
    assert (HB : Below (forEach (tablesOrViews getNodeName base) (children group))
                       (forEach (tablesOrViews getNodeName enabled) (children group))).
    { apply Below_forEach; auto using Emits_anything_tablesOrViews, Below_tablesOrViews. }
    destruct (HB d1 E1) as [d0 [E0 [S0 _]]].
    exists (appendState st d0), (typeStrings d0), (typeStrings d1).
    destruct (HE base group) as [A _]. rewrite A, E0. simpl.
    repeat split; auto.
    + now apply Subsequence_length.
    + apply Subsequence_length. now apply Subsequence_filter.
  - intros sf st1 E. unfold walkSourceFile in *.
    assert (HB : Below (forEach (topLevel getNodeName base) (sourceFileChildren sf))
                       (forEach (topLevel getNodeName enabled) (sourceFileChildren sf))).
    { apply Below_forEach; auto using Below_topLevel.
      - intros n. apply Emits_topLevel; unfold anything; auto.
      - intros n. apply Emits_topLevel; unfold anything; auto. }
    destruct (HB st1 E) as [st0 [E0 [S0 [N0 C0]]]].
    exists st0. repeat split; auto. now apply Subsequence_filter.
  - intros Hn Hf group st. unfold forEachChild.
    destruct (Returns_forEach (tablesOrViews getNodeName enabled) (children group))
      as [d Hd].
    + intros n. apply Emits_anything_tablesOrViews.
    + intros n. apply Returns_tablesOrViews; assumption.
    + exists (appendState st d). destruct (HE enabled group) as [A _].
      now rewrite A, Hd.
Qed.

End Flags.

Lemma enabling_flags_keeps_table_declarations_witness :
  exists st0 added0 added1,
    forEachChild (OfTypeElement moodTables)
      (tablesOrViews declaredName
         (withFlags (defaultsFor (textOf moodFile)) false false false false)) initialState
    = Ok st0
    /\ typeStrings st0 = (typeStrings initialState ++ added0)%list
    /\ typeStrings (declarationsOnly
                      ["export type usersRow = { mood: " ++ moodPath ++ " }";
                       "export type usersUpdate = { mood: " ++ moodPath ++ " }"])
       = (typeStrings initialState ++ added1)%list
    /\ Subsequence added0 added1
    /\ List.length added0 <= List.length added1
    /\ List.length (retained added0) <= List.length (retained added1).
Proof.
  apply (proj1 (enabling_flags_keeps_table_declarations declaredName
                  (defaultsFor (textOf moodFile)) false true false false)
           (OfTypeElement moodTables) initialState).
  reflexivity.
Defined.

(** C8, counterexample.  The table-or-view formatter returns a number for
    [Insert]: with all flags [false] the operation is gated off and the run
    returns; with [inserts: true] the formatter is called for it and the run
    throws, so that no output is produced. *)
Lemma enabling_a_flag_can_make_the_run_throw :
  transformTypes declaredName (parserOf moodFile)
    (numberForInsertOptions (Primitive JsUndefined))
  = Ok ("export type usersRow = { mood: mood }" ++ separator
        ++ "export type mood = 'happy' | 'sad'")
  /\ transformTypes declaredName (parserOf moodFile)
       (numberForInsertOptions (Primitive (JsBoolean true)))
     = Throw [invalid_return_type [invalid_type EmptyString "string"]].
Proof. split; reflexivity. Qed.

(** ** Rewriting of the references *)

Lemma RewriteChain_app (ps qs : list (string * string)) (t t' out : string) :
  RewriteChain ps t t' -> RewriteChain qs t' out -> RewriteChain (ps ++ qs) t out.
Proof.
  intros H. induction H as [t | p r ps t t1 t2 Hp Hps IH]; intros Hq; simpl.
  - exact Hq.
  - eapply chain_cons; [exact Hp | now apply IH].
Qed.

Lemma rewriteEntry_chain (schema group t : string) (e : NameEntry) :
  plain (formattedName e) ->
  RewriteChain (entryPasses schema group e) t (rewriteEntry schema group t e).
Proof.
  intros H. unfold entryPasses, rewriteEntry.
  eapply chain_cons; [| eapply chain_cons; [| apply chain_nil]];
    apply replaceAll_spec; auto using qualifiedPath_not_empty.
Qed.

Lemma rewriteEntries_chain (schema group : string) (l : list NameEntry) (t : string) :
  Forall (fun e => plain (formattedName e)) l ->
  RewriteChain (flat_map (entryPasses schema group) l) t
    (fold_left (rewriteEntry schema group) l t).
Proof.
  intros H. revert t. induction H as [|e l He Hl IH]; intros t; simpl.
  - apply chain_nil.
  - apply (RewriteChain_app (entryPasses schema group e) _ t (rewriteEntry schema group t e)).
    + now apply rewriteEntry_chain.
    + apply IH.
Qed.

(** ** No path survives in a well-delimited text *)

Lemma append_eq_append (a b c d : string) :
  a ++ b = c ++ d ->
  exists l, (a = c ++ l /\ d = l ++ b) \/ (c = a ++ l /\ b = l ++ d).
Proof.
  revert c. induction a as [|x a IH]; intros c H; simpl in H.
  - exists c. right. now split.
  - destruct c as [|y c]; simpl in H.
    + exists (String x a). left. now split.
    + injection H as -> H. destruct (IH c H) as [l [[H1 H2] | [H1 H2]]].
      * exists l. left. split; [simpl; now rewrite H1 | exact H2].
      * exists l. right. split; [simpl; now rewrite H1 | exact H2].
Qed.

(** Where an occurrence of [x] in [u ++ v] lies: in [u], in [v], or across
    the two. *)
Lemma occurrence_in_append (a x b u v : string) :
  a ++ x ++ b = u ++ v ->
  (exists b1, u = a ++ x ++ b1 /\ b = b1 ++ v)
  \/ (exists a1, a = u ++ a1 /\ v = a1 ++ x ++ b)
  \/ (exists x1 x2, x1 <> EmptyString /\ x2 <> EmptyString
        /\ x = x1 ++ x2 /\ u = a ++ x1 /\ v = x2 ++ b).
Proof.
  intros H. destruct (append_eq_append _ _ _ _ H) as [l [[H1 H2] | [H1 H2]]].
  - right. left. exists l. now split.
  - destruct (append_eq_append _ _ _ _ H2) as [m [[H3 H4] | [H3 H4]]].
    + destruct m as [|c m].
      * left. exists EmptyString. rewrite append_empty_r in H3. subst x.
        simpl in H4. subst v. rewrite append_empty_r. split; [exact H1 | reflexivity].
      * destruct l as [|d l].
        -- right. left. exists EmptyString. rewrite append_empty_r in H1. subst u.
           simpl in *. subst. split; [now rewrite append_empty_r | reflexivity].
        -- right. right. exists (String d l), (String c m).
           repeat split; try discriminate; assumption.
    + left. exists m. subst l. split; [exact H1 | exact H4].
Qed.

Lemma allWord_app (x y : string) : allWord (x ++ y) = allWord x && allWord y.
Proof. induction x as [|c x IH]; simpl; [reflexivity | now rewrite IH, andb_assoc]. Qed.

Lemma lastChar_app (x y : string) : y <> EmptyString -> lastChar (x ++ y) = lastChar y.
Proof.
  intros Hy. induction x as [|c x IH]; simpl; [reflexivity |].
  destruct (x ++ y) eqn:E; [| exact IH].
  destruct x; simpl in E; [congruence | discriminate].
Qed.

Lemma lastChar_snoc (x : string) (c : ascii) : lastChar (x ++ String c EmptyString) = Some c.
Proof. now rewrite lastChar_app by discriminate. Qed.

Lemma split_last (x : string) :
  x <> EmptyString -> exists x' c, x = x' ++ String c EmptyString.
Proof.
  induction x as [|d x IH]; intros H; [congruence |].
  destruct x as [|e x].
  - now exists EmptyString, d.
  - destruct IH as [x' [c Hx]]; [discriminate |].
    exists (String d x'), c. simpl. now rewrite Hx.
Qed.

(** A non-empty prefix of a word ends in a word character. *)
Lemma word_prefix_last (w x y : string) :
  allWord w = true -> w = x ++ y -> x <> EmptyString ->
  exists c, lastChar x = Some c /\ isWordChar c = true.
Proof.
  intros Hw -> Hx. rewrite allWord_app in Hw. apply andb_true_iff in Hw as [Hw _].
  destruct (split_last x Hx) as [x' [c ->]]. exists c. rewrite lastChar_snoc.
  split; [reflexivity |]. rewrite allWord_app in Hw.
  apply andb_true_iff in Hw as [_ Hw]. simpl in Hw. now rewrite andb_true_r in Hw.
Qed.

Lemma word_first (w : string) (c : ascii) (y : string) :
  allWord w = true -> w = String c y -> isWordChar c = true.
Proof. intros Hw ->. simpl in Hw. now apply andb_true_iff in Hw as [Hc _]. Qed.

Lemma endsWith_spec (suffix s : string) :
  endsWith suffix s = true <-> exists a, s = a ++ suffix.
Proof.
  induction s as [|c s IH]; cbn [endsWith].
  - rewrite orb_false_r. rewrite String.eqb_eq. split.
    + intros <-. now exists EmptyString.
    + intros [a H]. destruct a; simpl in H; [now subst | discriminate].
  - rewrite orb_true_iff, String.eqb_eq, IH. split.
    + intros [<- | [a ->]]; [now exists EmptyString | now exists (String c a)].
    + intros [a H]. destruct a as [|d a]; simpl in H.
      * now left.
      * injection H as _ H. right. now exists a.
Qed.

Lemma isQuote_not_word (q : ascii) : isQuote q = true -> isWordChar q = false.
Proof.
  unfold isQuote. rewrite orb_true_iff, !Ascii.eqb_eq. intros [-> | ->]; reflexivity.
Qed.

Lemma lastChar_cons (e : ascii) (x : string) :
  lastChar (String e x) = match lastChar x with Some d => Some d | None => Some e end.
Proof.
  destruct x as [|f x]; [reflexivity |].
  change (lastChar (String e (String f x))) with (lastChar (String f x)).
  destruct (lastChar (String f x)) eqn:E; [reflexivity |].
  exfalso. clear -E. revert f E. induction x as [|g x IH]; intros f E; [discriminate |].
  apply (IH g). exact E.
Qed.

Lemma tameFrom_spec (x : string) :
  forall p x1 c x2,
    tameFrom p x = true -> x = x1 ++ String c x2 -> isWordChar c = true ->
    match lastChar x1 with
    | Some d => isWordChar d || isQuote d = true
    | None => isWordChar p || isQuote p = true
    end.
Proof.
  induction x as [|e x IH]; intros p x1 c x2 Ht Hx Hc.
  - destruct x1; discriminate.
  - destruct x1 as [|f x1]; simpl in Hx; injection Hx as -> Hx.
    + simpl in Ht. rewrite Hc in Ht. simpl. now apply andb_true_iff in Ht as [Ht _].
    + simpl in Ht. apply andb_true_iff in Ht as [_ Ht].
      specialize (IH f x1 c x2 Ht Hx Hc). rewrite lastChar_cons.
      destruct (lastChar x1); exact IH.
Qed.

Lemma tameFrom_word (w y : string) (p c : ascii) :
  allWord w = true -> isWordChar p || isQuote p = true -> isWordChar c = false ->
  tameFrom p (w ++ String c y) = tameFrom c y.
Proof.
  intros Hw Hp Hc. revert p Hp. induction w as [|e w IH]; intros p Hp; simpl.
  - now rewrite Hc.
  - simpl in Hw. apply andb_true_iff in Hw as [He Hw]. rewrite He, Hp. simpl.
    apply IH; [exact Hw | now rewrite He].
Qed.

(** The shape of a path with word keys. *)
Lemma wordPath_shape (p : string) :
  IsWordPath p ->
  exists y q p0,
    p = "Database[" ++ y
    /\ tameFrom "D" ("atabase[" ++ y) = true
    /\ isQuote q = true
    /\ p = p0 ++ String q (String "]" EmptyString).
Proof.
  intros [double [schema [group [nm [-> [Hs [Hg Hn]]]]]]].
  set (q := if double then ascii_of_nat 34 else "'"%char).
  assert (Hq : isQuote q = true) by (destruct double; reflexivity).
  assert (Hqw : isWordChar q = false) by now apply isQuote_not_word.
  assert (Hquote : (if double then Js.dquote else "'") = String q EmptyString)
    by (destruct double; reflexivity).
  rewrite Hquote. unfold qualifiedPath.
  exists (String q EmptyString ++ schema ++ String q EmptyString ++ "][" ++ String q EmptyString
          ++ group ++ String q EmptyString ++ "][" ++ String q EmptyString
          ++ toString (nameValue nm) ++ String q EmptyString ++ "]"),
    q,
    ("Database[" ++ String q EmptyString ++ schema ++ String q EmptyString ++ "]["
     ++ String q EmptyString ++ group ++ String q EmptyString ++ "][" ++ String q EmptyString
     ++ toString (nameValue nm)).
  split; [reflexivity |]. split; [| split; [exact Hq |]].
  - cbn [String.append tameFrom].
    replace (isWordChar "D") with true by reflexivity.
    replace (isWordChar "a") with true by reflexivity.
    replace (isWordChar "t") with true by reflexivity.
    replace (isWordChar "b") with true by reflexivity.
    replace (isWordChar "s") with true by reflexivity.
    replace (isWordChar "e") with true by reflexivity.
    replace (isWordChar "[") with false by reflexivity.
    replace (isWordChar "]") with false by reflexivity.
    rewrite Hqw. cbn [orb andb].
    rewrite (tameFrom_word schema) by (try assumption; now rewrite Hq, orb_true_r).
    cbn [tameFrom]. replace (isWordChar "[") with false by reflexivity.
    replace (isWordChar "]") with false by reflexivity. rewrite Hqw. cbn [orb andb].
    rewrite (tameFrom_word group) by (try assumption; now rewrite Hq, orb_true_r).
    cbn [tameFrom]. replace (isWordChar "[") with false by reflexivity.
    replace (isWordChar "]") with false by reflexivity. rewrite Hqw. cbn [orb andb].
    rewrite (tameFrom_word (toString (nameValue nm)))
      by (try assumption; now rewrite Hq, orb_true_r).
    cbn [tameFrom]. replace (isWordChar "]") with false by reflexivity. reflexivity.
  - rewrite !append_assoc. reflexivity.
Qed.

Section PathLike.

(** [x] begins like a path and is tame. *)
Variables x y : string.
Hypothesis x_shape : x = "Database[" ++ y.
Hypothesis x_tame : tameFrom "D" ("atabase[" ++ y) = true.

Lemma pathLike_not_in_word (r a1 b1 : string) : allWord r = true -> r <> a1 ++ x ++ b1.
Proof.
  intros Hr E. rewrite E, x_shape in Hr. rewrite !allWord_app in Hr.
  apply andb_true_iff in Hr as [_ Hr]. apply andb_true_iff in Hr as [Hr _].
  apply andb_true_iff in Hr as [Hr _]. discriminate.
Qed.

Lemma pathLike_word_prefix (x1 x2 : string) :
  x = x1 ++ x2 -> allWord x1 = true -> x1 <> EmptyString ->
  x1 = "Database" \/ exists c x2', x2 = String c x2' /\ isWordChar c = true.
Proof.
  intros E Hw Hne. rewrite x_shape in E.
  change ("Database[" ++ y) with ("Database" ++ String "[" y) in E. symmetry in E.
  destruct (append_eq_append _ _ _ _ E) as [l [[H1 H2] | [H1 H2]]].
  - destruct l as [|c l].
    + left. now rewrite append_empty_r in H1.
    + exfalso. simpl in H2. injection H2 as <- _. rewrite H1, allWord_app in Hw.
      apply andb_true_iff in Hw as [_ Hw]. discriminate.
  - destruct l as [|c l].
    + left. now rewrite append_empty_r in H1.
    + right. exists c, (l ++ String "[" y). split; [exact H2 |].
      assert (Hd : allWord "Database" = true) by reflexivity.
      rewrite H1, allWord_app in Hd. apply andb_true_iff in Hd as [_ Hd].
      simpl in Hd. now apply andb_true_iff in Hd as [Hd _].
Qed.

Lemma pathLike_before_word (x1 x2 : string) (c : ascii) :
  x = x1 ++ String c x2 -> x1 <> EmptyString -> isWordChar c = true ->
  exists d, lastChar x1 = Some d /\ isWordChar d || isQuote d = true.
Proof.
  intros E Hne Hc. rewrite x_shape in E.
  destruct x1 as [|e x1]; [congruence |].
  change ("Database[" ++ y) with (String "D" ("atabase[" ++ y)) in E.
  simpl in E. injection E as <- E.
  pose proof (tameFrom_spec _ _ _ _ _ x_tame E Hc) as H.
  rewrite lastChar_cons. destruct (lastChar x1) as [d|].
  - now exists d.
  - now exists "D"%char.
Qed.

(** Where [x] can occur in [u ++ r ++ t'], [r] a word that comes after a
    clean end of [u] and before a [t'] that does not begin with a word
    character: in [u] or in [t']. *)
Lemma pathLike_occurrence (u r t' a b : string) :
  allWord r = true -> r <> EmptyString -> endsWith "Database" r = false ->
  (u <> EmptyString -> cleanBefore (lastChar u) = true) ->
  (forall c t2, t' = String c t2 -> isWordChar c = false) ->
  a ++ x ++ b = u ++ r ++ t' ->
  (exists b1, u = a ++ x ++ b1 /\ b = b1 ++ r ++ t')
  \/ (exists a2, a = u ++ r ++ a2 /\ t' = a2 ++ x ++ b).
Proof.
  intros Hr Hne Hend Hu Ht E.
  destruct (occurrence_in_append _ _ _ _ _ E)
    as [[b1 [E1 E2]] | [[a1 [E1 E2]] | [x1 [x2 [N1 [N2 [Ex [Eu Ev]]]]]]]].
  - left. now exists b1.
  - symmetry in E2.
    destruct (occurrence_in_append _ _ _ _ _ E2)
      as [[b1 [F1 F2]] | [[a2 [F1 F2]] | [x1 [x2 [N1 [N2 [Ex [Er Et]]]]]]]].
    + exfalso. now apply (pathLike_not_in_word r a1 b1).
    + right. exists a2. split; [| exact F2]. now rewrite E1, F1.
    + exfalso.
      assert (Hx1 : allWord x1 = true).
      { rewrite Er, allWord_app in Hr. now apply andb_true_iff in Hr as [_ Hr]. }
      destruct (pathLike_word_prefix x1 x2 Ex Hx1 N1) as [-> | [c [x2' [-> Hc]]]].
      * assert (endsWith "Database" r = true) by (apply endsWith_spec; now exists a1).
        congruence.
      * simpl in Et. rewrite (Ht c _ Et) in Hc. discriminate.
  - exfalso. destruct r as [|c r]; [congruence |].
    destruct x2 as [|c' x2]; [congruence |].
    simpl in Ev. injection Ev as <- Ev.
    assert (Hc : isWordChar c = true) by (simpl in Hr; now apply andb_true_iff in Hr as [Hr _]).
    destruct (pathLike_before_word x1 x2 c Ex N1 Hc) as [d [Hd Hd']].
    assert (Hun : u <> EmptyString).
    { rewrite Eu. destruct a; simpl; [exact N1 | discriminate]. }
    specialize (Hu Hun). rewrite Eu, lastChar_app, Hd in Hu by exact N1.
    unfold cleanBefore in Hu. rewrite Hd' in Hu. discriminate.
Qed.

End PathLike.

Lemma StartsClean_suffix (x y : string) : StartsClean (x ++ y) -> StartsClean y.
Proof.
  intros H a b E. destruct a as [|c a]; [reflexivity |].
  rewrite <- (lastChar_app x (String c a)) by discriminate.
  apply (H (x ++ String c a) b). rewrite E. now rewrite append_assoc.
Qed.

Lemma EndsClean_suffix (x y : string) : EndsClean (x ++ y) -> EndsClean y.
Proof.
  intros H a q b Hq E. apply (H (x ++ a) q b Hq). rewrite E. now rewrite append_assoc.
Qed.

Lemma replaced_first (p r s' t' y : string) (c : ascii) (t2 : string) :
  ReplacedAll p r s' t' -> p = "Database[" ++ y ->
  (forall b, s' <> "Database[" ++ b) ->
  t' = String c t2 -> exists s2, s' = String c s2.
Proof.
  intros H Hp Hs Et. destruct H as [s' _ | u s2 t3 _ _].
  - now exists t2.
  - destruct u as [|d u].
    + exfalso. apply (Hs (y ++ s2)). simpl. rewrite Hp. now rewrite append_assoc.
    + simpl in Et. injection Et as -> _. now exists (u ++ p ++ s2).
Qed.

Lemma replaced_starts (p r s' t' y b : string) :
  ReplacedAll p r s' t' -> p = "Database[" ++ y -> StartsClean s' ->
  t' = "Database[" ++ b -> exists b', s' = "Database[" ++ b'.
Proof.
  intros H Hp Hs Et. destruct H as [s' _ | u s2 t3 _ _].
  - now exists b.
  - destruct (append_eq_append _ _ _ _ Et) as [l [[H1 H2] | [H1 H2]]].
    + exists (l ++ p ++ s2). rewrite H1. now rewrite append_assoc.
    + destruct u as [|d u].
      * exists (y ++ s2). simpl. rewrite Hp. now rewrite append_assoc.
      * destruct l as [|e l].
        -- rewrite append_empty_r in H1. exists (p ++ s2). now rewrite <- H1.
        -- exfalso.
           assert (Hw : exists z, lastChar (String d u) = Some z /\ isWordChar z = true).
           { change "Database[" with ("Database" ++ "[") in H1. symmetry in H1.
             destruct (append_eq_append _ _ _ _ H1) as [m [[G1 G2] | [G1 G2]]].
             - destruct m as [|f m].
               + rewrite append_empty_r in G1. rewrite G1. now exists "e"%char.
               + simpl in G2. injection G2 as _ G2. destruct m; discriminate.
             - apply (word_prefix_last "Database" _ m); [reflexivity | exact G1 | discriminate]. }
           destruct Hw as [z [Hz Hzw]].
           specialize (Hs (String d u) (y ++ s2)).
           rewrite Hz in Hs. unfold cleanBefore in Hs. rewrite Hzw in Hs.
           simpl in Hs. assert (false = true); [| discriminate].
           apply Hs. rewrite Hp. now rewrite append_assoc.
Qed.

(** One pass over a well-delimited text: the text stays well delimited,
    the path of the pass is gone, and no path with word keys appears that
    was not there. *)
Lemma pass_preserves (p r : string) :
  IsWordPath p -> allWord r = true -> r <> EmptyString ->
  endsWith "Database" r = false ->
  forall s t, ReplacedAll p r s t -> StartsClean s -> EndsClean s ->
    StartsClean t /\ EndsClean t /\ ~ occurs p t
    /\ (forall p', IsWordPath p' -> occurs p' t -> occurs p' s).
Proof.
  intros Hp Hr Hne Hend s t H.
  destruct (wordPath_shape p Hp) as [y [q [p0 [Py [Ptame [Hq Pq]]]]]].
  induction H as [s Hno | u s' t' Hleft Hrep IH]; intros HS HE.
  - repeat split; auto.
  - assert (HS' : StartsClean s').
    { apply (StartsClean_suffix (u ++ p)). now rewrite append_assoc. }
    assert (HE' : EndsClean s').
    { apply (EndsClean_suffix (u ++ p)). now rewrite append_assoc. }
    destruct (IH HS' HE') as [IS [IE [Ino Itr]]].
    assert (HA : forall b, s' <> "Database[" ++ b).
    { intros b E. specialize (HS (u ++ p) b).
      rewrite lastChar_app in HS by (rewrite Py; discriminate).
      rewrite Pq, lastChar_app in HS by discriminate. simpl in HS.
      assert (false = true); [| discriminate].
      apply HS. rewrite E, <- Pq. now rewrite append_assoc. }
    assert (HD : forall c t2, t' = String c t2 -> isWordChar c = false).
    { intros c t2 Et. destruct (replaced_first p r s' t' y c t2 Hrep Py HA Et) as [s2 Es].
      specialize (HE (u ++ p0) q (String c s2) Hq). apply HE.
      rewrite Es, Pq. now rewrite !append_assoc. }
    assert (HU : u <> EmptyString -> cleanBefore (lastChar u) = true).
    { intros _. apply (HS u (y ++ s')). rewrite Py. now rewrite !append_assoc. }
    assert (HC : forall b, t' <> "Database[" ++ b).
    { intros b Et. destruct (replaced_starts p r s' t' y b Hrep Py HS' Et) as [b' Es].
      now apply (HA b'). }
    assert (Hocc : forall p', IsWordPath p' -> occurs p' (u ++ r ++ t') ->
                     occurs p' u \/ occurs p' t').
    { intros p' Hp' [a [b E]]. symmetry in E.
      destruct (wordPath_shape p' Hp') as [y' [q' [p0' [Py' [Ptame' _]]]]].
      destruct (pathLike_occurrence p' y' Py' Ptame' u r t' a b Hr Hne Hend HU HD E)
        as [[b1 [E1 _]] | [a2 [_ E2]]].
      - left. now exists a, b1.
      - right. now exists a2, b. }
    split; [| split; [| split]].
    + intros a b E. symmetry in E.
      destruct (pathLike_occurrence "Database[" EmptyString eq_refl eq_refl
                  u r t' a b Hr Hne Hend HU HD E) as [[b1 [E1 E2]] | [a2 [E1 E2]]].
      * apply (HS a (b1 ++ p ++ s')). rewrite E1. now rewrite !append_assoc.
      * destruct a2 as [|c a2].
        -- exfalso. now apply (HC b).
        -- rewrite E1, <- append_assoc, lastChar_app by discriminate.
           now apply (IS (String c a2) b).
    + intros a q' b Hq' E.
      change (String q' (String "]" b)) with (String q' (String "]" EmptyString) ++ b) in E.
      symmetry in E.
      destruct (occurrence_in_append _ _ _ _ _ E)
        as [[b1 [E1 E2]] | [[a1 [E1 E2]] | [x1 [x2 [N1 [N2 [Ex [Eu Ev]]]]]]]].
      * destruct b1 as [|d b1].
        -- exfalso.
           assert (Hw : match p ++ s' with
                        | EmptyString => True
                        | String d _ => isWordChar d = false
                        end).
           { apply (HE a q' (p ++ s') Hq'). rewrite E1, !append_assoc. reflexivity. }
           rewrite Py in Hw. simpl in Hw. discriminate.
        -- rewrite E2. simpl.
           apply (HE a q' (String d (b1 ++ p ++ s')) Hq').
           rewrite E1, !append_assoc. reflexivity.
      * symmetry in E2.
        destruct (occurrence_in_append _ _ _ _ _ E2)
          as [[b1 [F1 F2]] | [[a2 [F1 F2]] | [x1 [x2 [N1 [N2 [Ex [Er Et]]]]]]]].
        -- exfalso. rewrite F1, !allWord_app in Hr. simpl in Hr.
           rewrite (isQuote_not_word q' Hq') in Hr. simpl in Hr.
           now rewrite andb_false_r in Hr.
        -- now apply (IE a2 q' b Hq').
        -- exfalso. destruct x1 as [|e x1]; [congruence |].
           simpl in Ex. injection Ex as <- _. rewrite Er, allWord_app in Hr. simpl in Hr.
           rewrite (isQuote_not_word q' Hq') in Hr. simpl in Hr.
           now rewrite andb_false_r in Hr.
      * exfalso. destruct x1 as [|e x1]; [congruence |].
        simpl in Ex. injection Ex as <- Ex.
        destruct x1 as [|f x1].
        -- simpl in Ex. subst x2. destruct r as [|c r]; [congruence |].
           simpl in Ev. injection Ev as Hc _. subst c. simpl in Hr. discriminate.
        -- simpl in Ex. injection Ex as _ Ex. destruct x1; simpl in Ex.
           ++ congruence.
           ++ discriminate.
    + intros Ho. destruct (Hocc p Hp Ho) as [[a [b1 E]] | Ht']; [| contradiction].
      assert (Ha : a = u).
      { apply (Hleft a (b1 ++ p)). rewrite E. now rewrite !append_assoc. }
      rewrite Ha in E.
      assert (Hl : String.length u = String.length (u ++ p ++ b1)) by now rewrite <- E.
      rewrite !length_append, Py in Hl. simpl in Hl. lia.
    + intros p' Hp' Ho. destruct (Hocc p' Hp' Ho) as [[a [b1 E]] | Ht'].
      * exists a, (b1 ++ p ++ s'). rewrite E. now rewrite !append_assoc.
      * destruct (Itr p' Hp' Ht') as [a [b E]]. exists (u ++ p ++ a), b.
        rewrite E. now rewrite !append_assoc.
Qed.

Lemma pathStartsClean_spec (s : string) :
  forall prev a b,
    pathStartsClean prev s = true -> s = a ++ "Database[" ++ b ->
    cleanBefore (match lastChar a with Some c => Some c | None => prev end) = true.
Proof.
  induction s as [|c s IH]; intros prev a b H E.
  - destruct a; discriminate.
  - cbn [pathStartsClean] in H. apply andb_true_iff in H as [H1 H2].
    destruct a as [|d a].
    + assert (Hs : Js.startsWith "Database[" (String c s) = true)
        by (apply startsWith_spec; now exists b).
      rewrite Hs in H1. exact H1.
    + simpl in E. injection E as <- E. rewrite lastChar_cons.
      specialize (IH (Some c) a b H2 E). now destruct (lastChar a).
Qed.

Lemma pathStartsClean_StartsClean (s : string) :
  pathStartsClean None s = true -> StartsClean s.
Proof.
  intros H a b E. pose proof (pathStartsClean_spec s None a b H E) as H'.
  now destruct (lastChar a).
Qed.

Lemma keyEndsClean_EndsClean (s : string) : keyEndsClean s = true -> EndsClean s.
Proof.
  induction s as [|c s IH]; intros H a q b Hq E.
  - destruct a; discriminate.
  - cbn [keyEndsClean] in H. apply andb_true_iff in H as [H1 H2].
    destruct a as [|d a].
    + simpl in E. injection E as -> ->. rewrite Hq in H1.
      destruct b as [|e b]; [exact I |].
      rewrite Ascii.eqb_refl in H1. simpl in H1. now apply negb_true_iff in H1.
    + simpl in E. injection E as _ E. now apply (IH H2 a q b).
Qed.

Lemma allWord_plain (r : string) : allWord r = true -> plain r.
Proof.
  unfold plain. induction r as [|c r IH]; intros H; [reflexivity |].
  simpl in H. apply andb_true_iff in H as [Hc Hr].
  cbn [Js.includes Js.startsWith]. destruct (Ascii.eqb_spec "$" c) as [<- | _].
  - discriminate.
  - now apply IH.
Qed.

(** The passes over a well-delimited text leave none of their paths. *)
Lemma chain_leaves_no_path (ps : list (string * string)) (t out : string) :
  RewriteChain ps t out -> Forall WordPass ps -> StartsClean t -> EndsClean t ->
  StartsClean out /\ EndsClean out
  /\ Forall (fun pass => ~ occurs (fst pass) out) ps
  /\ (forall p', IsWordPath p' -> occurs p' out -> occurs p' t).
Proof.
  intros H. induction H as [t | p r ps t t' out Hp Hps IH]; intros Hall HS HE.
  - repeat split; auto.
  - apply Forall_cons_iff in Hall as [[Hw [Hr [Hne Hend]]] Hall]. simpl in *.
    destruct (pass_preserves p r Hw Hr Hne Hend t t' Hp HS HE) as [HS' [HE' [Hno Htr]]].
    destruct (IH Hall HS' HE') as [HSo [HEo [Hnone Htro]]].
    split; [exact HSo |]. split; [exact HEo |]. split.
    + constructor; [| exact Hnone]. simpl. intros Ho. apply Hno. now apply Htro.
    + intros p' Hp' Ho. apply Htr; [exact Hp' |]. now apply Htro.
Qed.

Lemma entryPasses_WordPass (schema group : string) (e : NameEntry) :
  allWord schema = true -> allWord group = true -> wordEntry e = true ->
  Forall WordPass (entryPasses schema group e).
Proof.
  intros Hs Hg He. unfold wordEntry in He.
  apply andb_true_iff in He as [He Hend]. apply andb_true_iff in He as [He Hne].
  apply andb_true_iff in He as [Hn Hf].
  apply negb_true_iff in Hend, Hne. apply String.eqb_neq in Hne.
  unfold entryPasses. constructor; [| constructor; [| constructor]].
  - split; [| now split]. now exists true, schema, group, (name e).
  - split; [| now split]. now exists false, schema, group, (name e).
Qed.

Lemma passes_WordPass (schema : string) (st : State) :
  allWord schema = true ->
  forallb wordEntry (enumNames st ++ compositeTypeNames st) = true ->
  Forall WordPass (passes schema st).
Proof.
  intros Hs He. rewrite forallb_app in He. apply andb_true_iff in He as [He Hc].
  rewrite forallb_forall in He, Hc. unfold passes. apply Forall_app. split.
  - apply Forall_flat_map. apply Forall_forall. intros e Hin.
    apply entryPasses_WordPass; auto.
  - apply Forall_flat_map. apply Forall_forall. intros e Hin.
    apply entryPasses_WordPass; auto.
Qed.

Lemma wordEntry_plain (e : NameEntry) : wordEntry e = true -> plain (formattedName e).
Proof.
  unfold wordEntry. intros H. apply andb_true_iff in H as [H _].
  apply andb_true_iff in H as [H _]. apply andb_true_iff in H as [_ H].
  now apply allWord_plain.
Qed.

(** C1 (as amended).  In every run that returns, the text returned is
    reached from the joined text of all retained declarations by one pass
    per recorded entry and spelling -- the enums in discovery order, then
    the composite types, for each the double-quoted path and then the
    single-quoted one -- and, the formatted names being free of dollar
    signs, each pass replaces with the entry's [formattedName] every
    occurrence (from the left, without overlap) of its path in the whole
    text it is given, in whichever declaration the occurrence lies.  No
    path of a recorded entry, in either spelling, occurs in the returned
    text when the text is well delimited: the schema, the names and the
    formatted names are words (letters, digits, underscores), the formatted
    names are not empty and do not end in [Database], and in the joined
    text every [Database[] comes first or after a code unit that is not a
    word character, a quote or a closing bracket, and every quote followed
    by a closing bracket is followed by the end of the text or by a code
    unit that is not a word character. *)
Theorem references_are_rewritten_everywhere
    (getNodeName : Node -> option string) (createSourceFile : string -> SourceFile)
    (raw : RawOptions) (out : string) :
  transformTypes getNodeName createSourceFile raw = Ok out ->
  exists opts st,
    transformTypesOptionsSchema raw = Ok opts
    /\ walkSourceFile getNodeName opts (createSourceFile (sourceText opts)) = Ok st
    /\ (Forall (fun e => plain (formattedName e)) (enumNames st ++ compositeTypeNames st) ->
        RewriteChain (passes (schema opts) st) (assemble (typeStrings st)) out)
    /\ (allWord (schema opts) = true ->
        forallb wordEntry (enumNames st ++ compositeTypeNames st) = true ->
        pathStartsClean None (assemble (typeStrings st)) = true ->
        keyEndsClean (assemble (typeStrings st)) = true ->
        Forall (fun pass => ~ occurs (fst pass) out) (passes (schema opts) st)).
Proof.
  intros H. apply transformTypes_Ok in H as [opts [st [Ho [Hw Hout]]]].
  exists opts, st. split; [exact Ho |]. split; [exact Hw |].
  assert (Hchain : Forall (fun e => plain (formattedName e))
                     (enumNames st ++ compositeTypeNames st) ->
                   RewriteChain (passes (schema opts) st) (assemble (typeStrings st)) out).
  { intros Hp. apply Forall_app in Hp as [He Hc]. rewrite Hout.
    unfold passes, rewriteReferences.
    eapply RewriteChain_app; now apply rewriteEntries_chain. }
  split; [exact Hchain |].
  intros Hs He HS HE.
  assert (Hplain : Forall (fun e => plain (formattedName e))
                     (enumNames st ++ compositeTypeNames st)).
  { apply Forall_forall. intros e Hin. apply wordEntry_plain.
    rewrite forallb_forall in He. now apply He. }
  apply (chain_leaves_no_path _ _ _ (Hchain Hplain)).
  - now apply passes_WordPass.
  - now apply pathStartsClean_StartsClean.
  - now apply keyEndsClean_EndsClean.
Qed.

Lemma references_are_rewritten_everywhere_witness :
  Forall (fun pass =>
            ~ occurs (fst pass)
                ("export type usersRow = { mood: mood }" ++ separator
                 ++ "export type usersUpdate = { mood: mood }" ++ separator
                 ++ "export type mood = 'happy' | 'sad'"))
    [ (qualifiedPath Js.dquote "public" "Enums" (Some "mood"), "mood");
      (qualifiedPath "'" "public" "Enums" (Some "mood"), "mood") ].
Proof.
  destruct (references_are_rewritten_everywhere declaredName (parserOf moodFile)
              updatesOptions
              ("export type usersRow = { mood: mood }" ++ separator
               ++ "export type usersUpdate = { mood: mood }" ++ separator
               ++ "export type mood = 'happy' | 'sad'") eq_refl)
    as [opts [st [Ho [Hw [_ H]]]]].
  injection Ho as <-. injection Hw as <-.
  exact (H eq_refl eq_refl eq_refl eq_refl).
Defined.

(** C1, counterexample.  With the default formatters, the row of [t] holds
    the path to the enum [a] wrapped in the two ends of that same path: the
    pass replaces the inner occurrence by [a], which completes the path
    again, and the path, present before the rewriting, is in the returned
    text. *)
Lemma path_survives_rewriting :
  Js.includes aPath (textOf nestedPathFile) = true
  /\ transformTypes declaredName (parserOf nestedPathFile) (optionsFor nestedPathFile)
     = Ok ("export type tRow = { c: '" ++ aPath ++ "' }" ++ separator
           ++ "export type a = 'x' | 'y'")
  /\ Js.includes aPath
       ("export type tRow = { c: '" ++ aPath ++ "' }" ++ separator
        ++ "export type a = 'x' | 'y'") = true.
Proof. repeat split; vm_compute; reflexivity. Qed.


(** ** The emissions of the walk, in the order of the source *)

Lemma performAll_app (opts : TransformTypesOptions) (l1 l2 : list Emission) (st : State) :
  performAll opts (l1 ++ l2) st = (st' <- performAll opts l1 st;; performAll opts l2 st').
Proof.
  revert st. induction l1 as [|e l1 IH]; intros st; simpl; [reflexivity |].
  destruct (perform opts e st); simpl; auto.
Qed.

Lemma forEach_emissions {A : Type} (opts : TransformTypesOptions) (f : A -> Node)
    (cb : Node -> Walk) (E : A -> list Emission) (l : list A) :
  (forall a st, cb (f a) st = performAll opts (E a) st) ->
  forall st, forEach cb (map f l) st = performAll opts (flat_map E l) st.
Proof.
  intros H. induction l as [|a l IH]; intros st; simpl; [reflexivity |].
  rewrite performAll_app, H. destruct (performAll opts (E a) st); simpl; auto.
Qed.

(** The children of a property that a callback for type literals looks
    into are the members of its type. *)
Lemma forEachChild_typeMembers (opts : TransformTypesOptions) (cb : Node -> Walk)
    (E : TypeElement -> list Emission) (m : TypeElement) :
  (forall e st, cb (OfTypeElement e) st = performAll opts (E e) st) ->
  forall st,
    forEachChild (OfTypeElement m)
      (fun n st' => if isTypeLiteralNode n then forEachChild n cb st' else Ok st') st
    = performAll opts (flat_map E (typeMembers m)) st.
Proof.
  intros H st. destruct m as [text mods nm q ty | o]; [| reflexivity].
  rewrite forEach_property_children by reflexivity.
  destruct ty as [[tx ms| | | | |]|]; try reflexivity.
  cbn [isTypeLiteralNode typeMembers]. unfold forEachChild. cbn [children].
  now apply forEach_emissions.
Qed.

Lemma perform_one (opts : TransformTypesOptions) (e : Emission) (st : State) :
  performAll opts [e] st = perform opts e st.
Proof. simpl. apply bind_Ok_r. Qed.

Section WalkEmissions.

Variable getNodeName : Node -> option string.
Variable opts : TransformTypesOptions.

Lemma tableOperation_emissions tableOrViewName op st :
  tableOperation getNodeName opts tableOrViewName (OfTypeElement op) st
  = performAll opts (operationEmissions getNodeName opts tableOrViewName op) st.
Proof.
  destruct op as [text mods nm q ty | o]; [| reflexivity].
  unfold tableOperation, operationEmissions. cbn [isPropertySignature]. cbv zeta.
  destruct (gatedOff opts _); [now destruct ty |].
  destruct (truthy _); cbn [orb negb]; [| now destruct ty].
  rewrite forEach_property_children by reflexivity.
  destruct ty as [[tx ms|tx| | | |]|]; try reflexivity;
    rewrite perform_one; unfold tableOperationType, perform;
    cbn [isTypeLiteralNode isTupleTypeNode orb formattedBy getText];
    destruct (tableOrViewFormatter opts _ _); simpl; try reflexivity;
    destruct st; unfold pushTypeString; simpl; now rewrite !app_nil_r.
Qed.

Lemma tableOrView_emissions table st :
  tableOrView getNodeName opts (OfTypeElement table) st
  = performAll opts (tableOrViewEmissions getNodeName opts table) st.
Proof.
  destruct table as [text mods nm q ty | o]; [| reflexivity].
  unfold tableOrView, tableOrViewEmissions. cbn [isPropertySignature]. cbv zeta.
  apply (forEachChild_typeMembers opts
           (tableOperation getNodeName opts
              (getNodeName (OfTypeElement (PropertySignature text mods nm q ty))))).
  intros e st'. apply tableOperation_emissions.
Qed.

Lemma enumEntry_emissions entry st :
  enumEntry getNodeName opts (OfTypeElement entry) st
  = performAll opts (enumEmissions getNodeName entry) st.
Proof.
  destruct entry as [text mods nm q ty | o]; [| reflexivity].
  unfold enumEntry, enumEmissions. cbn [isPropertySignature]. cbv zeta.
  rewrite forEach_property_children by reflexivity.
  destruct ty as [[tx ms|tx|tx|tx|tx|tx]|]; try reflexivity;
    rewrite perform_one; unfold enumType, perform;
    cbn [isUnionTypeNode isLiteralTypeNode formattedBy getText];
    destruct (enumFormatter opts _); simpl; try reflexivity;
    destruct st; unfold pushEnumName, pushTypeString; simpl; now rewrite !app_nil_r.
Qed.

Lemma compositeTypeEntry_emissions entry st :
  compositeTypeEntry getNodeName opts (OfTypeElement entry) st
  = performAll opts (compositeTypeEmissions getNodeName entry) st.
Proof.
  destruct entry as [text mods nm q ty | o]; [| reflexivity].
  unfold compositeTypeEntry, compositeTypeEmissions. cbn [isPropertySignature]. cbv zeta.
  rewrite forEach_property_children by reflexivity.
  destruct ty as [[tx ms|tx|tx|tx|tx|tx]|]; try reflexivity;
    rewrite perform_one; unfold compositeType, perform;
    cbn [isTypeLiteralNode formattedBy getText];
    destruct (compositeTypeFormatter opts _); simpl; try reflexivity;
    destruct st; unfold pushCompositeTypeName, pushTypeString; simpl; now rewrite !app_nil_r.
Qed.

Lemma functionArg_emissions functionName arg st :
  functionArg getNodeName opts functionName (OfTypeElement arg) st
  = performAll opts (functionArgEmissions getNodeName functionName arg) st.
Proof.
  destruct arg as [text mods nm q ty | o]; [| reflexivity].
  unfold functionArg, functionArgEmissions. cbn [isPropertySignature]. cbv zeta.
  rewrite forEach_property_children by reflexivity.
  destruct ty as [[tx ms|tx|tx|tx|tx|tx]|]; try reflexivity;
    rewrite perform_one; unfold functionArgType, perform;
    cbn [isTypeReferenceNode formattedBy getText];
    destruct (functionFormatter opts _ _); simpl; try reflexivity;
    destruct st; unfold pushTypeString; simpl; now rewrite !app_nil_r.
Qed.

Lemma functionEntry_emissions fn st :
  functionEntry getNodeName opts (OfTypeElement fn) st
  = performAll opts (functionEmissions getNodeName fn) st.
Proof.
  destruct fn as [text mods nm q ty | o]; [| reflexivity].
  unfold functionEntry, functionEmissions. cbn [isPropertySignature]. cbv zeta.
  apply (forEachChild_typeMembers opts
           (functionArg getNodeName opts
              (getNodeName (OfTypeElement (PropertySignature text mods nm q ty))))).
  intros e st'. apply functionArg_emissions.
Qed.

Lemma bind_emissions (r : Result State) (k : Walk) (l1 l2 : list Emission) (st : State) :
  r = performAll opts l1 st -> (forall st1, k st1 = performAll opts l2 st1) ->
  (st1 <- r;; k st1) = performAll opts (l1 ++ l2) st.
Proof.
  intros -> Hk. rewrite performAll_app.
  destruct (performAll opts l1 st); simpl; [apply Hk | reflexivity].
Qed.

Lemma schemaMember_emissions member st :
  schemaMember getNodeName opts (OfTypeElement member) st
  = performAll opts (groupEmissions getNodeName opts member) st.
Proof.
  destruct member as [text mods [nm|nm|nm|nm] q ty | o]; try reflexivity.
  unfold schemaMember, groupEmissions. cbn [identifierNameText].
  apply bind_emissions.
  { destruct (_ || _); [| reflexivity].
    apply (forEachChild_typeMembers opts (tableOrView getNodeName opts)).
    intros e st'. apply tableOrView_emissions. }
  intros st1. apply bind_emissions.
  { destruct (String.eqb _ _); [| reflexivity].
    apply (forEachChild_typeMembers opts (enumEntry getNodeName opts)).
    intros e st'. apply enumEntry_emissions. }
  intros st2. apply bind_emissions.
  { destruct (String.eqb _ _); [| reflexivity].
    apply (forEachChild_typeMembers opts (compositeTypeEntry getNodeName opts)).
    intros e st'. apply compositeTypeEntry_emissions. }
  intros st3. destruct (String.eqb _ _); [| reflexivity].
  apply (forEachChild_typeMembers opts (functionEntry getNodeName opts)).
  intros e st'. apply functionEntry_emissions.
Qed.

Lemma processDatabase_emissions entry st :
  processDatabase getNodeName opts (OfTypeElement entry) st
  = performAll opts (schemaEmissions getNodeName opts entry) st.
Proof.
  unfold processDatabase, schemaEmissions.
  destruct entry as [text mods nm q ty | o];
    [| cbn [isPropertySignature typeMembers]; now destruct (nameIs _ _)].
  cbn [isPropertySignature]. cbv zeta.
  destruct (nameIs _ _); [| reflexivity].
  apply (forEachChild_typeMembers opts (schemaMember getNodeName opts)).
  intros e st'. apply schemaMember_emissions.
Qed.

Lemma topLevel_emissions s st :
  topLevel getNodeName opts (OfStatement s) st
  = performAll opts (statementEmissions getNodeName opts s) st.
Proof.
  unfold topLevel, statementEmissions. rewrite performAll_app.
  assert (Hd : database getNodeName opts (OfStatement s) st
               = performAll opts
                   (flat_map (schemaEmissions getNodeName opts) (databaseMembers s)) st).
  { unfold database, databaseMembers.
    destruct s as [text mods nm tps ty | text mods nm tps hcs ms | o]; try reflexivity.
    - destruct ty; try reflexivity.
      destruct (String.eqb nm "Database"); [| reflexivity].
      apply forEach_emissions. intros e st'. apply processDatabase_emissions.
    - destruct (String.eqb nm "Database"); [| reflexivity].
      rewrite forEachChild_interface.
      apply forEach_emissions. intros e st'. apply processDatabase_emissions. }
  rewrite Hd. destruct (performAll opts _ st) as [st1|e]; [| reflexivity]. cbn [bind].
  unfold json, jsonText.
  destruct s as [text mods nm tps ty | text mods nm tps hcs ms | o]; try reflexivity.
  destruct (String.eqb nm "Json"); [| reflexivity].
  cbn [map getText]. rewrite perform_one. unfold perform. cbn [formattedBy bind].
  destruct st1. unfold pushTypeString. simpl. now rewrite !app_nil_r.
Qed.

(** The walk performs the emissions of the file, in their order. *)
Lemma walk_emissions sf :
  walkSourceFile getNodeName opts sf
  = performAll opts (emissions getNodeName opts sf) initialState.
Proof.
  unfold walkSourceFile, sourceFileChildren, emissions. rewrite forEach_app.
  rewrite (forEach_emissions opts OfStatement _ (statementEmissions getNodeName opts))
    by (intros s st; apply topLevel_emissions).
  destruct (performAll opts _ initialState); reflexivity.
Qed.

End WalkEmissions.

Lemma performAll_Ok (opts : TransformTypesOptions) (l : list Emission) (st st' : State) :
  performAll opts l st = Ok st' ->
  exists fs,
    Forall2 (fun e f => formattedBy opts e = Ok f) l fs
    /\ typeStrings st' = (typeStrings st ++ map declarationOf (combine l fs))%list
    /\ enumNames st' = (enumNames st ++ flat_map enumEntryOf (combine l fs))%list
    /\ compositeTypeNames st'
       = (compositeTypeNames st ++ flat_map compositeTypeEntryOf (combine l fs))%list.
Proof.
  revert st. induction l as [|e l IH]; intros st H; simpl in H.
  - injection H as <-. exists []. simpl. rewrite !app_nil_r. repeat split. constructor.
  - unfold perform in H. destruct (formattedBy opts e) as [f|err] eqn:Ef; simpl in H;
      [| discriminate].
    destruct (IH _ H) as [fs [HF [Ht [He Hc]]]]. exists (f :: fs).
    split; [now constructor |]. simpl in *.
    rewrite Ht, He, Hc. now rewrite <- !app_assoc.
Qed.

Lemma Subsequence_retained (l : list string) : Subsequence (retained l) l.
Proof.
  unfold retained. induction l as [|x l IH]; simpl; [constructor |].
  destruct (negb _); now constructor.
Qed.

(** C9 (as amended).  The walk performs the emissions of the source file
    one after the other in the order of the source -- the top-level
    statements in source order, under a [Database] declaration the entries
    named like the schema, in the body of such an entry the groups in the
    order in which they are written (whatever their categories), in a group
    the entries in source order, in a table the operations and in a
    function the groupings in source order -- and stops at the first
    formatter call that throws.  In a run that returns, the collected
    declarations are the declarations of these emissions, one for each and
    in that order, and the filter keeps that order. *)
Theorem declarations_follow_source_order
    (getNodeName : Node -> option string) (opts : TransformTypesOptions) (sf : SourceFile) :
  walkSourceFile getNodeName opts sf
  = performAll opts (emissions getNodeName opts sf) initialState
  /\ forall st,
       walkSourceFile getNodeName opts sf = Ok st ->
       exists fs,
         Forall2 (fun e f => formattedBy opts e = Ok f) (emissions getNodeName opts sf) fs
         /\ typeStrings st = map declarationOf (combine (emissions getNodeName opts sf) fs)
         /\ Subsequence (retained (typeStrings st)) (typeStrings st).
Proof.
  split; [apply walk_emissions |]. intros st H. rewrite walk_emissions in H.
  destruct (performAll_Ok _ _ _ _ H) as [fs [HF [Ht _]]]. exists fs.
  split; [exact HF |]. split; [exact Ht | apply Subsequence_retained].
Qed.

(** C9, counterexample.  [Enums] is written before [Tables] in the schema:
    the enum declaration comes before the table declaration. *)
Lemma enum_before_table_when_written_first :
  transformTypes declaredName (parserOf enumsFirstFile) (optionsFor enumsFirstFile)
  = Ok ("export type mood = 'happy' | 'sad'" ++ separator
        ++ "export type usersRow = { mood: mood }").
Proof. reflexivity. Qed.

(** The passes of a later entry with the name of an earlier one find
    nothing to replace. *)
Lemma rewriteEntry_inert (schema group : string) (l : list NameEntry) (e1 e2 : NameEntry)
    (t : string) :
  In e1 l -> sameName e1 e2 ->
  allWord schema = true -> allWord group = true ->
  forallb wordEntry l = true -> plain (formattedName e2) ->
  StartsClean t -> EndsClean t ->
  rewriteEntry schema group (fold_left (rewriteEntry schema group) l t) e2
  = fold_left (rewriteEntry schema group) l t.
Proof.
  intros Hin Hsame Hs Hg Hl Hp HS HE.
  assert (Hplain : Forall (fun e => plain (formattedName e)) l).
  { apply Forall_forall. intros e He. apply wordEntry_plain.
    rewrite forallb_forall in Hl. now apply Hl. }
  pose proof (rewriteEntries_chain schema group l t Hplain) as Hchain.
  destruct (chain_leaves_no_path _ _ _ Hchain) as [_ [_ [Hno _]]]; auto.
  { apply Forall_flat_map. apply Forall_forall. intros e He.
    apply entryPasses_WordPass; auto. rewrite forallb_forall in Hl. now apply Hl. }
  rewrite Forall_flat_map, Forall_forall in Hno. specialize (Hno e1 Hin).
  unfold entryPasses in Hno.
  apply Forall_cons_iff in Hno as [H1 Hno]. apply Forall_cons_iff in Hno as [H2 _].
  simpl in H1, H2.
  assert (Hq : forall q, qualifiedPath q schema group (name e2)
                         = qualifiedPath q schema group (name e1)).
  { intros q. unfold qualifiedPath. unfold sameName in Hsame. now rewrite Hsame. }
  remember (fold_left (rewriteEntry schema group) l t) as m eqn:Em.
  unfold rewriteEntry. rewrite !Hq.
  rewrite (replaceAll_absent _ _ _ (qualifiedPath_not_empty _ schema group (name e1)) Hp H1).
  now rewrite (replaceAll_absent _ _ _ (qualifiedPath_not_empty _ schema group (name e1)) Hp H2).
Qed.

Lemma fold_rewriteEntry_clean (schema group : string) (l : list NameEntry) (t : string) :
  allWord schema = true -> allWord group = true -> forallb wordEntry l = true ->
  StartsClean t -> EndsClean t ->
  StartsClean (fold_left (rewriteEntry schema group) l t)
  /\ EndsClean (fold_left (rewriteEntry schema group) l t).
Proof.
  intros Hs Hg Hl HS HE.
  assert (Hplain : Forall (fun e => plain (formattedName e)) l).
  { apply Forall_forall. intros e He. apply wordEntry_plain.
    rewrite forallb_forall in Hl. now apply Hl. }
  pose proof (rewriteEntries_chain schema group l t Hplain) as Hchain.
  destruct (chain_leaves_no_path _ _ _ Hchain) as [H1 [H2 _]]; auto.
  apply Forall_flat_map. apply Forall_forall. intros e He.
  apply entryPasses_WordPass; auto. rewrite forallb_forall in Hl. now apply Hl.
Qed.

Lemma fold_without_later (schema group : string) (before between after : list NameEntry)
    (e1 e2 : NameEntry) (t : string) :
  sameName e1 e2 -> allWord schema = true -> allWord group = true ->
  forallb wordEntry (before ++ e1 :: between ++ e2 :: after) = true ->
  StartsClean t -> EndsClean t ->
  fold_left (rewriteEntry schema group) (before ++ e1 :: between ++ e2 :: after) t
  = fold_left (rewriteEntry schema group) (before ++ e1 :: between ++ after) t.
Proof.
  intros Hsame Hs Hg Hl HS HE.
  replace (before ++ e1 :: between ++ e2 :: after)%list
    with ((before ++ e1 :: between) ++ e2 :: after)%list in *
    by (rewrite <- app_assoc; reflexivity).
  replace (before ++ e1 :: between ++ after)%list
    with ((before ++ e1 :: between) ++ after)%list
    by (rewrite <- app_assoc; reflexivity).
  rewrite forallb_app in Hl. apply andb_true_iff in Hl as [Hl1 Hl2].
  simpl in Hl2. apply andb_true_iff in Hl2 as [He2 _].
  assert (Hin : In e1 (before ++ e1 :: between)) by (apply in_or_app; right; now left).
  remember (before ++ e1 :: between)%list as l eqn:El.
  rewrite !fold_left_app. cbn [fold_left]. f_equal.
  apply (rewriteEntry_inert schema group l e1 e2); auto.
  now apply wordEntry_plain.
Qed.

(** C6 (as amended).  The two arrays of names are not keyed.  In a run
    that returns, [enumNames] holds exactly one entry for every enum
    declaration that is emitted and [compositeTypeNames] one for every
    composite-type declaration, in the order of the emissions (entries that
    share a name are all kept, none is overwritten or removed); the entry
    carries the name the resolver gave and the formatted name that its
    declaration declares.  In the rewriting of a well-delimited text the
    passes of a later entry that has the name of an earlier entry of the
    same array change nothing: the result is the same without the later
    entry, so the references to the name are rewritten to the formatted
    name of the earliest such entry. *)
Theorem name_entries_are_kept_in_discovery_order
    (getNodeName : Node -> option string) (opts : TransformTypesOptions)
    (sf : SourceFile) (st : State) :
  walkSourceFile getNodeName opts sf = Ok st ->
  (exists fs,
     List.length fs = List.length (emissions getNodeName opts sf)
     /\ typeStrings st = map declarationOf (combine (emissions getNodeName opts sf) fs)
     /\ enumNames st = flat_map enumEntryOf (combine (emissions getNodeName opts sf) fs)
     /\ compositeTypeNames st
        = flat_map compositeTypeEntryOf (combine (emissions getNodeName opts sf) fs))
  /\ (forall (schema : string) (st1 st2 : State) (before between after : list NameEntry)
             (e1 e2 : NameEntry) (t : string),
        enumNames st1 = (before ++ e1 :: between ++ e2 :: after)%list ->
        enumNames st2 = (before ++ e1 :: between ++ after)%list ->
        compositeTypeNames st2 = compositeTypeNames st1 ->
        sameName e1 e2 ->
        allWord schema = true ->
        forallb wordEntry (enumNames st1 ++ compositeTypeNames st1) = true ->
        pathStartsClean None t = true -> keyEndsClean t = true ->
        rewriteReferences schema st1 t = rewriteReferences schema st2 t)
  /\ (forall (schema : string) (st1 st2 : State) (before between after : list NameEntry)
             (e1 e2 : NameEntry) (t : string),
        compositeTypeNames st1 = (before ++ e1 :: between ++ e2 :: after)%list ->
        compositeTypeNames st2 = (before ++ e1 :: between ++ after)%list ->
        enumNames st2 = enumNames st1 ->
        sameName e1 e2 ->
        allWord schema = true ->
        forallb wordEntry (enumNames st1 ++ compositeTypeNames st1) = true ->
        pathStartsClean None t = true -> keyEndsClean t = true ->
        rewriteReferences schema st1 t = rewriteReferences schema st2 t).
Proof.
  intros H. split; [| split].
  - rewrite walk_emissions in H.
    destruct (performAll_Ok _ _ _ _ H) as [fs [HF [Ht [He Hc]]]]. exists fs.
    split; [symmetry; exact (Forall2_length HF) | now repeat split].
  - intros schema st1 st2 before between after e1 e2 t E1 E2 Ec Hsame Hs Hw HS HE.
    unfold rewriteReferences. rewrite Ec, E1, E2. f_equal.
    rewrite E1, forallb_app in Hw. apply andb_true_iff in Hw as [Hw _].
    apply fold_without_later; auto.
    + now apply pathStartsClean_StartsClean.
    + now apply keyEndsClean_EndsClean.
  - intros schema st1 st2 before between after e1 e2 t E1 E2 Ee Hsame Hs Hw HS HE.
    unfold rewriteReferences. rewrite Ee, E1, E2.
    rewrite E1, forallb_app in Hw. apply andb_true_iff in Hw as [Hwe Hwc].
    destruct (fold_rewriteEntry_clean schema "Enums" (enumNames st1) t) as [HS' HE']; auto.
    + now apply pathStartsClean_StartsClean.
    + now apply keyEndsClean_EndsClean.
    + now apply fold_without_later.
Qed.

Lemma name_entries_are_kept_in_discovery_order_witness :
  (exists fs,
     List.length fs
     = List.length [EnumDeclaration (Some "mood") "'happy' | 'sad'";
                    EnumDeclaration (Some "mood") "'calm'"]
     /\ ["export type mood = 'happy' | 'sad'"; "export type mood = 'calm'"]
        = map declarationOf
            (combine [EnumDeclaration (Some "mood") "'happy' | 'sad'";
                      EnumDeclaration (Some "mood") "'calm'"] fs)
     /\ [ {| name := Some "mood"; formattedName := "mood" |};
          {| name := Some "mood"; formattedName := "mood" |} ]
        = flat_map enumEntryOf
            (combine [EnumDeclaration (Some "mood") "'happy' | 'sad'";
                      EnumDeclaration (Some "mood") "'calm'"] fs)
     /\ [] = flat_map compositeTypeEntryOf
               (combine [EnumDeclaration (Some "mood") "'happy' | 'sad'";
                         EnumDeclaration (Some "mood") "'calm'"] fs))
  /\ rewriteReferences "public"
       {| typeStrings := [];
          enumNames := [ {| name := Some "mood"; formattedName := "mood1" |};
                         {| name := Some "mood"; formattedName := "mood2" |} ];
          compositeTypeNames := [] |}
       ("export type usersRow = { mood: " ++ moodPath ++ " }")
     = rewriteReferences "public"
         {| typeStrings := [];
            enumNames := [ {| name := Some "mood"; formattedName := "mood1" |} ];
            compositeTypeNames := [] |}
         ("export type usersRow = { mood: " ++ moodPath ++ " }").
Proof.
  pose proof (name_entries_are_kept_in_discovery_order declaredName
                (defaultsFor (textOf duplicateEnumFile)) duplicateEnumFile
                {| typeStrings := ["export type mood = 'happy' | 'sad'";
                                   "export type mood = 'calm'"];
                   enumNames := [ {| name := Some "mood"; formattedName := "mood" |};
                                  {| name := Some "mood"; formattedName := "mood" |} ];
                   compositeTypeNames := [] |} eq_refl) as [H1 [H2 _]].
  split; [exact H1 |].
  apply (H2 "public" _ _ [] [] []
            {| name := Some "mood"; formattedName := "mood1" |}
            {| name := Some "mood"; formattedName := "mood2" |}); reflexivity.
Defined.

(** C6, counterexample.  The name [mood] is declared twice under [Enums]:
    [enumNames] holds two entries for it, the earlier one still there. *)
Lemma duplicate_names_are_both_recorded :
  walkSourceFile declaredName (defaultsFor (textOf duplicateEnumFile)) duplicateEnumFile
  = Ok {| typeStrings := ["export type mood = 'happy' | 'sad'"; "export type mood = 'calm'"];
          enumNames := [ {| name := Some "mood"; formattedName := "mood" |};
                         {| name := Some "mood"; formattedName := "mood" |} ];
          compositeTypeNames := [] |}.
Proof. reflexivity. Qed.

(** With two entries for [mood] whose formatted names differ, the first
    one is the one the references are rewritten to. *)
Example the_earlier_entry_wins :
  rewriteReferences "public"
    {| typeStrings := [];
       enumNames := [ {| name := Some "mood"; formattedName := "mood1" |};
                      {| name := Some "mood"; formattedName := "mood2" |} ];
       compositeTypeNames := [] |}
    ("export type usersRow = { mood: " ++ moodPath ++ " }")
  = "export type usersRow = { mood: mood1 }".
Proof. reflexivity. Qed.

(** ** Paths that the passes leave alone *)

Lemma word_cancel (a b x y : string) (c d : ascii) :
  allWord a = true -> allWord b = true -> isWordChar c = false -> isWordChar d = false ->
  a ++ String c x = b ++ String d y -> a = b.
Proof.
  revert b. induction a as [|e a IH]; intros b Ha Hb Hc Hd H.
  - destruct b as [|f b]; [reflexivity |]. simpl in H. injection H as -> _.
    simpl in Hb. apply andb_true_iff in Hb as [Hb _]. congruence.
  - destruct b as [|f b]; simpl in H.
    + injection H as -> _. simpl in Ha. apply andb_true_iff in Ha as [Ha _]. congruence.
    + injection H as -> H. simpl in Ha, Hb.
      apply andb_true_iff in Ha as [_ Ha]. apply andb_true_iff in Hb as [_ Hb].
      f_equal. now apply IH.
Qed.

(** Two paths of the same schema that differ in the spelling, in the group
    or in the name: neither begins the other. *)
Lemma paths_incomparable (d1 d2 : bool) (schema g1 g2 : string) (n1 n2 : option string) :
  allWord (toString (nameValue n1)) = true -> allWord (toString (nameValue n2)) = true ->
  g1 = "Enums" \/ g1 = "CompositeTypes" -> g2 = "Enums" \/ g2 = "CompositeTypes" ->
  (g1 = g2 -> toString (nameValue n1) <> toString (nameValue n2)) ->
  forall l l',
    qualifiedPath (if d1 then Js.dquote else "'") schema g1 n1 ++ l
    <> qualifiedPath (if d2 then Js.dquote else "'") schema g2 n2 ++ l'.
Proof.
  intros H1 H2 Hg1 Hg2 Hn l l' H. unfold qualifiedPath in H. rewrite !append_assoc in H.
  destruct d1, d2; cbn in H; try discriminate H.
  - repeat (injection H as H). apply append_cancel_l in H. cbn in H.
    repeat (injection H as H).
    destruct Hg1 as [-> | ->], Hg2 as [-> | ->]; cbn in H; try discriminate H;
      repeat (injection H as H);
      apply word_cancel in H; auto; now apply Hn.
  - repeat (injection H as H). apply append_cancel_l in H. cbn in H.
    repeat (injection H as H).
    destruct Hg1 as [-> | ->], Hg2 as [-> | ->]; cbn in H; try discriminate H;
      repeat (injection H as H);
      apply word_cancel in H; auto; now apply Hn.
Qed.

Lemma wordPath_head (p : string) :
  IsWordPath p -> exists y, p = "Database[" ++ y /\ tameFrom "D" ("atabase[" ++ y) = true.
Proof. intros H. destruct (wordPath_shape p H) as [y [q [p0 [Hy [Ht _]]]]]. now exists y. Qed.

(** In a text where every path starts clean, a word character or a quote
    does not come before [Database[]. *)
Lemma not_clean_before (t a b : string) (d : ascii) :
  StartsClean t -> t = a ++ "Database[" ++ b -> lastChar a = Some d ->
  isWordChar d || isQuote d = true -> False.
Proof.
  intros HS E Hd Hw. specialize (HS a b E). rewrite Hd in HS. unfold cleanBefore in HS.
  rewrite Hw in HS. discriminate.
Qed.

(** Where a path [p] can occur in a well-delimited text around a path [q]
    that it neither begins nor is begun by: before [q] or after it. *)
Lemma paths_apart (p q : string) :
  IsWordPath p -> IsWordPath q -> (forall l l', p ++ l <> q ++ l') ->
  forall u v a b,
    StartsClean (u ++ q ++ v) -> a ++ p ++ b = u ++ q ++ v ->
    (exists b1, u = a ++ p ++ b1 /\ b = b1 ++ q ++ v)
    \/ (exists a2, a = u ++ q ++ a2 /\ v = a2 ++ p ++ b).
Proof.
  intros Hp Hq Hpq u v a b HS E.
  destruct (wordPath_head p Hp) as [yp [Ep Tp]].
  destruct (wordPath_head q Hq) as [yq [Eq Tq]].
  destruct (occurrence_in_append _ _ _ _ _ E)
    as [[b1 [E1 E2]] | [[a1 [E1 E2]] | [x1 [x2 [N1 [N2 [Ex [Eu Ev]]]]]]]].
  - left. now exists b1.
  - destruct (append_eq_append _ _ _ _ E2) as [l [[F1 F2] | [F1 F2]]].
    + (* q = a1 ++ l, p ++ b = l ++ v *)
      destruct l as [|c l].
      * right. exists EmptyString. rewrite append_empty_r in F1. subst a1.
        rewrite append_empty_r. split; [exact E1 |]. simpl in F2. now rewrite F2.
      * exfalso. destruct a1 as [|e a1].
        -- simpl in F1. apply (Hpq b v). rewrite F2, F1. reflexivity.
        -- assert (Hc : c = "D"%char).
           { rewrite Ep in F2. simpl in F2. now injection F2 as <- _. }
           subst c.
           destruct (pathLike_before_word q yq Eq Tq (String e a1) l "D" F1) as [d [Hd Hw]];
             [discriminate | reflexivity |].
           apply (not_clean_before (u ++ q ++ v) (u ++ String e a1) (yp ++ b) d HS).
           ++ rewrite <- E, E1. rewrite Ep. now rewrite !append_assoc.
           ++ rewrite lastChar_app by discriminate. exact Hd.
           ++ exact Hw.
    + right. exists l. split; [| exact F2]. rewrite E1, F1. reflexivity.
  - exfalso. destruct x2 as [|c x2]; [congruence |].
    assert (Hc : c = "D"%char).
    { rewrite Eq in Ev. simpl in Ev. now injection Ev as -> _. }
    subst c.
    destruct (pathLike_before_word p yp Ep Tp x1 x2 "D" Ex) as [d [Hd Hw]];
      [exact N1 | reflexivity |].
    apply (not_clean_before (u ++ q ++ v) u (yq ++ v) d HS).
    ++ rewrite Eq. now rewrite !append_assoc.
    ++ rewrite Eu. rewrite lastChar_app by exact N1. exact Hd.
    ++ exact Hw.
Qed.

Section Keeps.

Variables p r q : string.
Hypothesis p_not_empty : p <> EmptyString.
Hypothesis q_not_empty : q <> EmptyString.
Hypothesis r_plain : plain r.
Hypothesis apart :
  forall u v a b,
    StartsClean (u ++ q ++ v) -> a ++ p ++ b = u ++ q ++ v ->
    (exists b1, u = a ++ p ++ b1 /\ b = b1 ++ q ++ v)
    \/ (exists a2, a = u ++ q ++ a2 /\ v = a2 ++ p ++ b).

Lemma replaceAll_keeps_here (v : string) :
  StartsClean (q ++ v) ->
  forall q2 q1, q = q1 ++ q2 -> Js.replaceAll (q2 ++ v) p r = q2 ++ Js.replaceAll v p r.
Proof.
  intros HS. induction q2 as [|c q2 IH]; intros q1 Eq; [reflexivity |].
  simpl. rewrite replaceAll_miss.
  - f_equal. apply (IH (q1 ++ String c EmptyString)). rewrite Eq.
    now rewrite append_assoc.
  - exact r_plain.
  - destruct (Js.startsWith p (String c (q2 ++ v))) eqn:E; [| reflexivity].
    exfalso. apply startsWith_spec in E as [t E].
    destruct (apart EmptyString v q1 t) as [[b1 [F _]] | [a2 [F _]]].
    + exact HS.
    + simpl. rewrite Eq, append_assoc. simpl. now rewrite E.
    + destruct q1; [| discriminate]. destruct p; [congruence | discriminate].
    + simpl in F. apply (f_equal String.length) in F.
      rewrite Eq, !length_append in F. simpl in F. lia.
Qed.

Lemma replaceAll_keeps (v : string) :
  forall n u, String.length u <= n -> StartsClean (u ++ q ++ v) ->
    Js.replaceAll (u ++ q ++ v) p r = Js.replaceAll u p r ++ q ++ Js.replaceAll v p r.
Proof.
  assert (Hhere : forall u, u = EmptyString -> StartsClean (u ++ q ++ v) ->
            Js.replaceAll (u ++ q ++ v) p r = Js.replaceAll u p r ++ q ++ Js.replaceAll v p r).
  { intros u -> HS. simpl. rewrite replaceAll_empty by assumption. simpl.
    now apply (replaceAll_keeps_here v HS q EmptyString). }
  induction n as [|n IH]; intros u Hlen HS.
  - destruct u; [now apply Hhere | simpl in Hlen; lia].
  - destruct (Js.startsWith p (u ++ q ++ v)) eqn:E.
    + apply startsWith_spec in E as [t E].
      destruct (apart u v EmptyString t HS) as [[b1 [F1 F2]] | [a2 [F _]]].
      * simpl. now rewrite E.
      * simpl in F1. subst u t. rewrite append_assoc, !replaceAll_hit by assumption.
        rewrite append_assoc. f_equal. apply IH.
        -- rewrite length_append in Hlen. destruct p; [congruence | simpl in Hlen; lia].
        -- rewrite append_assoc in HS. now apply StartsClean_suffix in HS.
      * exfalso. destruct u; [| discriminate]. simpl in F.
        destruct q; [congruence | discriminate].
    + destruct u as [|d u]; [now apply Hhere |].
      simpl in E |- *. rewrite replaceAll_miss by assumption.
      rewrite (replaceAll_miss p r d u); [| exact r_plain |].
      * simpl. f_equal. apply IH; [simpl in Hlen; lia |].
        change (String d u ++ q ++ v) with (String d EmptyString ++ (u ++ q ++ v)) in HS.
        now apply StartsClean_suffix in HS.
      * destruct (Js.startsWith p (String d u)) eqn:E'; [| reflexivity].
        apply startsWith_spec in E' as [t E'].
        assert (Js.startsWith p (String d (u ++ q ++ v)) = true); [| congruence].
        apply startsWith_spec. exists (t ++ q ++ v).
        change (String d (u ++ q ++ v)) with (String d u ++ q ++ v).
        rewrite E'. now rewrite append_assoc.
Qed.

End Keeps.

(** The passes leave a path alone that none of them begins or is begun by:
    the text before it and the text after it are rewritten on their own. *)
Lemma applyPasses_keeps (q : string) (ps : list (string * string)) :
  IsWordPath q ->
  Forall WordPass ps ->
  Forall (fun pass => forall l l', fst pass ++ l <> q ++ l') ps ->
  forall u v,
    StartsClean (u ++ q ++ v) -> EndsClean (u ++ q ++ v) ->
    applyPasses ps (u ++ q ++ v) = applyPasses ps u ++ q ++ applyPasses ps v.
Proof.
  intros Hq HW HI. induction HW as [|[p r] ps [Hp [Hr [Hne Hend]]] HW IH];
    intros u v HS HE; [reflexivity |].
  apply Forall_cons_iff in HI as [Hpq HI]. simpl in Hp, Hr, Hne, Hend, Hpq.
  assert (Hpn : p <> EmptyString).
  { destruct Hp as [d [s [g [nm [-> _]]]]]. apply qualifiedPath_not_empty. }
  assert (Hqn : q <> EmptyString).
  { destruct Hq as [d [s [g [nm [-> _]]]]]. apply qualifiedPath_not_empty. }
  assert (Hplain : plain r) by now apply allWord_plain.
  unfold applyPasses in *. simpl.
  pose proof (replaceAll_spec (u ++ q ++ v) p r Hpn Hplain) as Hrep.
  destruct (pass_preserves p r Hp Hr Hne Hend _ _ Hrep HS HE) as [HS' [HE' _]].
  rewrite (replaceAll_keeps p r q Hpn Hqn Hplain (paths_apart p q Hp Hq Hpq) v
             (String.length u) u (le_n _) HS) in *.
  now apply IH.
Qed.

(** ** Entries of [Enums] that are passed over *)

Lemma passes_incomparable (schema : string) (st : State) (double : bool)
    (nm : option string) :
  forallb wordEntry (enumNames st ++ compositeTypeNames st) = true ->
  allWord (toString (nameValue nm)) = true ->
  Forall (fun e => toString (nameValue (name e)) <> toString (nameValue nm)) (enumNames st) ->
  Forall (fun pass => forall l l',
            fst pass ++ l
            <> qualifiedPath (if double then Js.dquote else "'") schema "Enums" nm ++ l')
    (passes schema st).
Proof.
  intros Hw Hn Hdiff. rewrite forallb_app in Hw. apply andb_true_iff in Hw as [Hwe Hwc].
  rewrite forallb_forall in Hwe, Hwc. rewrite Forall_forall in Hdiff.
  assert (Hword : forall e, wordEntry e = true -> allWord (toString (nameValue (name e))) = true).
  { intros e He. unfold wordEntry in He. apply andb_true_iff in He as [He _].
    apply andb_true_iff in He as [He _]. now apply andb_true_iff in He as [He _]. }
  unfold passes. apply Forall_app. split; apply Forall_flat_map; apply Forall_forall;
    intros e He; unfold entryPasses; (constructor; [| constructor; [| constructor]]);
    cbn [fst].
  - apply (paths_incomparable true double); auto.
  - apply (paths_incomparable false double); auto.
  - apply (paths_incomparable true double); auto. discriminate.
  - apply (paths_incomparable false double); auto. discriminate.
Qed.

(** C10 (as amended).  An entry of [Enums] whose type is neither a union
    nor a literal type (a reference to a named type, say, or no type at
    all) is passed over: the callback returns the arrays as they were,
    adding no declaration and no entry of [enumNames] and throwing nothing,
    and walking the entries with it or without it gives the same arrays.
    When no recorded entry of [enumNames] has its name, the rewriting of a
    well-delimited text leaves every reference to it, in either spelling, as
    it is written: the text before the reference and the text after it are
    rewritten on their own. *)
Theorem enum_entry_without_union_or_literal_is_omitted
    (getNodeName : Node -> option string) (opts : TransformTypesOptions)
    (text : string) (modifiers : list OtherNode) (nm : PropertyName)
    (questionToken : option OtherNode) (type : option TypeNode) :
  isUnionOrLiteral type = false ->
  let entry := OfTypeElement (PropertySignature text modifiers nm questionToken type) in
  (forall st, enumEntry getNodeName opts entry st = Ok st)
  /\ (forall l1 l2 st,
        forEach (enumEntry getNodeName opts) (l1 ++ entry :: l2) st
        = forEach (enumEntry getNodeName opts) (l1 ++ l2) st)
  /\ (forall (st : State) (double : bool) (u v : string),
        let path :=
          qualifiedPath (if double then Js.dquote else "'") (schema opts) "Enums"
            (getNodeName entry) in
        Forall (fun e => toString (nameValue (name e))
                         <> toString (nameValue (getNodeName entry))) (enumNames st) ->
        allWord (schema opts) = true ->
        allWord (toString (nameValue (getNodeName entry))) = true ->
        forallb wordEntry (enumNames st ++ compositeTypeNames st) = true ->
        pathStartsClean None (u ++ path ++ v) = true ->
        keyEndsClean (u ++ path ++ v) = true ->
        rewriteReferences (schema opts) st (u ++ path ++ v)
        = rewriteReferences (schema opts) st u ++ path ++ rewriteReferences (schema opts) st v).
Proof.
  intros H entry.
  assert (Hskip : forall st, enumEntry getNodeName opts entry st = Ok st).
  { intros st. unfold enumEntry, entry. cbn [isPropertySignature].
    rewrite forEach_property_children by reflexivity.
    destruct type as [[]|]; simpl; try reflexivity; discriminate. }
  split; [exact Hskip |]. split.
  - intros l1 l2 st. rewrite !forEach_app.
    destruct (forEach (enumEntry getNodeName opts) l1 st) as [st1|e]; simpl; [| reflexivity].
    now rewrite Hskip.
  - intros st double u v path Hdiff Hs Hn Hw HS HE.
    rewrite !rewriteReferences_fold.
    apply (applyPasses_keeps path (passes (schema opts) st)).
    + now exists double, (schema opts), "Enums", (getNodeName entry).
    + now apply passes_WordPass.
    + now apply passes_incomparable.
    + now apply pathStartsClean_StartsClean.
    + now apply keyEndsClean_EndsClean.
Qed.

Lemma enum_entry_without_union_or_literal_is_omitted_witness :
  isUnionOrLiteral (Some (TypeReferenceNode "Mood")) = false
  /\ enumEntry declaredName (defaultsFor EmptyString) (OfTypeElement referenceEntry)
       initialState = Ok initialState
  /\ rewriteReferences "public"
       {| typeStrings := [];
          enumNames := [ {| name := Some "status"; formattedName := "Status" |} ];
          compositeTypeNames := [] |}
       (("export type usersRow = { status: "
         ++ qualifiedPath Js.dquote "public" "Enums" (Some "status") ++ "; mood: ")
        ++ moodPath ++ " }")
     = "export type usersRow = { status: Status; mood: " ++ moodPath ++ " }".
Proof.
  split; [reflexivity |].
  pose proof (enum_entry_without_union_or_literal_is_omitted declaredName
                (defaultsFor EmptyString) "mood: Mood" [] (Identifier "mood") None
                (Some (TypeReferenceNode "Mood")) eq_refl) as [H1 [_ H3]].
  split; [apply H1 |].
  etransitivity; [apply (H3 _ true) | reflexivity]; try reflexivity.
  repeat constructor. discriminate.
Defined.

(** C10, counterexample.  [Enums] declares [mood] twice, first as a
    reference to another type and then as a union: the first entry is
    passed over, and the reference to [mood] in the row of [users] is
    rewritten on account of the second. *)
Lemma reference_to_omitted_entry_is_rewritten :
  isUnionOrLiteral (Some (TypeReferenceNode "Mood")) = false
  /\ transformTypes declaredName (parserOf referenceAndUnionFile)
       (optionsFor referenceAndUnionFile)
     = Ok ("export type usersRow = { mood: mood }" ++ separator
           ++ "export type mood = 'happy' | 'sad'").
Proof. split; reflexivity. Qed.

(** * Further properties *)

(** ** The options schema (lines 5-38) *)

Lemma string_accepts (path d : string) (v : Value) :
  isUndefined v || isString v = true ->
  Zod.default (Zod.string path) (Primitive (JsString d)) v = Ok (stringOr d v).
Proof. destruct v as [[]|]; simpl; try discriminate; reflexivity. Qed.

Lemma flag_accepts (path : string) (v : Value) :
  isUndefined v || isBoolean v = true -> flagSchema path v = Ok (booleanOr false v).
Proof. destruct v as [[]|]; simpl; try discriminate; reflexivity. Qed.

Lemma formatter_accepts (declared : nat) (path : string) (d v : Value) :
  isFunction d = true -> isUndefined v || isFunction v = true ->
  Zod.default (Zod.function declared path) d v
  = Ok (Zod.validatedCall declared (callOr d v)).
Proof.
  intros Hd Hv. destruct d as [|n call]; [discriminate |].
  destruct v as [[]|]; simpl in *; try discriminate; reflexivity.
Qed.

(** X1.  An options object of a valid shape is accepted, and every absent
    key gets its default: [schema] is [public], the four flags are [false],
    the enum and composite-type formatters return the name and the function
    and table-or-view formatters the two names put together. *)
Theorem valid_options_are_accepted_with_defaults (raw : RawOptions) :
  validShape raw = true ->
  exists opts,
    transformTypesOptionsSchema raw = Ok opts
    /\ raw_sourceText raw = Primitive (JsString (sourceText opts))
    /\ schema opts = stringOr "public" (raw_schema raw)
    /\ relationships opts = booleanOr false (raw_relationships raw)
    /\ updates opts = booleanOr false (raw_updates raw)
    /\ inserts opts = booleanOr false (raw_inserts raw)
    /\ deletes opts = booleanOr false (raw_deletes raw)
    /\ (forall a, enumFormatter opts a
          = Zod.validatedCall 1 (callOr identityFormatter (raw_enumFormatter raw)) [a])
    /\ (forall a, compositeTypeFormatter opts a
          = Zod.validatedCall 1
              (callOr identityFormatter (raw_compositeTypeFormatter raw)) [a])
    /\ (forall a b, functionFormatter opts a b
          = Zod.validatedCall 2 (callOr concatFormatter (raw_functionFormatter raw)) [a; b])
    /\ (forall a b, tableOrViewFormatter opts a b
          = Zod.validatedCall 2
              (callOr concatFormatter (raw_tableOrViewFormatter raw)) [a; b])
    /\ (forall nm, Zod.validatedCall 1 (callOr identityFormatter (Primitive JsUndefined))
                     [JsString nm] = Ok nm)
    /\ (forall nm op, Zod.validatedCall 2 (callOr concatFormatter (Primitive JsUndefined))
                        [JsString nm; JsString op] = Ok (nm ++ op)).
Proof.
  unfold validShape. intros H.
  repeat (apply andb_true_iff in H as [H ?]).
  unfold transformTypesOptionsSchema.
  rewrite !flag_accepts by assumption.
  rewrite !formatter_accepts by (try assumption; reflexivity).
  rewrite string_accepts by assumption.
  destruct (raw_sourceText raw) as [[| | | |src]|]; try discriminate. simpl.
  eexists. split; [reflexivity |]. simpl. repeat split; reflexivity.
Qed.

Lemma valid_options_are_accepted_with_defaults_witness :
  validShape updatesOptions = true
  /\ exists opts,
       transformTypesOptionsSchema updatesOptions = Ok opts
       /\ schema opts = "public" /\ updates opts = true /\ inserts opts = false
       /\ enumFormatter opts (JsString "mood") = Ok "mood"
       /\ tableOrViewFormatter opts (JsString "users") (JsString "Row") = Ok "usersRow".
Proof.
  split; [reflexivity |].
  destruct (valid_options_are_accepted_with_defaults updatesOptions eq_refl)
    as [opts [Ho [_ [Hs [_ [Hu [Hi [_ [He [_ [_ [Ht _]]]]]]]]]]]].
  exists opts. split; [exact Ho |]. split; [exact Hs |]. split; [exact Hu |].
  split; [exact Hi |]. split; [rewrite He | rewrite Ht]; reflexivity.
Defined.

(** ** What the walk passes over (lines 68-242) *)

Lemma forEach_without (cb : Node -> Walk) (n : Node) (l1 l2 : list Node) (st : State) :
  (forall st', cb n st' = Ok st') ->
  forEach cb (l1 ++ n :: l2) st = forEach cb (l1 ++ l2) st.
Proof.
  intros H. rewrite !forEach_app.
  destruct (forEach cb l1 st) as [st1|e]; simpl; [| reflexivity].
  now rewrite H.
Qed.

Lemma walk_with (getNodeName : Node -> option string) (opts : TransformTypesOptions)
    (before after : list Statement) (eof : OtherNode) (s1 s2 : Statement) :
  (forall st, topLevel getNodeName opts (OfStatement s1) st
              = topLevel getNodeName opts (OfStatement s2) st) ->
  transformSourceFile getNodeName opts
    {| statements := before ++ s1 :: after; endOfFileToken := eof |}
  = transformSourceFile getNodeName opts
      {| statements := before ++ s2 :: after; endOfFileToken := eof |}.
Proof.
  intros H. unfold transformSourceFile, walkSourceFile, sourceFileChildren. simpl.
  rewrite !map_app. simpl. rewrite <- !app_assoc. rewrite !forEach_app.
  destruct (forEach (topLevel getNodeName opts) (map OfStatement before) initialState)
    as [st|e]; simpl; [| reflexivity].
  now rewrite H.
Qed.

(** X3.  The entries of [Database] that are not named like the configured
    schema are ignored entirely: the result is the same with such an entry
    or without it, whether [Database] is an alias or an interface and
    whatever the entry holds. *)
Theorem other_schemas_are_ignored
    (getNodeName : Node -> option string) (opts : TransformTypesOptions)
    (other : TypeElement) :
  nameIs (getNodeName (OfTypeElement other)) (schema opts) = false ->
  forall (before after : list Statement) (eof : OtherNode)
         (text text' textL textL' : string)
         (modifiers typeParameters heritageClauses : list OtherNode)
         (l1 l2 : list TypeElement),
    transformSourceFile getNodeName opts
      {| statements :=
           before ++ TypeAliasDeclaration text modifiers "Database" typeParameters
                       (TypeLiteralNode textL (l1 ++ other :: l2)) :: after;
         endOfFileToken := eof |}
    = transformSourceFile getNodeName opts
        {| statements :=
             before ++ TypeAliasDeclaration text' modifiers "Database" typeParameters
                         (TypeLiteralNode textL' (l1 ++ l2)) :: after;
           endOfFileToken := eof |}
    /\ transformSourceFile getNodeName opts
         {| statements :=
              before ++ InterfaceDeclaration text modifiers "Database" typeParameters
                          heritageClauses (l1 ++ other :: l2) :: after;
            endOfFileToken := eof |}
       = transformSourceFile getNodeName opts
           {| statements :=
                before ++ InterfaceDeclaration text' modifiers "Database" typeParameters
                            heritageClauses (l1 ++ l2) :: after;
              endOfFileToken := eof |}.
Proof.
  intros H before after eof text text' textL textL' modifiers typeParameters
    heritageClauses l1 l2.
  assert (Hskip : forall st, processDatabase getNodeName opts (OfTypeElement other) st = Ok st).
  { intros st. unfold processDatabase. rewrite H.
    now destruct (isPropertySignature (OfTypeElement other)). }
  split; apply walk_with; intros st.
  - rewrite !topLevel_alias_Database, !map_app. simpl. now apply forEach_without.
  - rewrite !topLevel_interface_Database, !map_app. simpl. now apply forEach_without.
Qed.

Lemma other_schemas_are_ignored_witness :
  nameIs (declaredName (OfTypeElement auditSchema)) "public" = false
  /\ transformSourceFile declaredName (defaultsFor EmptyString)
       (sourceFileOf
          [typeAlias "Database"
             (typeLiteral [auditSchema; property "public" (typeLiteral [moodTables; moodEnums])])])
     = transformSourceFile declaredName (defaultsFor EmptyString) moodFile.
Proof.
  split; [reflexivity |].
  exact (proj1 (other_schemas_are_ignored declaredName (defaultsFor EmptyString) auditSchema
                  eq_refl [] [] endOfFile _ _ _ _ [] [] [] []
                  [property "public" (typeLiteral [moodTables; moodEnums])])).
Defined.

(** X4.  A top-level statement that is neither a [Database] alias of a
    type literal, nor a [Database] interface, nor a [Json] alias leaves the
    result as it is without it. *)
Theorem unrelated_statements_are_ignored
    (getNodeName : Node -> option string) (opts : TransformTypesOptions) (s : Statement) :
  databaseMembers s = [] -> jsonText s = [] ->
  forall (before after : list Statement) (eof : OtherNode),
    transformSourceFile getNodeName opts
      {| statements := before ++ s :: after; endOfFileToken := eof |}
    = transformSourceFile getNodeName opts
        {| statements := before ++ after; endOfFileToken := eof |}.
Proof.
  intros Hd Hj before after eof.
  unfold transformSourceFile, walkSourceFile, sourceFileChildren. simpl.
  rewrite !map_app. simpl. rewrite <- !app_assoc. simpl.
  rewrite (forEach_without _ (OfStatement s)); [reflexivity |].
  intros st. rewrite topLevel_absent.
  - rewrite Hj. unfold declarationsOnly. now rewrite appendState_initial_r.
  - rewrite Hd. intros m [].
Qed.

Lemma unrelated_statements_are_ignored_witness :
  databaseMembers importStatement = [] /\ jsonText importStatement = []
  /\ transformSourceFile declaredName (defaultsFor EmptyString)
       (sourceFileOf (importStatement :: statements moodFile))
     = transformSourceFile declaredName (defaultsFor EmptyString) moodFile.
Proof.
  split; [reflexivity |]. split; [reflexivity |].
  apply (unrelated_statements_are_ignored declaredName (defaultsFor EmptyString)
           importStatement eq_refl eq_refl [] (statements moodFile) endOfFile).
Defined.

Lemma isGroupName_false (text : string) :
  isGroupName text = false ->
  String.eqb text "Tables" || String.eqb text "Views" = false
  /\ String.eqb "Enums" text = false /\ String.eqb "CompositeTypes" text = false
  /\ String.eqb "Functions" text = false.
Proof.
  unfold isGroupName. intros H.
  rewrite (String.eqb_sym "Enums"), (String.eqb_sym "CompositeTypes"),
    (String.eqb_sym "Functions").
  destruct (String.eqb text "Tables"), (String.eqb text "Views"),
    (String.eqb text "Enums"), (String.eqb text "CompositeTypes"),
    (String.eqb text "Functions"); try discriminate; auto.
Qed.

(** X5.  A member of the schema's body is looked at only when its name is
    an identifier that is one of [Tables], [Views], [Enums],
    [CompositeTypes], [Functions] (a quoted key is not): any other member
    adds nothing, calls no formatter, and the walk of the body is the same
    with it or without it. *)
Theorem other_members_of_the_schema_are_ignored
    (getNodeName : Node -> option string) (opts : TransformTypesOptions) (n : Node) :
  match identifierNameText n with
  | Some text => isGroupName text = false
  | None => True
  end ->
  (forall st, schemaMember getNodeName opts n st = Ok st)
  /\ (forall l1 l2 st,
        forEach (schemaMember getNodeName opts) (l1 ++ n :: l2) st
        = forEach (schemaMember getNodeName opts) (l1 ++ l2) st).
Proof.
  intros H.
  assert (Hskip : forall st, schemaMember getNodeName opts n st = Ok st).
  { intros st. unfold schemaMember. destruct (identifierNameText n) as [text|];
      [| reflexivity].
    destruct (isGroupName_false text H) as [H1 [H2 [H3 H4]]].
    rewrite H1, H2, H3, H4. reflexivity. }
  split; [exact Hskip |]. intros l1 l2 st. now apply forEach_without.
Qed.

Lemma other_members_of_the_schema_are_ignored_witness :
  schemaMember declaredName (defaultsFor EmptyString) (OfTypeElement settingsMember)
    initialState = Ok initialState
  /\ schemaMember declaredName (defaultsFor EmptyString)
       (OfTypeElement
          (PropertySignature EmptyString [] (StringLiteral "Enums") None
             (Some (typeLiteral [property "mood" moodUnion]))))
       initialState = Ok initialState.
Proof.
  split.
  - apply (other_members_of_the_schema_are_ignored declaredName (defaultsFor EmptyString)
             (OfTypeElement settingsMember)). reflexivity.
  - apply (other_members_of_the_schema_are_ignored declaredName (defaultsFor EmptyString)
             (OfTypeElement
                (PropertySignature EmptyString [] (StringLiteral "Enums") None
                   (Some (typeLiteral [property "mood" moodUnion]))))). exact I.
Defined.

(** X6.  [Views] is walked exactly like [Tables]: a grouping gives the
    same declarations under either name. *)
Theorem views_are_walked_like_tables
    (getNodeName : Node -> option string) (opts : TransformTypesOptions)
    (text text' : string) (modifiers : list OtherNode)
    (questionToken : option OtherNode) (type : option TypeNode) (st : State) :
  schemaMember getNodeName opts
    (OfTypeElement (PropertySignature text modifiers (Identifier "Views") questionToken type)) st
  = schemaMember getNodeName opts
      (OfTypeElement
         (PropertySignature text' modifiers (Identifier "Tables") questionToken type)) st.
Proof.
  unfold schemaMember, forEachChild, children. simpl.
  rewrite !(forEach_app_skip_map OfOther) by reflexivity. simpl.
  rewrite !(forEach_app_skip_map OfOther) by reflexivity.
  reflexivity.
Qed.

(** X7.  A body of another shape is passed over without a formatter call:
    a table operation whose type is neither a type literal nor a tuple (or
    is absent), a composite-type entry whose type is not a type literal,
    and a function grouping whose type is not a type reference add nothing
    and throw nothing, whatever their names and the flags. *)
Theorem bodies_of_other_shapes_are_passed_over
    (getNodeName : Node -> option string) (opts : TransformTypesOptions)
    (text : string) (modifiers : list OtherNode) (nm : PropertyName)
    (questionToken : option OtherNode) (type : option TypeNode) :
  let n := OfTypeElement (PropertySignature text modifiers nm questionToken type) in
  (isLiteralOrTuple type = false ->
   forall tableOrViewName st, tableOperation getNodeName opts tableOrViewName n st = Ok st)
  /\ (isTypeLiteral type = false ->
      forall st, compositeTypeEntry getNodeName opts n st = Ok st)
  /\ (isTypeReference type = false ->
      forall functionName st, functionArg getNodeName opts functionName n st = Ok st).
Proof.
  intros n. split; [| split]; intros H.
  - intros tableOrViewName st. unfold tableOperation, n. simpl.
    destruct (gatedOff opts _); [reflexivity |].
    destruct (truthy _); [| reflexivity].
    rewrite forEach_property_children by reflexivity.
    destruct type as [[]|]; simpl; try reflexivity; discriminate.
  - intros st. unfold compositeTypeEntry, n. simpl.
    rewrite forEach_property_children by reflexivity.
    destruct type as [[]|]; simpl; try reflexivity; discriminate.
  - intros functionName st. unfold functionArg, n. simpl.
    rewrite forEach_property_children by reflexivity.
    destruct type as [[]|]; simpl; try reflexivity; discriminate.
Qed.

Lemma bodies_of_other_shapes_are_passed_over_witness :
  tableOperation declaredName (defaultsFor EmptyString) (Some "users")
    (OfTypeElement neverOperation) initialState = Ok initialState.
Proof.
  apply (proj1 (bodies_of_other_shapes_are_passed_over declaredName (defaultsFor EmptyString)
                  _ [] (Identifier "Row") None (Some (OtherTypeNode "never")))).
  reflexivity.
Defined.

Lemma gatedOff_other (opts : TransformTypesOptions) (operation : option string) :
  isGatedName operation = false -> gatedOff opts operation = false.
Proof.
  unfold isGatedName, gatedOff. intros H.
  destruct (nameIs operation "Relationships"), (nameIs operation "Insert"),
    (nameIs operation "Update"), (nameIs operation "Delete"); try discriminate.
  reflexivity.
Qed.

(** X8.  The flags bear on the four operation names only: an operation
    with any other name ([Row], say) is walked the same way under every
    setting of the flags, and an operation that is gated off adds nothing
    and calls no formatter. *)
Theorem flags_bear_on_the_four_operations_only
    (getNodeName : Node -> option string) (opts : TransformTypesOptions) (n : Node) :
  (isGatedName (getNodeName n) = false ->
   forall rel upd ins del rel' upd' ins' del' tableOrViewName st,
     tableOperation getNodeName (withFlags opts rel upd ins del) tableOrViewName n st
     = tableOperation getNodeName (withFlags opts rel' upd' ins' del') tableOrViewName n st)
  /\ (gatedOff opts (getNodeName n) = true ->
      forall tableOrViewName st, tableOperation getNodeName opts tableOrViewName n st = Ok st).
Proof.
  split; intros H.
  - intros rel upd ins del rel' upd' ins' del' tableOrViewName st. unfold tableOperation.
    now rewrite !gatedOff_other by exact H.
  - intros tableOrViewName st. unfold tableOperation. rewrite H.
    now destruct (isPropertySignature n).
Qed.

Lemma flags_bear_on_the_four_operations_only_witness :
  tableOperation declaredName (withFlags (defaultsFor EmptyString) false false false false)
    (Some "users") (OfTypeElement (property "Row" usersShape)) initialState
  = tableOperation declaredName (withFlags (defaultsFor EmptyString) true true true true)
      (Some "users") (OfTypeElement (property "Row" usersShape)) initialState.
Proof.
  apply (proj1 (flags_bear_on_the_four_operations_only declaredName (defaultsFor EmptyString)
                  (OfTypeElement (property "Row" usersShape)))).
  reflexivity.
Defined.

(** ** Invariants of the collected arrays *)

(** The rules of the callbacks again, for a condition on what is appended
    that depends on the declaration being an [export type] one. *)

Section WalkExports.

Variable getNodeName : Node -> option string.
Variable opts : TransformTypesOptions.
Variable Q : State -> Prop.
Hypothesis Q_initial : Q initialState.
Hypothesis Q_append : forall a b, Q a -> Q b -> Q (appendState a b).
Hypothesis Q_export : forall f t, Q (pushTypeString (exportType f t) initialState).
Hypothesis Q_enum : forall nm f t,
  enumFormatter opts (nameValue nm) = Ok f ->
  Q (pushEnumName {| name := nm; formattedName := f |}
       (pushTypeString (exportType f t) initialState)).
Hypothesis Q_composite : forall nm f t,
  compositeTypeFormatter opts (nameValue nm) = Ok f ->
  Q (pushCompositeTypeName {| name := nm; formattedName := f |}
       (pushTypeString (exportType f t) initialState)).

Local Ltac by_guard' g := destruct g; [| exact (Emits_skip Q Q_initial)].

Lemma Exports_declaration (r : Result string) (text : string) :
  Emits Q (fun st => formatted <- r;; Ok (pushTypeString (exportType formatted text) st)).
Proof.
  apply Emits_ext with
    (w' := fun st => d <- (formatted <- r;;
                           Ok (pushTypeString (exportType formatted text) initialState));;
                     Ok (appendState st d)).
  - intros st. destruct r; simpl; [| reflexivity]. now rewrite pushTypeString_append.
  - apply Emits_leaf. intros d H. destruct r; simpl in H; [| discriminate].
    injection H as <-. apply Q_export.
Qed.

Lemma Exports_tableOperationType tableOrViewName operation n :
  Emits Q (tableOperationType opts tableOrViewName operation n).
Proof.
  unfold tableOperationType. by_guard' (isTypeLiteralNode n || isTupleTypeNode n).
  apply Exports_declaration.
Qed.

Lemma Exports_tableOperation tableOrViewName n :
  Emits Q (tableOperation getNodeName opts tableOrViewName n).
Proof.
  unfold tableOperation. by_guard' (isPropertySignature n).
  destruct (gatedOff opts (getNodeName n)); [exact (Emits_skip Q Q_initial) |].
  by_guard' (truthy (getNodeName n)).
  apply Emits_forEachChild; auto using Exports_tableOperationType.
Qed.

Lemma Exports_tableBody tableOrViewName n :
  Emits Q (tableBody getNodeName opts tableOrViewName n).
Proof.
  unfold tableBody. by_guard' (isTypeLiteralNode n).
  apply Emits_forEachChild; auto using Exports_tableOperation.
Qed.

Lemma Exports_tableOrView n : Emits Q (tableOrView getNodeName opts n).
Proof.
  unfold tableOrView. by_guard' (isPropertySignature n).
  apply Emits_forEachChild; auto using Exports_tableBody.
Qed.

Lemma Exports_tablesOrViews n : Emits Q (tablesOrViews getNodeName opts n).
Proof.
  unfold tablesOrViews. by_guard' (isTypeLiteralNode n).
  apply Emits_forEachChild; auto using Exports_tableOrView.
Qed.

Lemma Exports_enumPush enumName text :
  Emits Q (fun st =>
    formattedName <- enumFormatter opts (nameValue enumName);;
    Ok (pushEnumName {| name := enumName; formattedName := formattedName |}
          (pushTypeString (exportType formattedName text) st))).
Proof.
  apply Emits_ext with
    (w' := fun st =>
       d <- (formattedName <- enumFormatter opts (nameValue enumName);;
             Ok (pushEnumName {| name := enumName; formattedName := formattedName |}
                   (pushTypeString (exportType formattedName text) initialState)));;
       Ok (appendState st d)).
  - intros st. destruct (enumFormatter opts (nameValue enumName)); simpl; [| reflexivity].
    now rewrite pushEnumName_append.
  - apply Emits_leaf. intros d H.
    destruct (enumFormatter opts (nameValue enumName)) eqn:E; simpl in H; [| discriminate].
    injection H as <-. now apply Q_enum.
Qed.

Lemma Exports_enumType enumName n : Emits Q (enumType opts enumName n).
Proof.
  unfold enumType. apply Emits_bind; auto.
  - by_guard' (isUnionTypeNode n). apply Exports_enumPush.
  - by_guard' (isLiteralTypeNode n). apply Exports_enumPush.
Qed.

Lemma Exports_enumEntry n : Emits Q (enumEntry getNodeName opts n).
Proof.
  unfold enumEntry. by_guard' (isPropertySignature n).
  apply Emits_forEachChild; auto using Exports_enumType.
Qed.

Lemma Exports_enums n : Emits Q (enums getNodeName opts n).
Proof.
  unfold enums. by_guard' (isTypeLiteralNode n).
  apply Emits_forEachChild; auto using Exports_enumEntry.
Qed.

Lemma Exports_compositeType enumName n : Emits Q (compositeType opts enumName n).
Proof.
  unfold compositeType. by_guard' (isTypeLiteralNode n).
  apply Emits_ext with
    (w' := fun st =>
       d <- (formattedName <- compositeTypeFormatter opts (nameValue enumName);;
             Ok (pushCompositeTypeName {| name := enumName; formattedName := formattedName |}
                   (pushTypeString (exportType formattedName (getText n)) initialState)));;
       Ok (appendState st d)).
  - intros st. destruct (compositeTypeFormatter opts (nameValue enumName)); simpl;
      [| reflexivity].
    now rewrite pushCompositeTypeName_append.
  - apply Emits_leaf; auto. intros d H.
    destruct (compositeTypeFormatter opts (nameValue enumName)) eqn:E; simpl in H;
      [| discriminate].
    injection H as <-. now apply Q_composite.
Qed.

Lemma Exports_compositeTypeEntry n : Emits Q (compositeTypeEntry getNodeName opts n).
Proof.
  unfold compositeTypeEntry. by_guard' (isPropertySignature n).
  apply Emits_forEachChild; auto using Exports_compositeType.
Qed.

Lemma Exports_compositeTypes n : Emits Q (compositeTypes getNodeName opts n).
Proof.
  unfold compositeTypes. by_guard' (isTypeLiteralNode n).
  apply Emits_forEachChild; auto using Exports_compositeTypeEntry.
Qed.

Lemma Exports_functionArgType functionName argType n :
  Emits Q (functionArgType opts functionName argType n).
Proof.
  unfold functionArgType. by_guard' (isTypeReferenceNode n). apply Exports_declaration.
Qed.

Lemma Exports_functionArg functionName n :
  Emits Q (functionArg getNodeName opts functionName n).
Proof.
  unfold functionArg. by_guard' (isPropertySignature n).
  apply Emits_forEachChild; auto using Exports_functionArgType.
Qed.

Lemma Exports_functionBody functionName n :
  Emits Q (functionBody getNodeName opts functionName n).
Proof.
  unfold functionBody. by_guard' (isTypeLiteralNode n).
  apply Emits_forEachChild; auto using Exports_functionArg.
Qed.

Lemma Exports_functionEntry n : Emits Q (functionEntry getNodeName opts n).
Proof.
  unfold functionEntry. by_guard' (isPropertySignature n).
  apply Emits_forEachChild; auto using Exports_functionBody.
Qed.

Lemma Exports_functions n : Emits Q (functions getNodeName opts n).
Proof.
  unfold functions. by_guard' (isTypeLiteralNode n).
  apply Emits_forEachChild; auto using Exports_functionEntry.
Qed.

Lemma Exports_schemaMember n : Emits Q (schemaMember getNodeName opts n).
Proof.
  unfold schemaMember. destruct (identifierNameText n) as [text|];
    [| exact (Emits_skip Q Q_initial)].
  repeat (apply Emits_bind; auto); apply Emits_if; auto;
    apply Emits_forEachChild; auto
      using Exports_tablesOrViews, Exports_enums, Exports_compositeTypes, Exports_functions.
Qed.

Lemma Exports_schemaBody n : Emits Q (schemaBody getNodeName opts n).
Proof.
  unfold schemaBody. by_guard' (isTypeLiteralNode n).
  apply Emits_forEachChild; auto using Exports_schemaMember.
Qed.

Lemma Exports_processDatabase n : Emits Q (processDatabase getNodeName opts n).
Proof.
  unfold processDatabase. by_guard' (isPropertySignature n).
  by_guard' (nameIs (getNodeName n) (schema opts)).
  apply Emits_forEachChild; auto using Exports_schemaBody.
Qed.

Lemma Exports_database n : Emits Q (database getNodeName opts n).
Proof.
  unfold database.
  destruct n as [[text mods nm tps ty | text mods nm tps hcs ms | o] | | | |];
    try exact (Emits_skip Q Q_initial).
  - destruct ty; try exact (Emits_skip Q Q_initial).
    by_guard' (String.eqb nm "Database").
    apply Emits_forEach; auto using Exports_processDatabase.
  - by_guard' (String.eqb nm "Database").
    apply Emits_forEachChild; auto using Exports_processDatabase.
Qed.

End WalkExports.

Lemma namesAreDeclared_append (a b : State) :
  namesAreDeclared a -> namesAreDeclared b -> namesAreDeclared (appendState a b).
Proof.
  intros [A1 [A2 A3]] [B1 [B2 B3]]. unfold namesAreDeclared. simpl.
  rewrite !length_app. split; [| split; [| lia]].
  - apply Forall_app. split; eapply Forall_impl; try eassumption;
      intros e [text H]; exists text; apply in_or_app; auto.
  - apply Forall_app. split; eapply Forall_impl; try eassumption;
      intros e [text H]; exists text; apply in_or_app; auto.
Qed.

(** X9.  Every name recorded for the rewriting has its declaration among
    the collected ones: for every entry of [enumNames] and of
    [compositeTypeNames] there is a collected declaration
    [export type formattedName = ...], and the declarations are at least as
    many as the names. *)
Theorem recorded_names_are_declared
    (getNodeName : Node -> option string) (opts : TransformTypesOptions)
    (sf : SourceFile) (st : State) :
  walkSourceFile getNodeName opts sf = Ok st -> namesAreDeclared st.
Proof.
  intros H. unfold walkSourceFile in H.
  assert (H0 : namesAreDeclared initialState)
    by (split; [constructor | split; [constructor | simpl; lia]]).
  assert (H1 : forall s, namesAreDeclared (pushTypeString s initialState))
    by (intros s; split; [constructor | split; [constructor | simpl; lia]]).
  apply (Emits_grows namesAreDeclared) in H as [d [Hd [_ ->]]].
  - now rewrite appendState_initial_l.
  - apply Emits_forEach; auto using namesAreDeclared_append.
    intros n _. unfold topLevel. apply Emits_bind; auto using namesAreDeclared_append.
    + apply Exports_database; auto using namesAreDeclared_append.
      * intros nm f t _. split; [| split; [constructor | simpl; lia]].
        constructor; [| constructor]. exists t. now left.
      * intros nm f t _. split; [constructor | split; [| simpl; lia]].
        constructor; [| constructor]. exists t. now left.
    + apply Emits_json; auto.
Qed.

Lemma recorded_names_are_declared_witness :
  namesAreDeclared
    {| typeStrings := ["export type mood = 'happy' | 'sad'"; "export type mood = 'calm'"];
       enumNames := [ {| name := Some "mood"; formattedName := "mood" |};
                      {| name := Some "mood"; formattedName := "mood" |} ];
       compositeTypeNames := [] |}.
Proof.
  apply (recorded_names_are_declared declaredName (defaultsFor (textOf duplicateEnumFile))
           duplicateEnumFile).
  reflexivity.
Defined.

Lemma json_pushes (s : Statement) (st : State) :
  json (OfStatement s) st = Ok (appendState st (declarationsOnly (jsonText s))).
Proof.
  destruct s as [text mods nm tps ty | text mods nm tps hcs ms | o]; simpl;
    try (now rewrite appendState_initial_r).
  destruct (String.eqb nm "Json").
  - now rewrite pushTypeString_append.
  - now rewrite appendState_initial_r.
Qed.

Lemma database_onlyExports (getNodeName : Node -> option string)
    (opts : TransformTypesOptions) (n : Node) :
  Emits onlyExports (database getNodeName opts n).
Proof.
  assert (H0 : onlyExports initialState) by constructor.
  assert (Ha : forall a b, onlyExports a -> onlyExports b -> onlyExports (appendState a b)).
  { intros a b A B. unfold onlyExports. simpl. apply Forall_app. now split. }
  apply Exports_database; auto.
  - intros f t. constructor; [| constructor]. now exists f, t.
  - intros nm f t _. constructor; [| constructor]. now exists f, t.
  - intros nm f t _. constructor; [| constructor]. now exists f, t.
Qed.

(** X10.  Every collected declaration is either the text of a top-level
    [Json] alias of the source or an [export type f = t] built by the walk;
    nothing else is ever pushed. *)
Theorem declarations_are_exports_or_json
    (getNodeName : Node -> option string) (opts : TransformTypesOptions)
    (sf : SourceFile) (st : State) :
  walkSourceFile getNodeName opts sf = Ok st ->
  Forall (fun s => isExport s \/ In s (jsonTexts sf)) (typeStrings st).
Proof.
  unfold walkSourceFile, sourceFileChildren, jsonTexts. rewrite forEach_app.
  assert (H : forall l st0 st1,
             forEach (topLevel getNodeName opts) (map OfStatement l) st0 = Ok st1 ->
             exists x, typeStrings st1 = (typeStrings st0 ++ x)%list
                       /\ Forall (fun s => isExport s \/ In s (flat_map jsonText l)) x).
  { induction l as [|s l IH]; intros st0 st1 E; simpl in E.
    - injection E as <-. exists []. split; [now rewrite app_nil_r | constructor].
    - unfold topLevel at 1 in E.
      destruct (database getNodeName opts (OfStatement s) st0) as [sta|e] eqn:Ed;
        cbn [bind] in E; [| discriminate].
      rewrite json_pushes in E. cbn [bind] in E.
      apply (Emits_grows onlyExports) in Ed as [d [Hd [_ ->]]];
        [| apply database_onlyExports].
      destruct (IH _ _ E) as [x [Hx Hall]]. simpl in Hx.
      exists (typeStrings d ++ jsonText s ++ x)%list. split.
      + rewrite Hx. now rewrite <- !app_assoc.
      + apply Forall_app. split; [| apply Forall_app; split].
        * eapply Forall_impl; [| exact Hd]. intros a Ha. now left.
        * apply Forall_forall. intros a Ha. right. simpl. apply in_or_app. now left.
        * eapply Forall_impl; [| exact Hall]. intros a [Ha | Ha]; [now left |].
          right. simpl. apply in_or_app. now right. }
  intros E.
  destruct (forEach (topLevel getNodeName opts) (map OfStatement (statements sf))
              initialState) as [st1|e] eqn:E1; simpl in E; [| discriminate].
  injection E as <-. destruct (H _ _ _ E1) as [x [Hx Hall]]. now rewrite Hx.
Qed.

Lemma declarations_are_exports_or_json_witness :
  Forall (fun s => isExport s \/ In s (jsonTexts moodFile))
    ["export type usersRow = { mood: " ++ moodPath ++ " }";
     "export type mood = 'happy' | 'sad'"].
Proof.
  apply (declarations_are_exports_or_json declaredName (defaultsFor (textOf moodFile))
           moodFile
           {| typeStrings := ["export type usersRow = { mood: " ++ moodPath ++ " }";
                              "export type mood = 'happy' | 'sad'"];
              enumNames := [ {| name := Some "mood"; formattedName := "mood" |} ];
              compositeTypeNames := [] |}).
  reflexivity.
Defined.

(** ** The rewriting passes (lines 248-268) *)

Lemma applyPasses_join (ps : list (string * string)) (l : list string) :
  Forall (fun pass => plain (snd pass) /\ fst pass <> EmptyString) ps ->
  forallb withinDeclaration ps = true ->
  applyPasses ps (Js.join separator l) = Js.join separator (map (applyPasses ps) l).
Proof.
  intros Hpl. revert l. induction Hpl as [|[p r] ps [Hr Hne] Hps IH]; intros l Hw.
  - simpl. now rewrite map_id.
  - simpl in Hw. apply andb_true_iff in Hw as [Hw Hws].
    unfold withinDeclaration in Hw. simpl in Hw, Hr, Hne.
    apply andb_true_iff in Hw as [H1 H2]. apply negb_true_iff, includes_false in H1, H2.
    unfold applyPasses in *. simpl. rewrite replaceAll_join by assumption.
    rewrite IH by assumption. now rewrite map_map.
Qed.

Lemma passes_plain (schema : string) (st : State) :
  Forall (fun e => plain (formattedName e)) (enumNames st ++ compositeTypeNames st) ->
  Forall (fun pass => plain (snd pass) /\ fst pass <> EmptyString) (passes schema st).
Proof.
  intros Hpl. apply Forall_app in Hpl as [He Hc]. unfold passes. apply Forall_app.
  split; apply Forall_flat_map; apply Forall_forall; intros e Hin;
    [rewrite Forall_forall in He; specialize (He e Hin)
    | rewrite Forall_forall in Hc; specialize (Hc e Hin)];
    unfold entryPasses; repeat constructor; simpl; auto using qualifiedPath_not_empty.
Qed.

(** X11.  When the formatted names have no dollar sign and no recorded
    path holds a semicolon or a line feed, the rewriting acts declaration by
    declaration: the returned text is the retained declarations, each
    rewritten by the two loops on its own, joined in the order in which
    they were collected. *)
Theorem rewriting_acts_declaration_by_declaration
    (getNodeName : Node -> option string) (opts : TransformTypesOptions)
    (sf : SourceFile) (out : string) :
  transformSourceFile getNodeName opts sf = Ok out ->
  exists st,
    walkSourceFile getNodeName opts sf = Ok st
    /\ (Forall (fun e => plain (formattedName e)) (enumNames st ++ compositeTypeNames st) ->
        forallb withinDeclaration (passes (schema opts) st) = true ->
        out = Js.join separator
                (map (rewriteReferences (schema opts) st) (retained (typeStrings st)))).
Proof.
  unfold transformSourceFile. intros H.
  destruct (walkSourceFile getNodeName opts sf) as [st|e]; simpl in H; [| discriminate].
  injection H as <-. exists st. split; [reflexivity |]. intros Hpl Hw.
  rewrite rewriteReferences_fold. unfold assemble.
  change (fold_left (fun t pass => Js.replaceAll t (fst pass) (snd pass))
            (passes (schema opts) st))
    with (applyPasses (passes (schema opts) st)).
  rewrite applyPasses_join by (try assumption; now apply passes_plain).
  f_equal. apply map_ext. intros d. now rewrite rewriteReferences_fold.
Qed.

Lemma rewriting_acts_declaration_by_declaration_witness :
  exists st,
    walkSourceFile declaredName (defaultsFor (textOf moodFile)) moodFile = Ok st
    /\ (Forall (fun e => plain (formattedName e)) (enumNames st ++ compositeTypeNames st) ->
        forallb withinDeclaration (passes "public" st) = true ->
        "export type usersRow = { mood: mood }" ++ separator
        ++ "export type mood = 'happy' | 'sad'"
        = Js.join separator (map (rewriteReferences "public" st) (retained (typeStrings st)))).
Proof.
  apply (rewriting_acts_declaration_by_declaration declaredName
           (defaultsFor (textOf moodFile)) moodFile).
  reflexivity.
Defined.

Lemma applyPasses_absent (ps : list (string * string)) (t : string) :
  Forall (fun pass => plain (snd pass) /\ fst pass <> EmptyString) ps ->
  Forall (fun pass => ~ occurs (fst pass) t) ps ->
  applyPasses ps t = t.
Proof.
  intros Hpl Hno. induction Hpl as [|[p r] ps [Hr Hne] Hps IH]; [reflexivity |].
  apply Forall_cons_iff in Hno as [Hp Hno]. simpl in *. unfold applyPasses in *. simpl.
  rewrite replaceAll_absent by assumption. now apply IH.
Qed.

(** X12.  On a well-delimited text the rewriting is idempotent: rewriting
    the rewritten text again changes nothing.  (The schema, the names and
    the formatted names are words, the formatted names not empty and not
    ending in [Database]; in the text every [Database[] comes first or after
    a delimiter and every bracketed key ends before one.) *)
Theorem rewriting_is_idempotent (schema : string) (st : State) (t : string) :
  allWord schema = true ->
  forallb wordEntry (enumNames st ++ compositeTypeNames st) = true ->
  pathStartsClean None t = true -> keyEndsClean t = true ->
  rewriteReferences schema st (rewriteReferences schema st t)
  = rewriteReferences schema st t.
Proof.
  intros Hs He HS HE.
  assert (Hplain : Forall (fun e => plain (formattedName e))
                     (enumNames st ++ compositeTypeNames st)).
  { apply Forall_forall. intros e Hin. apply wordEntry_plain.
    rewrite forallb_forall in He. now apply He. }
  assert (Hchain : RewriteChain (passes schema st) t (rewriteReferences schema st t)).
  { pose proof Hplain as Hp. apply Forall_app in Hp as [Hp1 Hp2].
    unfold passes, rewriteReferences.
    eapply RewriteChain_app; now apply rewriteEntries_chain. }
  destruct (chain_leaves_no_path _ _ _ Hchain) as [_ [_ [Hno _]]].
  - now apply passes_WordPass.
  - now apply pathStartsClean_StartsClean.
  - now apply keyEndsClean_EndsClean.
  - rewrite (rewriteReferences_fold schema st (rewriteReferences schema st t)).
    apply applyPasses_absent; [now apply passes_plain | exact Hno].
Qed.

Lemma rewriting_is_idempotent_witness :
  rewriteReferences "public"
    {| typeStrings := []; enumNames := [ {| name := Some "mood"; formattedName := "Mood" |} ];
       compositeTypeNames := [] |}
    (rewriteReferences "public"
       {| typeStrings := [];
          enumNames := [ {| name := Some "mood"; formattedName := "Mood" |} ];
          compositeTypeNames := [] |}
       ("export type usersRow = { mood: " ++ moodPath ++ " }"))
  = rewriteReferences "public"
      {| typeStrings := []; enumNames := [ {| name := Some "mood"; formattedName := "Mood" |} ];
         compositeTypeNames := [] |}
      ("export type usersRow = { mood: " ++ moodPath ++ " }").
Proof.
  apply (rewriting_is_idempotent "public"
           {| typeStrings := [];
              enumNames := [ {| name := Some "mood"; formattedName := "Mood" |} ];
              compositeTypeNames := [] |}
           ("export type usersRow = { mood: " ++ moodPath ++ " }")); reflexivity.
Defined.

(** ** When the walk returns, and when it throws *)

Lemma Always_skip : AlwaysReturns skip.
Proof. intros st. now exists st. Qed.

Lemma Always_bind (w1 w2 : Walk) :
  AlwaysReturns w1 -> AlwaysReturns w2 -> AlwaysReturns (fun st => st1 <- w1 st;; w2 st1).
Proof. intros H1 H2 st. destruct (H1 st) as [st1 ->]. simpl. apply H2. Qed.

Lemma Always_if (b : bool) (w : Walk) :
  AlwaysReturns w -> AlwaysReturns (fun st => if b then w st else Ok st).
Proof. intros H. destruct b; [exact H | exact Always_skip]. Qed.

Lemma Always_forEach (cb : Node -> Walk) (l : list Node) :
  (forall n, AlwaysReturns (cb n)) -> AlwaysReturns (forEach cb l).
Proof.
  intros H. induction l as [|n l IH]; [exact Always_skip |].
  change (forEach cb (n :: l)) with (fun st => st' <- cb n st;; forEach cb l st').
  now apply Always_bind.
Qed.

Lemma Always_formatted (r : Result string) (k : string -> State -> State) :
  (exists f, r = Ok f) -> AlwaysReturns (fun st => f <- r;; Ok (k f st)).
Proof. intros [f ->] st. simpl. eauto. Qed.

Section WalkReturns.

Variable getNodeName : Node -> option string.
Variable opts : TransformTypesOptions.
Hypothesis names : namesResolve getNodeName.
Hypothesis formatters : formattersReturn opts.

Lemma Always_tablesOrViews n : AlwaysReturns (tablesOrViews getNodeName opts n).
Proof.
  unfold tablesOrViews. apply Always_if. apply Always_forEach. intros table.
  unfold tableOrView. destruct (isPropertySignature table) eqn:E; [| exact Always_skip].
  destruct (names table E) as [a ->]. apply Always_forEach. intros body.
  unfold tableBody. apply Always_if. apply Always_forEach. intros op.
  unfold tableOperation. destruct (isPropertySignature op) eqn:E'; [| exact Always_skip].
  destruct (names op E') as [b ->].
  destruct (gatedOff opts (Some b)); [exact Always_skip |].
  apply Always_if. apply Always_forEach. intros t.
  unfold tableOperationType. apply Always_if.
  apply (Always_formatted _ (fun f => pushTypeString (exportType f (getText t)))).
  apply formatters.
Qed.

Lemma Always_enums n : AlwaysReturns (enums getNodeName opts n).
Proof.
  unfold enums. apply Always_if. apply Always_forEach. intros entry.
  unfold enumEntry. destruct (isPropertySignature entry) eqn:E; [| exact Always_skip].
  destruct (names entry E) as [a ->]. apply Always_forEach. intros t st.
  unfold enumType. destruct formatters as [He _]. destruct (He a) as [r Hr].
  cbn [nameValue]. rewrite Hr.
  destruct (isUnionTypeNode t), (isLiteralTypeNode t); simpl; eauto.
Qed.

Lemma Always_compositeTypes n : AlwaysReturns (compositeTypes getNodeName opts n).
Proof.
  unfold compositeTypes. apply Always_if. apply Always_forEach. intros entry.
  unfold compositeTypeEntry. destruct (isPropertySignature entry) eqn:E;
    [| exact Always_skip].
  destruct (names entry E) as [a ->]. apply Always_forEach. intros t.
  unfold compositeType. apply Always_if.
  apply (Always_formatted _ (fun f st =>
           pushCompositeTypeName {| name := Some a; formattedName := f |}
             (pushTypeString (exportType f (getText t)) st))).
  apply formatters.
Qed.

Lemma Always_functions n : AlwaysReturns (functions getNodeName opts n).
Proof.
  unfold functions. apply Always_if. apply Always_forEach. intros entry.
  unfold functionEntry. destruct (isPropertySignature entry) eqn:E; [| exact Always_skip].
  destruct (names entry E) as [a ->]. apply Always_forEach. intros body.
  unfold functionBody. apply Always_if. apply Always_forEach. intros arg.
  unfold functionArg. destruct (isPropertySignature arg) eqn:E'; [| exact Always_skip].
  destruct (names arg E') as [b ->]. apply Always_forEach. intros t.
  unfold functionArgType. apply Always_if.
  apply (Always_formatted _ (fun f => pushTypeString (exportType f (getText t)))).
  apply formatters.
Qed.

Lemma Always_processDatabase n : AlwaysReturns (processDatabase getNodeName opts n).
Proof.
  unfold processDatabase. apply Always_if.
  apply (Always_if (nameIs (getNodeName n) (schema opts))).
  apply Always_forEach. intros body.
  unfold schemaBody. apply Always_if. apply Always_forEach. intros member.
  unfold schemaMember. destruct (identifierNameText member) as [text|];
    [| exact Always_skip].
  repeat apply Always_bind; apply Always_if; apply Always_forEach;
    auto using Always_tablesOrViews, Always_enums, Always_compositeTypes, Always_functions.
Qed.

Lemma Always_topLevel n : AlwaysReturns (topLevel getNodeName opts n).
Proof.
  unfold topLevel. apply Always_bind.
  - unfold database.
    destruct n as [[text mods nm tps ty | text mods nm tps hcs ms | o] | | | |];
      try exact Always_skip.
    + destruct ty; try exact Always_skip.
      apply Always_if. apply Always_forEach. exact Always_processDatabase.
    + apply Always_if. apply Always_forEach. exact Always_processDatabase.
  - unfold json.
    destruct n as [[text mods nm tps ty | text mods nm tps hcs ms | o] | | | |];
      try exact Always_skip.
    intros st. destruct (String.eqb nm "Json"); eauto.
Qed.

End WalkReturns.

(** X13.  The transformation returns a text, whatever the source file,
    when the name resolver finds a name for every property signature and
    the four formatters return a string for string arguments: nothing else
    in the walk, the filter, the join or the rewriting can throw. *)
Theorem transformation_returns_when_names_resolve
    (getNodeName : Node -> option string) (opts : TransformTypesOptions) (sf : SourceFile) :
  namesResolve getNodeName -> formattersReturn opts ->
  exists out, transformSourceFile getNodeName opts sf = Ok out.
Proof.
  intros Hn Hf. unfold transformSourceFile, walkSourceFile.
  destruct (Always_forEach (topLevel getNodeName opts) (sourceFileChildren sf)
              (Always_topLevel getNodeName opts Hn Hf) initialState) as [st ->].
  simpl. eauto.
Qed.

Lemma transformation_returns_when_names_resolve_witness :
  exists out,
    transformSourceFile propertyNameText (defaultsFor (textOf quotedTableFile))
      quotedTableFile = Ok out.
Proof.
  apply (transformation_returns_when_names_resolve propertyNameText
           (defaultsFor (textOf quotedTableFile)) quotedTableFile).
  - intros n H. destruct n as [|[t m [x|x|x|x] q ty|]| | |]; try discriminate;
      eexists; reflexivity.
  - repeat split; intros; eexists; reflexivity.
Defined.

Lemma forEach_throws (cb : Node -> Walk) (l : list Node) (e : ZodError) :
  (forall n, Emits anything (cb n)) ->
  forall st,
    forEach cb l st = Throw e
    <-> exists l1 n l2,
          l = (l1 ++ n :: l2)%list
          /\ Forall (fun m => Returns (cb m)) l1
          /\ cb n initialState = Throw e.
Proof.
  intros HE. induction l as [|m l IH]; intros st.
  - split; [discriminate |]. intros [l1 [n [l2 [H _]]]]. now destruct l1.
  - simpl. destruct (HE m) as [A _]. rewrite A.
    destruct (cb m initialState) as [d|e'] eqn:Em; simpl.
    + rewrite IH. split.
      * intros [l1 [n [l2 [-> [HF Hn]]]]]. exists (m :: l1), n, l2.
        split; [reflexivity |]. split; [| exact Hn].
        constructor; [now exists d | exact HF].
      * intros [l1 [n [l2 [Hl [HF Hn]]]]]. destruct l1 as [|m' l1].
        -- injection Hl as -> ->. congruence.
        -- injection Hl as -> ->. apply Forall_cons_iff in HF as [_ HF].
           now exists l1, n, l2.
    + split.
      * intros H. injection H as ->. exists [], m, l. now repeat split.
      * intros [l1 [n [l2 [Hl [HF Hn]]]]]. destruct l1 as [|m' l1].
        -- injection Hl as -> ->. congruence.
        -- injection Hl as -> ->. apply Forall_cons_iff in HF as [[d Hd] _]. congruence.
Qed.

(** X14.  No error is caught.  The transformation throws [e] exactly
    when, among the children of the source file, the callback returns for
    some first children and throws [e] at the next one; what was collected
    before does not matter, and the filter, the join and the rewriting
    never throw. *)
Theorem the_first_error_is_thrown
    (getNodeName : Node -> option string) (opts : TransformTypesOptions) (sf : SourceFile)
    (e : ZodError) :
  transformSourceFile getNodeName opts sf = Throw e
  <-> exists l1 n l2,
        sourceFileChildren sf = (l1 ++ n :: l2)%list
        /\ Forall (fun m => Returns (topLevel getNodeName opts m)) l1
        /\ topLevel getNodeName opts n initialState = Throw e.
Proof.
  rewrite <- (forEach_throws (topLevel getNodeName opts) (sourceFileChildren sf) e)
    with (st := initialState)
    by (intros n; apply Emits_topLevel; unfold anything; auto).
  unfold transformSourceFile, walkSourceFile.
  destruct (forEach (topLevel getNodeName opts) (sourceFileChildren sf) initialState);
    simpl; split; congruence.
Qed.

Lemma accepted_formatters (raw : RawOptions) (opts : TransformTypesOptions) :
  transformTypesOptionsSchema raw = Ok opts ->
  (forall a, enumFormatter opts a
     = Zod.validatedCall 1 (callOr identityFormatter (raw_enumFormatter raw)) [a])
  /\ (forall a, compositeTypeFormatter opts a
        = Zod.validatedCall 1
            (callOr identityFormatter (raw_compositeTypeFormatter raw)) [a])
  /\ (forall a b, functionFormatter opts a b
        = Zod.validatedCall 2 (callOr concatFormatter (raw_functionFormatter raw)) [a; b])
  /\ (forall a b, tableOrViewFormatter opts a b
        = Zod.validatedCall 2
            (callOr concatFormatter (raw_tableOrViewFormatter raw)) [a; b]).
Proof.
  intros H.
  assert (V : validShape raw = true).
  { pose proof (options_failed raw) as F. rewrite H in F. simpl in F.
    destruct (validShape raw); [reflexivity | discriminate]. }
  unfold validShape in V. repeat (apply andb_true_iff in V as [V ?]).
  unfold transformTypesOptionsSchema in H.
  rewrite !flag_accepts in H by assumption.
  rewrite !formatter_accepts in H by (try assumption; reflexivity).
  rewrite string_accepts in H by assumption.
  destruct (raw_sourceText raw) as [[| | | |src]|]; try discriminate. simpl in H.
  injection H as <-. simpl. repeat split; reflexivity.
Qed.

Lemma forEach_throws_same (cb : Node -> Walk) (l : list Node) (e : ZodError) (c : Node) :
  (forall m st, cb m st = Ok st \/ cb m st = Throw e) ->
  In c l -> (forall st, cb c st = Throw e) ->
  forall st, forEach cb l st = Throw e.
Proof.
  intros H Hin Hc. induction l as [|m l IH]; intros st; [destruct Hin |].
  simpl. destruct Hin as [<-|Hin].
  - now rewrite Hc.
  - destruct (H m st) as [E|E]; rewrite E; simpl; [now apply IH | reflexivity].
Qed.

(** X15.  With options the schema accepted, an entry of [Enums] whose
    name the resolver does not find and whose type is a union or a literal
    type makes the walk throw: the formatter is called with [undefined] and
    zod rejects the argument, whatever the caller's function is.  The same
    holds of an entry of [CompositeTypes] whose type is a type literal. *)
Theorem entries_without_a_name_are_rejected
    (getNodeName : Node -> option string) (raw : RawOptions) (opts : TransformTypesOptions)
    (n c : Node) (st : State) :
  transformTypesOptionsSchema raw = Ok opts ->
  isPropertySignature n = true -> getNodeName n = None -> In c (children n) ->
  (isUnionTypeNode c || isLiteralTypeNode c = true ->
   enumEntry getNodeName opts n st = Throw firstArgumentError)
  /\ (isTypeLiteralNode c = true ->
      compositeTypeEntry getNodeName opts n st = Throw firstArgumentError).
Proof.
  intros Hopts Hn Hg Hc.
  destruct (accepted_formatters raw opts Hopts) as [He [Hct _]].
  split; intros Hk.
  - unfold enumEntry. rewrite Hn, Hg. unfold forEachChild.
    apply forEach_throws_same with (c := c); [| exact Hc |].
    + intros m st'. unfold enumType. cbn [nameValue]. rewrite He.
      destruct (isUnionTypeNode m), (isLiteralTypeNode m); simpl; auto.
    + intros st'. unfold enumType. cbn [nameValue]. rewrite He.
      destruct (isUnionTypeNode c), (isLiteralTypeNode c); try discriminate; reflexivity.
  - unfold compositeTypeEntry. rewrite Hn, Hg. unfold forEachChild.
    apply forEach_throws_same with (c := c); [| exact Hc |].
    + intros m st'. unfold compositeType. cbn [nameValue]. rewrite Hct.
      destruct (isTypeLiteralNode m); simpl; auto.
    + intros st'. unfold compositeType. cbn [nameValue]. rewrite Hct, Hk. reflexivity.
Qed.

Lemma entries_without_a_name_are_rejected_witness :
  enumEntry declaredName (defaultsFor (textOf moodFile)) (OfTypeElement computedEntry)
    initialState
  = Throw firstArgumentError.
Proof.
  apply (proj1 (entries_without_a_name_are_rejected declaredName (optionsFor moodFile)
                  (defaultsFor (textOf moodFile)) (OfTypeElement computedEntry)
                  (OfTypeNode (UnionTypeNode "'a' | 'b'")) initialState
                  eq_refl eq_refl eq_refl (or_intror (or_introl eq_refl)))).
  reflexivity.
Defined.


